(** * The AVM persistable state manager (journal) of aztec-packages

    A shallow embedding of [AvmPersistableStateManager]
    (yarn-project/simulator, avm/journal) together with the collaborators it
    drives: the public-storage overlay, the nullifier overlay, the side-effect
    trace and the checkpointed Merkle-tree accessor.

    Objects of the TypeScript program live in a store and are addressed by
    reference, so that a fork and its parent, and the world-state database
    they share, are the same objects across calls.  A method is a computation
    over the store that either returns or throws; what it wrote before
    throwing stays written. *)

From Stdlib Require Import NArith Bool Lia.
From stdpp Require Import base option list gmap.

Set Default Proof Using "Type".

(** ** Field elements, addresses and tree identifiers *)

(** [Fr] values are only compared and stored here; [toBigInt] is the
    identity on the canonical representative. *)
Abbreviation Fr := N (only parsing).
Abbreviation AztecAddress := N (only parsing).

(** [MerkleTreeId], split by the kind of tree: [IndexedTreeId] is the
    subtype the lookups of indexed trees take. *)
Inductive IndexedTreeId :=
  | NULLIFIER_TREE
  | PUBLIC_DATA_TREE.

Inductive AppendOnlyTreeId :=
  | NOTE_HASH_TREE
  | L1_TO_L2_MESSAGE_TREE.

(** Leaf preimage of an indexed tree.  [leafKey] is [slot] for the public
    data tree and [nullifier] for the nullifier tree ([getKey]); a nullifier
    leaf carries no value and keeps [leafValue] at zero. *)
Record IndexedTreeLeafPreimage := mkLeaf {
  leafKey : Fr;
  leafValue : Fr;
  nextKey : Fr;
  nextIndex : nat
}.

Definition emptyLeafPreimage : IndexedTreeLeafPreimage := mkLeaf 0%N 0%N 0%N 0.

Definition withValue (l : IndexedTreeLeafPreimage) (v : Fr) :=
  mkLeaf (leafKey l) v (nextKey l) (nextIndex l).

Definition withNext (l : IndexedTreeLeafPreimage) (k : Fr) (i : nat) :=
  mkLeaf (leafKey l) (leafValue l) k i.

(** ** The indexed tree of the persistent accessor *)

Module IndexedTree.

(** An indexed tree is the array of its leaf preimages, by leaf index. *)
Abbreviation t := (list IndexedTreeLeafPreimage) (only parsing).

(** The tree every indexed tree starts from: one sentinel leaf of key 0. *)
Definition initial : t := [emptyLeafPreimage].

(** Modelled from the spec: the search behind [getPreviousValueIndex].  One
    pass over the keys keeping the position of the largest key that does not
    exceed [k]; [best] is the candidate found so far. *)
Fixpoint scanLow (ks : list Fr) (i : nat) (k : Fr) (best : option (nat * Fr))
  : option (nat * Fr) :=
  match ks with
  | [] => best
  | x :: ks' =>
      let better :=
        (x <=? k)%N &&
        match best with None => true | Some (_, b) => (b <? x)%N end in
      scanLow ks' (S i) k (if better then Some (i, x) else best)
  end.

(** Modelled from the spec: [getPreviousValueIndex] of the persistent
    accessor, whose implementation is not part of the sources.  It
    "returns the index of the leaf whose key is the largest key <= the
    queried key, plus whether that leaf's key equals the queried key
    exactly"; [None] stands for [undefined]. *)
Definition getPreviousValueIndex (tr : t) (k : Fr) : option (nat * bool) :=
  match scanLow (leafKey <$> tr) 0 k None with
  | Some (i, x) => Some (i, (x =? k)%N)
  | None => None
  end.

(** Modelled from the spec: [getLeafPreimage] of the persistent accessor. *)
Definition getLeafPreimage (tr : t) (i : nat) : option IndexedTreeLeafPreimage :=
  tr !! i.

(** Modelled from the spec: [findLeafIndices] for one value of an indexed
    tree, the index of the leaf holding that key. *)
Fixpoint findLeafIndex (tr : t) (k : Fr) : option nat :=
  match tr with
  | [] => None
  | l :: tr' =>
      if (leafKey l =? k)%N then Some 0
      else S <$> findLeafIndex tr' k
  end.

(** Witness of one touched leaf ([LeafUpdateWitnessData]): preimage, index
    and sibling path. *)
Record WitnessData := mkWitness {
  leafPreimage : IndexedTreeLeafPreimage;
  index : nat;
  siblingPath : list Fr
}.

Record SequentialInsertionResult := mkInsertion {
  lowLeavesWitnessData : list WitnessData;
  insertionWitnessData : list WitnessData
}.

Section Insert.
(** Sibling paths are hashes over the tree; they are carried as data. *)
Variable pathOf : t -> nat -> list Fr.

(** The insertion witness the accessor reports when the key was already
    present and the leaf at the given index is updated in place, from the
    tree after the update.  The sources do not show what it holds; the state
    manager reads its sibling path and nothing else. *)
Variable updateWitnessOf : t -> nat -> WitnessData.

(** Modelled from the spec: [sequentialInsert] of the persistent accessor
    for one leaf, whose implementation is not part of the sources.
    "(1) locate the low leaf; (2) if alreadyPresent, update that leaf's
    value in place; (3) otherwise, splice a new leaf between the low leaf
    and its successor, append it to the tree, and return both the low-leaf
    witness (pre-splice state and path) and the new-leaf witness
    (post-insertion state and path)."  The low-leaf witness is the leaf
    located in step (1), as it stood before the operation, in both
    branches.  The result carries one insertion witness in both branches
    too, as the hint recorded for a sequential insert does
    ([AvmSequentialInsertHint], whose [insertionWitnessData] is not
    optional): no new leaf is made on an update, but the list of insertion
    witnesses is never empty. *)
Definition sequentialInsert (tr : t) (k v : Fr)
  : option (SequentialInsertionResult * t) :=
  match getPreviousValueIndex tr k with
  | None => None
  | Some (i, alreadyPresent) =>
      match tr !! i with
      | None => None
      | Some low =>
          let lowWitness := mkWitness low i (pathOf tr i) in
          if alreadyPresent then
            let tr' := <[i := withValue low v]> tr in
            Some (mkInsertion [lowWitness] [updateWitnessOf tr' i], tr')
          else
            let n := length tr in
            let new := mkLeaf k v (nextKey low) (nextIndex low) in
            let tr' := <[i := withNext low k n]> tr ++ [new] in
            Some (mkInsertion [lowWitness] [mkWitness new n (pathOf tr' n)],
                  tr')
      end
  end.
End Insert.

(** The linked-list invariant: a leaf that has a successor points at a leaf
    holding exactly its [nextKey], and that key is larger than its own. *)
Definition linked (tr : t) : Prop :=
  ∀ i l, tr !! i = Some l → nextIndex l ≠ 0 →
    ∃ m, tr !! nextIndex l = Some m ∧ leafKey m = nextKey l ∧
         (leafKey l < nextKey l)%N.

(** The test both lookups of the state manager assert on a low leaf. *)
Definition skips (l : IndexedTreeLeafPreimage) (k : Fr) : bool :=
  (leafKey l <? k)%N && ((nextIndex l =? 0) || (k <? nextKey l)%N).

End IndexedTree.

(** ** Primitives supplied from outside

    Hashing (siloing, sibling paths) and the protocol's canonical addresses
    come from [circuits.js], the witness of an update in place from the
    persistent accessor; the state manager only passes them around. *)
Class Primitives := {
  computePublicDataTreeLeafSlot : AztecAddress → Fr → Fr;
  siloNullifier : AztecAddress → Fr → Fr;
  indexedTreePath : IndexedTree.t → nat → list Fr;
  indexedTreeUpdateWitness : IndexedTree.t → nat → IndexedTree.WitnessData;
  appendOnlyTreePath : list Fr → nat → list Fr;
  CANONICAL_AUTH_REGISTRY_ADDRESS : N;
  DEPLOYER_CONTRACT_ADDRESS : N;
  REGISTERER_CONTRACT_ADDRESS : N;
  MULTI_CALL_ENTRYPOINT_ADDRESS : N;
  FEE_JUICE_ADDRESS : N;
  ROUTER_ADDRESS : N
}.

(** ** The world-state database *)

Record TreeState := mkTreeState {
  nullifierTree : IndexedTree.t;
  publicDataTree : IndexedTree.t;
  noteHashTree : list Fr;
  l1ToL2MessageTree : list Fr
}.

Record SerializableContractInstance := mkInstance {
  contractClassId : Fr;
  instanceFields : list Fr
}.

Record ContractClass := mkClass {
  artifactHash : Fr;
  privateFunctionsRoot : Fr;
  packedBytecode : list N
}.

Record ContractClassPreimage := mkClassPreimage {
  preimageArtifactHash : Fr;
  preimagePrivateFunctionsRoot : Fr;
  publicBytecodeCommitment : Fr
}.

(** Modelled from the spec: the persistent accessor behind [WorldStateDB],
    whose implementation is not part of the sources.  [trees] is the current
    state of the four trees; [checkpoints] is the stack of snapshots taken by
    [createCheckpoint] ("checkpoints nest (stack discipline matching the call
    stack)"); the contract tables answer [getContractInstance],
    [getContractClass] and [getBytecodeCommitment]. *)
Record WorldStateDB := mkWorld {
  trees : TreeState;
  checkpoints : list TreeState;
  contractInstances : gmap N SerializableContractInstance;
  contractClasses : gmap N ContractClass;
  bytecodeCommitments : gmap N Fr
}.

Definition indexedTree (treeId : IndexedTreeId) (s : TreeState) : IndexedTree.t :=
  match treeId with
  | NULLIFIER_TREE => nullifierTree s
  | PUBLIC_DATA_TREE => publicDataTree s
  end.

Definition setIndexedTree (treeId : IndexedTreeId) (tr : IndexedTree.t)
  (s : TreeState) : TreeState :=
  match treeId with
  | NULLIFIER_TREE =>
      mkTreeState tr (publicDataTree s) (noteHashTree s) (l1ToL2MessageTree s)
  | PUBLIC_DATA_TREE =>
      mkTreeState (nullifierTree s) tr (noteHashTree s) (l1ToL2MessageTree s)
  end.

Definition appendOnlyTree (treeId : AppendOnlyTreeId) (s : TreeState) : list Fr :=
  match treeId with
  | NOTE_HASH_TREE => noteHashTree s
  | L1_TO_L2_MESSAGE_TREE => l1ToL2MessageTree s
  end.

Definition setTrees (s : TreeState) (w : WorldStateDB) : WorldStateDB :=
  mkWorld s (checkpoints w) (contractInstances w) (contractClasses w)
    (bytecodeCommitments w).

Definition setCheckpoints (cs : list TreeState) (w : WorldStateDB) : WorldStateDB :=
  mkWorld (trees w) cs (contractInstances w) (contractClasses w)
    (bytecodeCommitments w).

(** ** The side-effect trace *)

Record LeafHint := mkHint {
  hintPreimage : IndexedTreeLeafPreimage;
  hintIndex : Fr;
  hintPath : list Fr
}.

(** One constructor per [trace*] call the state manager makes, with the
    arguments of the call; the optional parts are the witnesses passed in
    Merkle mode only. *)
Inductive TraceEvent :=
  | PublicStorageWrite (contractAddress : AztecAddress) (slot value : Fr)
      (protocolWrite : bool)
      (witness : option (LeafHint * IndexedTreeLeafPreimage * option (list Fr)))
  | PublicStorageRead (contractAddress : AztecAddress) (slot value : Fr)
      (witness : option LeafHint)
  | NoteHashCheck (contractAddress : AztecAddress) (gotLeafValue leafIndex : Fr)
      (exists_ : bool) (path : option (list Fr))
  | L1ToL2MessageCheck (contractAddress : AztecAddress)
      (valueAtIndex msgLeafIndex : Fr) (exists_ : bool) (path : option (list Fr))
  | NullifierCheck (siloedNullifier : Fr) (exists_ : bool)
      (witness : option LeafHint)
  | NewNullifier (siloedNullifier : Fr)
      (witness : option (LeafHint * list Fr))
  | GetContractInstance (contractAddress : AztecAddress) (exists_ : bool)
      (instance : option SerializableContractInstance)
      (witness : option LeafHint)
  | GetBytecode (contractAddress : AztecAddress) (exists_ : bool)
      (bytecode : option (list N))
      (instance : option SerializableContractInstance)
      (contractClass : option ContractClassPreimage)
      (witness : option LeafHint).

Module Trace.

(** Modelled from the spec: the side-effect trace, whose implementation is
    not part of the sources.  It "records ordered hints per operation";
    [merge childTrace reverted] takes the child's entries over, marked
    reverted when the fork was rejected.  An entry is an event with its
    reverted mark. *)
Abbreviation t := (list (TraceEvent * bool)) (only parsing).

(** Modelled from the spec: a [trace*] call appends its entry. *)
Definition record (e : TraceEvent) (tr : t) : t := tr ++ [(e, false)].

(** Modelled from the spec: the trace of a fork starts empty. *)
Definition fork (tr : t) : t := [].

(** Modelled from the spec: [merge(childTrace, reverted)]. *)
Definition merge (tr child : t) (reverted : bool) : t :=
  tr ++ ((λ er : TraceEvent * bool, (er.1, er.2 || reverted)) <$> child).

End Trace.

(** ** Objects and the store *)

(** A reference to a state manager object. *)
Definition ref := nat.

(** Modelled from the spec: the Value Cache ([PublicStorage]), whose
    implementation is not part of the sources: "an in-memory overlay mapping
    (address, slot) -> latest written value"; a fork "reads through to the
    parent on cache miss but writes only to itself".  The parent link is fixed
    at construction, so the chain of parents is kept flattened, nearest
    first, each named by the state manager that owns that overlay. *)
Record PublicStorage := mkPublicStorage {
  storageCache : gmap (N * N) Fr;
  storageParents : list ref
}.

(** Modelled from the spec: the Append Set Cache ([NullifierManager]), whose
    implementation is not part of the sources: "an in-memory overlay of
    pending not-yet-persisted set members", forked like the Value Cache.
    The pending set is kept in the order its members were added, the order
    in which a JavaScript [Set] is gone through when a fork's nullifiers are
    taken over; no member occurs twice. *)
Record NullifierManager := mkNullifierManager {
  nullifierCache : list N;
  nullifierParents : list ref
}.

(** Modelled from the spec: the ephemeral tree-shape state
    ([AvmEphemeralForest]), "an explicit current-view handle owned by the
    State Manager, replaced atomically on merge".  No operation of this
    version of the state manager reads it. *)
Record AvmEphemeralForest := mkForest {
  forestView : TreeState
}.

Record AvmPersistableStateManager := mkStateManager {
  alreadyMergedIntoParent : bool;
  trace : Trace.t;
  publicStorage : PublicStorage;
  nullifiers : NullifierManager;
  doMerkleOperations : bool;
  merkleTrees : AvmEphemeralForest;
  firstNullifier : Fr
}.

(** The store: every state manager object created so far, by reference, and
    the one world-state database all of them wrap. *)
Record Machine := mkMachine {
  objects : list AvmPersistableStateManager;
  worldStateDB : WorldStateDB
}.

(** ** Completions *)

(** The [assert]s of the state manager, one name per call site. *)
Inductive Assertion :=
  | ForkAlreadyMerged
  | PublicDataInsertionFailed
  | PublicDataWriteValueMismatch
  | PublicDataReadValueMismatch
  | PublicDataLowLeafSkip
  | NullifierTreeDisagreement
  | NullifierLowLeafSkip
  | ContractInstanceDisagreement
  | ContractClassNotFound
  | BytecodeCommitmentNotFound
  | LowLeafIndexNotFound (treeId : IndexedTreeId)
  | LowLeafPreimageUndefined (treeId : IndexedTreeId).

(** What a method can throw: a failed [assert] (fatal), the one recoverable
    error, a property read on [undefined], a checkpoint closed when none is
    open, and a reference without an object, which the store allows and
    TypeScript does not. *)
Inductive Exception :=
  | AssertionError (a : Assertion)
  | NullifierCollisionError
  | TypeError
  | CheckpointError
  | DanglingReference.

Inductive Completion (A : Type) :=
  | Returns (a : A)
  | Throws (e : Exception).
Arguments Returns {A} a.
Arguments Throws {A} e.

(** A method runs on the store; the store it leaves is kept whether it
    returns or throws. *)
Definition Method (A : Type) := Machine → Completion A * Machine.

Definition ret {A} (a : A) : Method A := λ m, (Returns a, m).

Definition throw {A} (e : Exception) : Method A := λ m, (Throws e, m).

Definition bind {A B} (c : Method A) (k : A → Method B) : Method B :=
  λ m, match c m with
       | (Returns a, m') => k a m'
       | (Throws e, m') => (Throws e, m')
       end.

Declare Scope method_scope.
Delimit Scope method_scope with method.
Notation "x <- c ;; k" := (bind c (λ x, k))
  (at level 100, c at next level, right associativity) : method_scope.
Notation "c ;; k" := (bind c (λ _, k))
  (at level 100, right associativity) : method_scope.
Open Scope method_scope.

Definition assert (b : bool) (a : Assertion) : Method unit :=
  if b then ret tt else throw (AssertionError a).

Definition getObject (r : ref) : Method AvmPersistableStateManager :=
  λ m, match objects m !! r with
       | Some sm => (Returns sm, m)
       | None => (Throws DanglingReference, m)
       end.

(** A write to fields of the object behind [r]. *)
Definition updateObject (r : ref)
  (f : AvmPersistableStateManager → AvmPersistableStateManager) : Method unit :=
  λ m, match objects m !! r with
       | Some sm =>
           (Returns tt, mkMachine (<[r := f sm]> (objects m)) (worldStateDB m))
       | None => (Throws DanglingReference, m)
       end.

Definition newObject (sm : AvmPersistableStateManager) : Method ref :=
  λ m, (Returns (length (objects m)),
        mkMachine (objects m ++ [sm]) (worldStateDB m)).

Definition getWorld : Method WorldStateDB := λ m, (Returns (worldStateDB m), m).

Definition setWorld (w : WorldStateDB) : Method unit :=
  λ m, (Returns tt, mkMachine (objects m) w).

(** [for (const x of xs) { await body(x); }] *)
Fixpoint forEach {A} (xs : list A) (body : A → Method unit) : Method unit :=
  match xs with
  | [] => ret tt
  | x :: xs' => body x ;; forEach xs' body
  end.

(** Field updates of a state manager object. *)
Definition setAlreadyMerged (b : bool) (sm : AvmPersistableStateManager) :=
  mkStateManager b (trace sm) (publicStorage sm) (nullifiers sm)
    (doMerkleOperations sm) (merkleTrees sm) (firstNullifier sm).

Definition setTrace (tr : Trace.t) (sm : AvmPersistableStateManager) :=
  mkStateManager (alreadyMergedIntoParent sm) tr (publicStorage sm)
    (nullifiers sm) (doMerkleOperations sm) (merkleTrees sm) (firstNullifier sm).

Definition setPublicStorage (ps : PublicStorage) (sm : AvmPersistableStateManager) :=
  mkStateManager (alreadyMergedIntoParent sm) (trace sm) ps (nullifiers sm)
    (doMerkleOperations sm) (merkleTrees sm) (firstNullifier sm).

Definition setNullifiers (nm : NullifierManager) (sm : AvmPersistableStateManager) :=
  mkStateManager (alreadyMergedIntoParent sm) (trace sm) (publicStorage sm) nm
    (doMerkleOperations sm) (merkleTrees sm) (firstNullifier sm).

Definition setMerkleTrees (f : AvmEphemeralForest) (sm : AvmPersistableStateManager) :=
  mkStateManager (alreadyMergedIntoParent sm) (trace sm) (publicStorage sm)
    (nullifiers sm) (doMerkleOperations sm) f (firstNullifier sm).

(** [this.trace.trace*(...)] *)
Definition traceEvent (this : ref) (e : TraceEvent) : Method unit :=
  updateObject this (λ sm, setTrace (Trace.record e (trace sm)) sm).

(** The machine a method leaves, and its completion. *)
Definition after {A} (c : Method A) (m : Machine) : Machine := (c m).2.
Definition completion {A} (c : Method A) (m : Machine) : Completion A := (c m).1.

Section StateManager.
Context `{Primitives}.

(** ** The persistent accessor, as the state manager calls it *)

(** Modelled from the spec: [createCheckpoint], [commitCheckpoint] and
    [revertCheckpoint] of the persistent accessor, whose implementation is
    not part of the sources.  Checkpoints "are created/committed/reverted in
    strict LIFO order"; committing keeps the current trees, reverting goes
    back to the snapshot.  Closing a checkpoint when none is open, which the
    spec leaves undefined, throws. *)
Definition createCheckpoint : Method unit :=
  w <- getWorld ;;
  setWorld (setCheckpoints (trees w :: checkpoints w) w).

Definition commitCheckpoint : Method unit :=
  w <- getWorld ;;
  match checkpoints w with
  | [] => throw CheckpointError
  | _ :: cs => setWorld (setCheckpoints cs w)
  end.

Definition revertCheckpoint : Method unit :=
  w <- getWorld ;;
  match checkpoints w with
  | [] => throw CheckpointError
  | s :: cs => setWorld (setCheckpoints cs (setTrees s w))
  end.

(** [this.db.*]: the lookups and the insert of the persistent accessor, on
    the current trees of the database.  [getSiblingPath] is split by the kind
    of tree it is asked about. *)
Definition db_getPreviousValueIndex (treeId : IndexedTreeId) (key : Fr)
  : Method (option (nat * bool)) :=
  w <- getWorld ;;
  ret (IndexedTree.getPreviousValueIndex (indexedTree treeId (trees w)) key).

Definition db_getLeafPreimage (treeId : IndexedTreeId) (i : nat)
  : Method (option IndexedTreeLeafPreimage) :=
  w <- getWorld ;;
  ret (IndexedTree.getLeafPreimage (indexedTree treeId (trees w)) i).

Definition db_getIndexedSiblingPath (treeId : IndexedTreeId) (i : nat)
  : Method (list Fr) :=
  w <- getWorld ;;
  ret (indexedTreePath (indexedTree treeId (trees w)) i).

Definition db_getSiblingPath (treeId : AppendOnlyTreeId) (i : nat)
  : Method (list Fr) :=
  w <- getWorld ;;
  ret (appendOnlyTreePath (appendOnlyTree treeId (trees w)) i).

(** Modelled from the spec: [getLeafValue] of an append-only tree, the raw
    leaf at an index, [None] ([undefined]) past the end. *)
Definition db_getLeafValue (treeId : AppendOnlyTreeId) (i : nat)
  : Method (option Fr) :=
  w <- getWorld ;;
  ret (appendOnlyTree treeId (trees w) !! i).

Definition db_sequentialInsert (treeId : IndexedTreeId) (key value : Fr)
  : Method (option IndexedTree.SequentialInsertionResult) :=
  w <- getWorld ;;
  match IndexedTree.sequentialInsert indexedTreePath indexedTreeUpdateWitness
          (indexedTree treeId (trees w)) key value with
  | None => ret None
  | Some (result, tr') =>
      setWorld (setTrees (setIndexedTree treeId tr' (trees w)) w) ;;
      ret (Some result)
  end.

(** Modelled from the spec: the persistent read behind the Value Cache; it
    "queries the persistent accessor (siloed by address+slot into a single
    leaf-slot key) and returns 0 if never written". *)
Definition storageRead (contractAddress : AztecAddress) (slot : Fr) : Method Fr :=
  w <- getWorld ;;
  let leafSlot := computePublicDataTreeLeafSlot contractAddress slot in
  let tr := publicDataTree (trees w) in
  ret match IndexedTree.getPreviousValueIndex tr leafSlot with
      | Some (i, true) =>
          match tr !! i with Some l => leafValue l | None => 0%N end
      | _ => 0%N
      end.

(** Modelled from the spec: the persistent membership test behind the Append
    Set Cache, the index of the nullifier's leaf if the tree holds it. *)
Definition getNullifierIndex (siloedNullifier : Fr) : Method (option nat) :=
  w <- getWorld ;;
  ret (IndexedTree.findLeafIndex (nullifierTree (trees w)) siloedNullifier).

(** ** Value Cache *)

(** Modelled from the spec: the read "through to the parent on cache miss",
    along the chain of parents. *)
Fixpoint readParents (objs : list AvmPersistableStateManager) (ps : list ref)
  (key : N * N) : option Fr :=
  match ps with
  | [] => None
  | p :: ps' =>
      match objs !! p ≫= (λ sm, storageCache (publicStorage sm) !! key) with
      | Some v => Some v
      | None => readParents objs ps' key
      end
  end.

Definition readHereOrParent (objs : list AvmPersistableStateManager)
  (ps : PublicStorage) (key : N * N) : option Fr :=
  match storageCache ps !! key with
  | Some v => Some v
  | None => readParents objs (storageParents ps) key
  end.

(** Modelled from the spec: [PublicStorage.read], "returns the overlay's
    value if present; otherwise queries the persistent accessor and returns 0
    if never written"; the result is [{value, cached}]. *)
Definition publicStorage_read (this : ref) (contractAddress : AztecAddress)
  (slot : Fr) : Method (Fr * bool) :=
  sm <- getObject this ;;
  λ m, match readHereOrParent (objects m) (publicStorage sm)
               (contractAddress, slot) with
       | Some v => ret (v, true) m
       | None => (v <- storageRead contractAddress slot ;; ret (v, false)) m
       end.

(** Modelled from the spec: [PublicStorage.write], "stores into the overlay
    unconditionally, overwriting any prior pending value for that key, and
    never touches persistent storage itself". *)
Definition publicStorage_write (this : ref) (contractAddress : AztecAddress)
  (slot value : Fr) : Method unit :=
  updateObject this (λ sm,
    let ps := publicStorage sm in
    setPublicStorage
      (mkPublicStorage (<[(contractAddress, slot) := value]> (storageCache ps))
         (storageParents ps)) sm).

(** Modelled from the spec: [PublicStorage.fork], "a child overlay that reads
    through to the parent on cache miss but writes only to itself". *)
Definition publicStorage_fork (this : ref) (ps : PublicStorage) : PublicStorage :=
  mkPublicStorage ∅ (this :: storageParents ps).

(** Modelled from the spec: [PublicStorage.acceptAndMerge], which "copies the
    child's entries into the parent's overlay, overwriting". *)
Definition publicStorage_acceptAndMerge (this child : ref) : Method unit :=
  c <- getObject child ;;
  updateObject this (λ sm,
    let ps := publicStorage sm in
    setPublicStorage
      (mkPublicStorage (storageCache (publicStorage c) ∪ storageCache ps)
         (storageParents ps)) sm).

(** ** Append Set Cache *)

(** Modelled from the spec: membership in this overlay or one up the chain. *)
Definition pendingIn (objs : list AvmPersistableStateManager) (n : Fr) (p : ref)
  : bool :=
  match objs !! p with
  | Some sm => bool_decide (n ∈ nullifierCache (nullifiers sm))
  | None => false
  end.

Definition checkExistsHereOrParent (objs : list AvmPersistableStateManager)
  (nm : NullifierManager) (n : Fr) : bool :=
  bool_decide (n ∈ nullifierCache nm) ||
  existsb (pendingIn objs n) (nullifierParents nm).

(** Modelled from the spec: [NullifierManager.checkExists], which "reports
    set membership considering both this overlay and, through a supplied
    callback, the persistent accessor"; the result is
    [[exists, isPending, leafIndex]]. *)
Definition nullifiers_checkExists (this : ref) (siloedNullifier : Fr)
  : Method (bool * bool * Fr) :=
  sm <- getObject this ;;
  λ m, if checkExistsHereOrParent (objects m) (nullifiers sm) siloedNullifier
       then ret (true, true, 0%N) m
       else (leafIndex <- getNullifierIndex siloedNullifier ;;
             ret (bool_decide (is_Some leafIndex), false,
                  from_option N.of_nat 0%N leafIndex)) m.

(** Modelled from the spec: the write to the pending set that [append] and
    [acceptAndMerge] share; the set of the object behind [this] takes one
    more member, which both have found to be new to it. *)
Definition nullifiers_add (this : ref) (siloedNullifier : Fr) : Method unit :=
  updateObject this (λ sm,
    let nm := nullifiers sm in
    setNullifiers
      (mkNullifierManager (nullifierCache nm ++ [siloedNullifier])
         (nullifierParents nm)) sm).

(** Modelled from the spec: [NullifierManager.append], which "adds to a
    pending set".  In the program it is the cache that turns a duplicate
    down: [append] asks [checkExists] first and throws
    [NullifierCollisionError] for a nullifier that exists already, pending
    in this overlay or one up the chain, or held by the persistent tree.
    [writeSiloedNullifier] awaits it and, without Merkle operations, makes
    no check of its own. *)
Definition nullifiers_append (this : ref) (siloedNullifier : Fr) : Method unit :=
  r <- nullifiers_checkExists this siloedNullifier ;;
  if r.1.1 then throw NullifierCollisionError
  else nullifiers_add this siloedNullifier.

(** Modelled from the spec: [NullifierManager.fork], as for the Value Cache. *)
Definition nullifiers_fork (this : ref) (nm : NullifierManager) : NullifierManager :=
  mkNullifierManager [] (this :: nullifierParents nm).

(** Modelled from the spec: one step of [NullifierManager.acceptAndMerge];
    an incoming nullifier the receiver holds already is a collision, any
    other is added. *)
Definition nullifiers_accept (this : ref) (incomingNullifier : Fr) : Method unit :=
  sm <- getObject this ;;
  if bool_decide (incomingNullifier ∈ nullifierCache (nullifiers sm))
  then throw NullifierCollisionError
  else nullifiers_add this incomingNullifier.

(** Modelled from the spec: [NullifierManager.acceptAndMerge], which takes
    the child's pending nullifiers over one by one, in the order the child
    added them.  The sets of parent and child are meant to be disjoint: a
    nullifier of the child that the receiver's own overlay holds already
    throws [NullifierCollisionError], with the nullifiers before it taken
    over. *)
Definition nullifiers_acceptAndMerge (this child : ref) : Method unit :=
  c <- getObject child ;;
  forEach (nullifierCache (nullifiers c)) (nullifiers_accept this).

(** [this.trace.merge(forkedState.trace, reverted)] *)
Definition trace_merge (this child : ref) (reverted : bool) : Method unit :=
  c <- getObject child ;;
  updateObject this (λ sm,
    setTrace (Trace.merge (trace sm) (trace c) reverted) sm).

(** ** The state manager

    The methods follow [AvmPersistableStateManager] statement by statement;
    [this] is the reference of the receiver.  Logging is left out. *)

(** "The result of fetching a leaf from an indexed tree." *)
Record GetLeafResult := mkLeafResult {
  preimage : IndexedTreeLeafPreimage;
  leafIndex : nat;
  alreadyPresent : bool
}.

(** [AvmPersistableStateManager.create], on the world-state database of the
    store. *)
Definition create (doMerkle : bool) (firstNullifier_ : Fr) : Method ref :=
  w <- getWorld ;;
  newObject
    (mkStateManager false [] (mkPublicStorage ∅ []) (mkNullifierManager [] [])
       doMerkle (mkForest (trees w)) firstNullifier_).

(** "Create a new state manager forked from this one" *)
Definition fork (this : ref) : Method ref :=
  createCheckpoint ;;
  sm <- getObject this ;;
  newObject
    (mkStateManager false
       (Trace.fork (trace sm))
       (publicStorage_fork this (publicStorage sm))
       (nullifiers_fork this (nullifiers sm))
       (doMerkleOperations sm)
       (merkleTrees sm)
       (firstNullifier sm)).

(** The body shared by [merge] and [reject]; the flag write is the "sanity
    check to avoid merging the same forked trace twice". *)
Definition _merge (this forkedState : ref) (reverted : bool) : Method unit :=
  fs <- getObject forkedState ;;
  assert (negb (alreadyMergedIntoParent fs)) ForkAlreadyMerged ;;
  updateObject forkedState (setAlreadyMerged true) ;;
  publicStorage_acceptAndMerge this forkedState ;;
  nullifiers_acceptAndMerge this forkedState ;;
  trace_merge this forkedState reverted ;;
  if reverted then
    revertCheckpoint
  else
    commitCheckpoint ;;
    fs' <- getObject forkedState ;;
    updateObject this (setMerkleTrees (merkleTrees fs')).

(** "Accept forked world state modifications & traced side effects / hints" *)
Definition merge (this forkedState : ref) : Method unit :=
  _merge this forkedState false.

(** "Reject forked world state modifications & traced side effects, keep
    traced hints" *)
Definition reject (this forkedState : ref) : Method unit :=
  _merge this forkedState true.

Definition getLeafOrLowLeafInfo (treeId : IndexedTreeId) (key : Fr)
  : Method GetLeafResult :=
  leafOrLowLeafIndex <- db_getPreviousValueIndex treeId key ;;
  match leafOrLowLeafIndex with
  | None => throw (AssertionError (LowLeafIndexNotFound treeId))
  | Some (leafIndex_, alreadyPresent_) =>
      leafPreimage_ <- db_getLeafPreimage treeId leafIndex_ ;;
      match leafPreimage_ with
      | None => throw (AssertionError (LowLeafPreimageUndefined treeId))
      | Some p => ret (mkLeafResult p leafIndex_ alreadyPresent_)
      end
  end.

(** "Write to public storage, journal/trace the write." *)
Definition writeStorage (this : ref) (contractAddress : AztecAddress)
  (slot value : Fr) (protocolWrite : bool) : Method unit :=
  let leafSlot := computePublicDataTreeLeafSlot contractAddress slot in
  publicStorage_write this contractAddress slot value ;;
  sm <- getObject this ;;
  if doMerkleOperations sm then
    result <- db_sequentialInsert PUBLIC_DATA_TREE leafSlot value ;;
    match result with
    | None => throw (AssertionError PublicDataInsertionFailed)
    | Some result =>
        match IndexedTree.lowLeavesWitnessData result !! 0 with
        | None => throw TypeError
        | Some low =>
            let lowLeafPreimage := IndexedTree.leafPreimage low in
            let lowLeafIndex := IndexedTree.index low in
            let lowLeafPath := IndexedTree.siblingPath low in
            new <-
              match IndexedTree.insertionWitnessData result with
              | [] =>
                  assert (leafValue lowLeafPreimage =? value)%N
                    PublicDataWriteValueMismatch ;;
                  ret (lowLeafPreimage, None)
              | ins :: _ =>
                  ret (mkLeaf leafSlot value (nextKey lowLeafPreimage)
                         (nextIndex lowLeafPreimage),
                       Some (IndexedTree.siblingPath ins))
              end ;;
            traceEvent this
              (PublicStorageWrite contractAddress slot value protocolWrite
                 (Some (mkHint lowLeafPreimage (N.of_nat lowLeafIndex) lowLeafPath,
                        new.1, new.2)))
        end
    end
  else
    traceEvent this
      (PublicStorageWrite contractAddress slot value protocolWrite None).

(** "Read from public storage, trace the read."  Returns "the latest value
    written to slot, or 0 if never written to before". *)
Definition readStorage (this : ref) (contractAddress : AztecAddress) (slot : Fr)
  : Method Fr :=
  r <- publicStorage_read this contractAddress slot ;;
  let value := r.1 in
  let leafSlot := computePublicDataTreeLeafSlot contractAddress slot in
  sm <- getObject this ;;
  (if doMerkleOperations sm then
     info <- getLeafOrLowLeafInfo PUBLIC_DATA_TREE leafSlot ;;
     siblingPath <- db_getIndexedSiblingPath PUBLIC_DATA_TREE (leafIndex info) ;;
     let leafPreimage := preimage info in
     (if alreadyPresent info then
        assert (leafValue leafPreimage =? value)%N PublicDataReadValueMismatch
      else
        assert (IndexedTree.skips leafPreimage leafSlot) PublicDataLowLeafSkip) ;;
     traceEvent this
       (PublicStorageRead contractAddress slot value
          (Some (mkHint leafPreimage (N.of_nat (leafIndex info)) siblingPath)))
   else
     traceEvent this (PublicStorageRead contractAddress slot value None)) ;;
  ret value.

(** "Read from public storage, don't trace the read." *)
Definition peekStorage (this : ref) (contractAddress : AztecAddress) (slot : Fr)
  : Method Fr :=
  r <- publicStorage_read this contractAddress slot ;;
  ret r.1.

(** "Check if a note hash exists at the given leaf index, trace the check."
    [getCommitmentValue] is the leaf of the note-hash tree at the index. *)
Definition checkNoteHashExists (this : ref) (contractAddress : AztecAddress)
  (noteHash leafIndex_ : Fr) : Method bool :=
  got <- db_getLeafValue NOTE_HASH_TREE (N.to_nat leafIndex_) ;;
  let gotLeafValue := default 0%N got in
  let exists_ := (gotLeafValue =? noteHash)%N in
  sm <- getObject this ;;
  (if doMerkleOperations sm then
     path <- db_getSiblingPath NOTE_HASH_TREE (N.to_nat leafIndex_) ;;
     traceEvent this
       (NoteHashCheck contractAddress gotLeafValue leafIndex_ exists_ (Some path))
   else
     traceEvent this
       (NoteHashCheck contractAddress gotLeafValue leafIndex_ exists_ None)) ;;
  ret exists_.

Definition checkL1ToL2MessageExists (this : ref) (contractAddress : AztecAddress)
  (msgHash msgLeafIndex : Fr) : Method bool :=
  got <- db_getLeafValue L1_TO_L2_MESSAGE_TREE (N.to_nat msgLeafIndex) ;;
  let valueAtIndex := default 0%N got in
  let exists_ := (valueAtIndex =? msgHash)%N in
  sm <- getObject this ;;
  (if doMerkleOperations sm then
     path <- db_getSiblingPath L1_TO_L2_MESSAGE_TREE (N.to_nat msgLeafIndex) ;;
     traceEvent this
       (L1ToL2MessageCheck contractAddress valueAtIndex msgLeafIndex exists_
          (Some path))
   else
     traceEvent this
       (L1ToL2MessageCheck contractAddress valueAtIndex msgLeafIndex exists_ None)) ;;
  ret exists_.

(** The result is [[exists, leafOrLowLeafPreimage, leafOrLowLeafIndex,
    leafOrLowLeafPath]]. *)
Definition getNullifierMembership (this : ref) (siloedNullifier : Fr)
  : Method (bool * LeafHint) :=
  r <- nullifiers_checkExists this siloedNullifier ;;
  let exists_ := r.1.1 in
  sm <- getObject this ;;
  if doMerkleOperations sm then
    info <- getLeafOrLowLeafInfo NULLIFIER_TREE siloedNullifier ;;
    let leafPreimage := preimage info in
    leafPath <- db_getIndexedSiblingPath NULLIFIER_TREE (leafIndex info) ;;
    assert (eqb (alreadyPresent info) exists_) NullifierTreeDisagreement ;;
    (if exists_ then ret tt
     else assert (IndexedTree.skips leafPreimage siloedNullifier)
            NullifierLowLeafSkip) ;;
    ret (exists_, mkHint leafPreimage (N.of_nat (leafIndex info)) leafPath)
  else
    ret (exists_, mkHint emptyLeafPreimage 0%N []).

Definition checkNullifierExists (this : ref) (contractAddress : AztecAddress)
  (nullifier : Fr) : Method bool :=
  let siloedNullifier := siloNullifier contractAddress nullifier in
  r <- getNullifierMembership this siloedNullifier ;;
  sm <- getObject this ;;
  (if doMerkleOperations sm then
     traceEvent this (NullifierCheck siloedNullifier r.1 (Some r.2))
   else
     traceEvent this (NullifierCheck siloedNullifier r.1 None)) ;;
  ret r.1.

(** "Write a nullifier to the nullifier set, trace the write."  The two
    reads of the tree root around the insert only feed the log. *)
Definition writeSiloedNullifier (this : ref) (siloedNullifier : Fr) : Method unit :=
  sm <- getObject this ;;
  if doMerkleOperations sm then
    info <- getLeafOrLowLeafInfo NULLIFIER_TREE siloedNullifier ;;
    if alreadyPresent info then
      path <- db_getIndexedSiblingPath NULLIFIER_TREE (leafIndex info) ;;
      traceEvent this
        (NullifierCheck siloedNullifier (alreadyPresent info)
           (Some (mkHint (preimage info) (N.of_nat (leafIndex info)) path))) ;;
      throw NullifierCollisionError
    else
      nullifiers_append this siloedNullifier ;;
      appendResult <- db_sequentialInsert NULLIFIER_TREE siloedNullifier 0%N ;;
      match appendResult with
      | None => throw TypeError
      | Some appendResult =>
          match IndexedTree.lowLeavesWitnessData appendResult !! 0,
                IndexedTree.insertionWitnessData appendResult !! 0 with
          | Some low, Some ins =>
              traceEvent this
                (NewNullifier siloedNullifier
                   (Some (mkHint (IndexedTree.leafPreimage low)
                            (N.of_nat (IndexedTree.index low))
                            (IndexedTree.siblingPath low),
                          IndexedTree.siblingPath ins)))
          | _, _ => throw TypeError
          end
      end
  else
    nullifiers_append this siloedNullifier ;;
    traceEvent this (NewNullifier siloedNullifier None).

Definition writeNullifier (this : ref) (contractAddress : AztecAddress)
  (nullifier : Fr) : Method unit :=
  writeSiloedNullifier this (siloNullifier contractAddress nullifier).

(** [Fr.isEmpty] *)
Definition isEmpty (n : Fr) : bool := (n =? 0)%N.

Definition writeSiloedNullifiersFromPrivate (this : ref) (siloedNullifiers : list Fr)
  : Method unit :=
  forEach (filter (λ n, negb (isEmpty n)) siloedNullifiers)
    (λ siloedNullifier, writeSiloedNullifier this siloedNullifier).

Definition contractAddressIsCanonical (contractAddress : AztecAddress) : bool :=
  (contractAddress =? CANONICAL_AUTH_REGISTRY_ADDRESS)%N ||
  (contractAddress =? DEPLOYER_CONTRACT_ADDRESS)%N ||
  (contractAddress =? REGISTERER_CONTRACT_ADDRESS)%N ||
  (contractAddress =? MULTI_CALL_ENTRYPOINT_ADDRESS)%N ||
  (contractAddress =? FEE_JUICE_ADDRESS)%N ||
  (contractAddress =? ROUTER_ADDRESS)%N.

(** The part [getContractInstance] and [getBytecode] share: the instance the
    database reports and, unless the address is canonical, the membership of
    its deployment nullifier, asserted to agree. *)
Definition instanceAndMembership (this : ref) (contractAddress : AztecAddress)
  : Method (option SerializableContractInstance * LeafHint) :=
  w <- getWorld ;;
  let instanceWithAddress := contractInstances w !! contractAddress in
  let exists_ := bool_decide (is_Some instanceWithAddress) in
  if negb (contractAddressIsCanonical contractAddress) then
    let contractAddressNullifier :=
      siloNullifier DEPLOYER_CONTRACT_ADDRESS contractAddress in
    r <- getNullifierMembership this contractAddressNullifier ;;
    assert (eqb exists_ r.1) ContractInstanceDisagreement ;;
    ret (instanceWithAddress, r.2)
  else
    ret (instanceWithAddress, mkHint emptyLeafPreimage 0%N []).

Definition getContractInstance (this : ref) (contractAddress : AztecAddress)
  : Method (option SerializableContractInstance) :=
  r <- instanceAndMembership this contractAddress ;;
  sm <- getObject this ;;
  match r.1 with
  | Some instance =>
      (if doMerkleOperations sm then
         traceEvent this
           (GetContractInstance contractAddress true (Some instance) (Some r.2))
       else
         traceEvent this
           (GetContractInstance contractAddress true (Some instance) None)) ;;
      ret (Some instance)
  | None =>
      (if doMerkleOperations sm then
         traceEvent this
           (GetContractInstance contractAddress false None (Some r.2))
       else
         traceEvent this (GetContractInstance contractAddress false None None)) ;;
      ret None
  end.

Definition getBytecode (this : ref) (contractAddress : AztecAddress)
  : Method (option (list N)) :=
  r <- instanceAndMembership this contractAddress ;;
  sm <- getObject this ;;
  match r.1 with
  | Some instance =>
      w <- getWorld ;;
      match contractClasses w !! contractClassId instance with
      | None => throw (AssertionError ContractClassNotFound)
      | Some contractClass =>
          match bytecodeCommitments w !! contractClassId instance with
          | None => throw (AssertionError BytecodeCommitmentNotFound)
          | Some bytecodeCommitment =>
              let contractClassPreimage :=
                mkClassPreimage (artifactHash contractClass)
                  (privateFunctionsRoot contractClass) bytecodeCommitment in
              (if doMerkleOperations sm then
                 traceEvent this
                   (GetBytecode contractAddress true
                      (Some (packedBytecode contractClass)) (Some instance)
                      (Some contractClassPreimage) (Some r.2))
               else
                 traceEvent this
                   (GetBytecode contractAddress true
                      (Some (packedBytecode contractClass)) (Some instance)
                      (Some contractClassPreimage) None)) ;;
              ret (Some (packedBytecode contractClass))
          end
      end
  | None =>
      (if doMerkleOperations sm then
         traceEvent this
           (GetBytecode contractAddress false None None None (Some r.2))
       else
         traceEvent this (GetBytecode contractAddress false None None None None)) ;;
      ret None
  end.

(** ** Programs over the state manager *)

(** One call the execution engine makes on a state manager. *)
Inductive Call :=
  | Create (doMerkle : bool) (firstNullifier_ : Fr)
  | Fork (this : ref)
  | Merge (this forkedState : ref)
  | Reject (this forkedState : ref)
  | WriteStorage (this : ref) (contractAddress : AztecAddress) (slot value : Fr)
      (protocolWrite : bool)
  | ReadStorage (this : ref) (contractAddress : AztecAddress) (slot : Fr)
  | PeekStorage (this : ref) (contractAddress : AztecAddress) (slot : Fr)
  | CheckNoteHashExists (this : ref) (contractAddress : AztecAddress)
      (noteHash leafIndex_ : Fr)
  | CheckL1ToL2MessageExists (this : ref) (contractAddress : AztecAddress)
      (msgHash msgLeafIndex : Fr)
  | CheckNullifierExists (this : ref) (contractAddress : AztecAddress)
      (nullifier : Fr)
  | WriteNullifier (this : ref) (contractAddress : AztecAddress) (nullifier : Fr)
  | WriteSiloedNullifier (this : ref) (siloedNullifier : Fr)
  | WriteSiloedNullifiersFromPrivate (this : ref) (siloedNullifiers : list Fr)
  | GetContractInstanceOf (this : ref) (contractAddress : AztecAddress)
  | GetBytecodeOf (this : ref) (contractAddress : AztecAddress).

Definition invoke (c : Call) : Method unit :=
  match c with
  | Create doMerkle fn => create doMerkle fn ;; ret tt
  | Fork this => fork this ;; ret tt
  | Merge this forkedState => merge this forkedState
  | Reject this forkedState => reject this forkedState
  | WriteStorage this a s v pw => writeStorage this a s v pw
  | ReadStorage this a s => readStorage this a s ;; ret tt
  | PeekStorage this a s => peekStorage this a s ;; ret tt
  | CheckNoteHashExists this a n i => checkNoteHashExists this a n i ;; ret tt
  | CheckL1ToL2MessageExists this a n i =>
      checkL1ToL2MessageExists this a n i ;; ret tt
  | CheckNullifierExists this a n => checkNullifierExists this a n ;; ret tt
  | WriteNullifier this a n => writeNullifier this a n
  | WriteSiloedNullifier this n => writeSiloedNullifier this n
  | WriteSiloedNullifiersFromPrivate this ns =>
      writeSiloedNullifiersFromPrivate this ns
  | GetContractInstanceOf this a => getContractInstance this a ;; ret tt
  | GetBytecodeOf this a => getBytecode this a ;; ret tt
  end.

(** The store after a sequence of calls; a call that throws leaves what it
    wrote, and the caller goes on. *)
Fixpoint execute (cs : list Call) (m : Machine) : Machine :=
  match cs with
  | [] => m
  | c :: cs' => execute cs' (after (invoke c) m)
  end.

End StateManager.

(** ** A concrete setting to run the state manager in

    Stand-ins for the hashes (an injective pairing on small inputs, empty
    sibling paths) and the protocol's canonical addresses. *)
Definition samplePrimitives : Primitives := {|
  computePublicDataTreeLeafSlot := λ a s, (a * 4294967296 + s + 1)%N;
  siloNullifier := λ a n, (a * 4294967296 + n + 1)%N;
  indexedTreePath := λ _ _, [];
  indexedTreeUpdateWitness := λ _ _,
    IndexedTree.mkWitness emptyLeafPreimage 0 [];
  appendOnlyTreePath := λ _ _, [];
  CANONICAL_AUTH_REGISTRY_ADDRESS := 1%N;
  DEPLOYER_CONTRACT_ADDRESS := 2%N;
  REGISTERER_CONTRACT_ADDRESS := 3%N;
  MULTI_CALL_ENTRYPOINT_ADDRESS := 4%N;
  FEE_JUICE_ADDRESS := 5%N;
  ROUTER_ADDRESS := 6%N
|}.

(** A database at genesis: sentinel-seeded indexed trees, nothing else. *)
Definition genesisTrees : TreeState :=
  mkTreeState IndexedTree.initial IndexedTree.initial [] [].

Definition genesisWorld : WorldStateDB := mkWorld genesisTrees [] ∅ ∅ ∅.

(** A store holding one root state manager (reference 0) over a database. *)
Definition rootMachine (doMerkle : bool) (w : WorldStateDB) : Machine :=
  (create doMerkle 0%N (mkMachine [] w)).2.

(** The root state manager of [rootMachine], as [create] builds it. *)
Definition rootManager (doMerkle : bool) (w : WorldStateDB)
  : AvmPersistableStateManager :=
  mkStateManager false [] (mkPublicStorage ∅ []) (mkNullifierManager [] [])
    doMerkle (mkForest (trees w)) 0%N.

(** The root state manager after it has written nullifiers 7, 3 and 10 with
    Merkle operations. *)
Definition threeNullifiers : Machine :=
  execute (H := samplePrimitives)
    [WriteSiloedNullifier 0 7%N; WriteSiloedNullifier 0 3%N;
     WriteSiloedNullifier 0 10%N]
    (rootMachine true genesisWorld).

(** The root state manager with one unresolved fork (reference 1). *)
Definition forkedMachine : Machine :=
  after (fork 0) (rootMachine false genesisWorld).

(** That fork, as [fork] builds it. *)
Definition rootFork : AvmPersistableStateManager :=
  mkStateManager false [] (mkPublicStorage ∅ [0]) (mkNullifierManager [] [0])
    false (mkForest genesisTrees) 0%N.

(** A database whose public data tree already holds value 7 for slot 1 of
    contract 10, written by an earlier transaction. *)
Definition persistedWorld : WorldStateDB :=
  worldStateDB
    (after (writeStorage (H := samplePrimitives) 0 10%N 1%N 7%N false)
       (rootMachine true genesisWorld)).

(** A database whose note-hash tree holds two leaves. *)
Definition noteWorld : WorldStateDB :=
  mkWorld (mkTreeState IndexedTree.initial IndexedTree.initial [11%N; 22%N] [])
    [] ∅ ∅ ∅.


(** Read a slot, let a fork write it, reject the fork, read again. *)
Definition rejectScenario : Method (Fr * Fr) :=
  before <- readStorage (H := samplePrimitives) 0 10%N 1%N ;;
  forked <- fork 0 ;;
  writeStorage (H := samplePrimitives) forked 10%N 1%N 42%N false ;;
  reject 0 forked ;;
  afterwards <- readStorage (H := samplePrimitives) 0 10%N 1%N ;;
  ret (before, afterwards).



(** The scenario of the specification: fork A writes 42 to a slot, fork B
    nested inside A writes 99 and is rejected, then A reads the slot. *)
Definition nestedRejectScenario : Method Fr :=
  forkA <- fork 0 ;;
  writeStorage (H := samplePrimitives) forkA 10%N 1%N 42%N false ;;
  forkB <- fork forkA ;;
  writeStorage (H := samplePrimitives) forkB 10%N 1%N 99%N false ;;
  reject forkA forkB ;;
  readStorage (H := samplePrimitives) forkA 10%N 1%N.

(** Write a slot, write it again with another value, then read it. *)
Definition overwriteScenario : Method Fr :=
  writeStorage (H := samplePrimitives) 0 10%N 1%N 1%N false ;;
  writeStorage (H := samplePrimitives) 0 10%N 1%N 2%N false ;;
  readStorage (H := samplePrimitives) 0 10%N 1%N.

(** * Vocabulary of the statements *)

(** What one pass finds: a position holding the largest key not above [k],
    or nothing when every key is above [k]. *)
Definition lowest_above (ks : list Fr) (k : Fr) (r : option (nat * Fr)) : Prop :=
  match r with
  | Some (j, x) =>
      ks !! j = Some x ∧ (x <= k)%N ∧ Forall (λ y, (y <= k)%N → (y <= x)%N) ks
  | None => Forall (λ y, (k < y)%N) ks
  end.

(** A method keeps a property of the store, however it completes. *)
Definition preserves {A} (P : Machine → Prop) (c : Method A) : Prop :=
  ∀ m, P m → P (c m).2.

(** A property of the objects alone survives writes to the database. *)
Definition on_objects (P : Machine → Prop) : Prop :=
  ∀ m w, P m → P (mkMachine (objects m) w).

(** A property of the database alone survives writes to objects. *)
Definition on_world (P : Machine → Prop) : Prop :=
  ∀ m objs, P m → P (mkMachine objs (worldStateDB m)).

(** The fork behind [r] has been merged or rejected. *)
Definition resolved (r : ref) (m : Machine) : Prop :=
  ∃ fs, objects m !! r = Some fs ∧ alreadyMergedIntoParent fs = true.

(** No overlay on the chain from [sm] up holds a value for [key]: the slot
    was never written in this state manager or any ancestor. *)
Definition neverWritten (m : Machine) (sm : AvmPersistableStateManager)
  (key : N * N) : Prop :=
  storageCache (publicStorage sm) !! key = None ∧
  ∀ p psm, p ∈ storageParents (publicStorage sm) → objects m !! p = Some psm →
           storageCache (publicStorage psm) !! key = None.

(** The public data tree of the database holds no leaf for the key. *)
Definition notPersisted (m : Machine) (k : Fr) : Prop :=
  ∀ j l, publicDataTree (trees (worldStateDB m)) !! j = Some l → leafKey l ≠ k.

(** The tree is linked and starts with the sentinel leaf of key 0. *)
Definition wellFormed (tr : IndexedTree.t) : Prop :=
  IndexedTree.linked tr ∧ ∃ l, tr !! 0 = Some l ∧ leafKey l = 0%N.

(** Both indexed trees of a snapshot are well formed. *)
Definition treesWellFormed (s : TreeState) : Prop :=
  wellFormed (nullifierTree s) ∧ wellFormed (publicDataTree s).

(** The current trees of the database and every open checkpoint are well
    formed. *)
Definition worldWellFormed (m : Machine) : Prop :=
  Forall treesWellFormed (trees (worldStateDB m) :: checkpoints (worldStateDB m)).

(** Membership of a nullifier as the Append Set Cache reports it for [sm]:
    pending in an overlay on the chain, or held by the persistent tree. *)
Definition nullifierKnown (m : Machine) (sm : AvmPersistableStateManager)
  (n : Fr) : bool :=
  checkExistsHereOrParent (objects m) (nullifiers sm) n ||
  bool_decide (is_Some (IndexedTree.findLeafIndex
                          (nullifierTree (trees (worldStateDB m))) n)).

(** No overlay of the store holds the empty (zero) nullifier. *)
Definition zeroFree (m : Machine) : Prop :=
  ∀ r sm, objects m !! r = Some sm → 0%N ∉ nullifierCache (nullifiers sm).

(** ** Further stores to run the state manager on *)

(** A database with one contract deployed at the fee-juice address of
    [samplePrimitives]: instance, class and bytecode commitment. *)
Definition deployedWorld : WorldStateDB :=
  mkWorld genesisTrees []
    {[ 5%N := mkInstance 77%N [] ]}
    {[ 77%N := mkClass 1%N 2%N [9%N; 9%N] ]}
    {[ 77%N := 3%N ]}.

(** A database whose L1-to-L2 message tree holds two leaves. *)
Definition messageWorld : WorldStateDB :=
  mkWorld (mkTreeState IndexedTree.initial IndexedTree.initial [] [11%N; 22%N])
    [] ∅ ∅ ∅.

(** The root state manager with Merkle operations and one unresolved fork
    (reference 1). *)
Definition forkedMerkleMachine : Machine :=
  after (fork 0) (rootMachine true genesisWorld).

(** ** Further vocabulary: values, frames and call classes *)

(** The value the public data tree holds for a leaf slot, 0 when it holds
    none: what the persistent read behind the Value Cache returns. *)
Definition persistedValue (tr : IndexedTree.t) (k : Fr) : Fr :=
  match IndexedTree.getPreviousValueIndex tr k with
  | Some (i, true) => match tr !! i with Some l => leafValue l | None => 0%N end
  | _ => 0%N
  end.

(** The value a state manager resolves a slot to: the nearest cached value
    on its chain of overlays, else the persisted one. *)
Definition resolvedValue `{Primitives} (m : Machine)
  (sm : AvmPersistableStateManager) (contractAddress : AztecAddress) (slot : Fr)
  : Fr :=
  match readHereOrParent (objects m) (publicStorage sm) (contractAddress, slot) with
  | Some v => v
  | None =>
      persistedValue (publicDataTree (trees (worldStateDB m)))
        (computePublicDataTreeLeafSlot contractAddress slot)
  end.

(** The persistent nullifier tree holds a leaf for the nullifier. *)
Definition inNullifierTree (m : Machine) (n : Fr) : bool :=
  bool_decide (is_Some (IndexedTree.findLeafIndex
                          (nullifierTree (trees (worldStateDB m))) n)).

(** The calls that open or close a checkpoint of the database. *)
Definition touchesCheckpoints (c : Call) : bool :=
  match c with
  | Fork _ | Merge _ _ | Reject _ _ => true
  | _ => false
  end.

(** The object behind [r] exists and its merged flag is [b]. *)
Definition flagged (r : ref) (b : bool) (m : Machine) : Prop :=
  ∃ sm, objects m !! r = Some sm ∧ alreadyMergedIntoParent sm = b.

(** The calls that only read: storage reads, existence checks and contract
    lookups. *)
Definition isQuery (c : Call) : bool :=
  match c with
  | ReadStorage _ _ _ | PeekStorage _ _ _ | CheckNoteHashExists _ _ _ _
  | CheckL1ToL2MessageExists _ _ _ _ | CheckNullifierExists _ _ _
  | GetContractInstanceOf _ _ | GetBytecodeOf _ _ => true
  | _ => false
  end.

(** The state manager a call is made on; [create] is static. *)
Definition receiver (c : Call) : option ref :=
  match c with
  | Create _ _ => None
  | Fork this | Merge this _ | Reject this _ | WriteStorage this _ _ _ _
  | ReadStorage this _ _ | PeekStorage this _ _ | CheckNoteHashExists this _ _ _
  | CheckL1ToL2MessageExists this _ _ _ | CheckNullifierExists this _ _
  | WriteNullifier this _ _ | WriteSiloedNullifier this _
  | WriteSiloedNullifiersFromPrivate this _ | GetContractInstanceOf this _
  | GetBytecodeOf this _ => Some this
  end.

(** The store [m'] is the store [m] except that the trace of the object
    behind [this] may have grown at its end. *)
Definition tracedOnly (this : ref) (m m' : Machine) : Prop :=
  worldStateDB m' = worldStateDB m ∧
  length (objects m') = length (objects m) ∧
  ∀ r sm, objects m !! r = Some sm →
    ∃ sm', objects m' !! r = Some sm' ∧
           sm' = setTrace (trace sm') sm ∧
           trace sm `prefix_of` trace sm' ∧
           (r ≠ this → sm' = sm).

(** The chains of parents of every overlay name objects created before the
    object the overlay belongs to. *)
Definition wellChained (m : Machine) : Prop :=
  ∀ (r : ref) sm, objects m !! r = Some sm →
    Forall (λ p, p < r) (storageParents (publicStorage sm)) ∧
    Forall (λ p, p < r) (nullifierParents (nullifiers sm)).

(** The state manager [sm'] is [sm] later in its life: its trace and its
    caches have only grown, its links and its mode are the same, and a
    merged flag that was set is still set. *)
Definition grownFrom (sm sm' : AvmPersistableStateManager) : Prop :=
  trace sm `prefix_of` trace sm' ∧
  nullifierCache (nullifiers sm) ⊆ nullifierCache (nullifiers sm') ∧
  dom (storageCache (publicStorage sm)) ⊆ dom (storageCache (publicStorage sm')) ∧
  storageParents (publicStorage sm') = storageParents (publicStorage sm) ∧
  nullifierParents (nullifiers sm') = nullifierParents (nullifiers sm) ∧
  doMerkleOperations sm' = doMerkleOperations sm ∧
  firstNullifier sm' = firstNullifier sm ∧
  (alreadyMergedIntoParent sm = true → alreadyMergedIntoParent sm' = true).

(** Every state manager of the store runs without Merkle operations. *)
Definition plainMode (m : Machine) : Prop :=
  ∀ (r : ref) sm, objects m !! r = Some sm → doMerkleOperations sm = false.

(** The calls that create a state manager with Merkle operations. *)
Definition createsMerkle (c : Call) : bool :=
  match c with
  | Create true _ => true
  | _ => false
  end.

(** Every state manager runs without Merkle operations, the trees of the
    database are [s], and so is every open checkpoint. *)
Definition treesFixed (s : TreeState) (m : Machine) : Prop :=
  plainMode m ∧ trees (worldStateDB m) = s ∧
  Forall (eq s) (checkpoints (worldStateDB m)).

(** The pending nullifiers of [fs] are all new to [sm]: none of them is
    pending in [sm] itself. *)
Definition pendingNewTo (sm fs : AvmPersistableStateManager) : Prop :=
  Forall (λ n, n ∉ nullifierCache (nullifiers sm)) (nullifierCache (nullifiers fs)).

#[global] Instance pendingNewTo_dec sm fs : Decision (pendingNewTo sm fs) :=
  Forall_dec (λ n, n ∉ nullifierCache (nullifiers sm))
    (nullifierCache (nullifiers fs)).

(** The pending nullifiers of the object behind [r] are pairwise distinct. *)
Definition pendingDistinct (r : ref) (m : Machine) : Prop :=
  ∃ sm, objects m !! r = Some sm ∧ NoDup (nullifierCache (nullifiers sm)).

(** The object behind [this] is [sm], and the object behind [c] has it on
    its chain of parents and holds pending nullifiers that are pairwise
    distinct and new to [sm]. *)
Definition forkNewTo (this c : ref) (sm : AvmPersistableStateManager)
  (m : Machine) : Prop :=
  objects m !! this = Some sm ∧
  ∃ fs, objects m !! c = Some fs ∧
        this ∈ nullifierParents (nullifiers fs) ∧
        NoDup (nullifierCache (nullifiers fs)) ∧
        pendingNewTo sm fs.

(** A method that never changes the store. *)
Definition stateless {A} (c : Method A) : Prop := ∀ m, (c m).2 = m.

(** A method that leaves the store as it was whenever it throws. *)
Definition silentOnThrow {A} (c : Method A) : Prop :=
  ∀ m e, (c m).1 = Throws e → (c m).2 = m.

(** * Facts about the indexed tree *)

Section IndexedTreeFacts.
Implicit Types (tr : IndexedTree.t) (k v : Fr) (l : IndexedTreeLeafPreimage).

Lemma scanLow_snoc ks x i k best :
  IndexedTree.scanLow (ks ++ [x]) i k best =
  let r := IndexedTree.scanLow ks i k best in
  if (x <=? k)%N && match r with None => true | Some (_, b) => (b <? x)%N end
  then Some (i + length ks, x) else r.
Proof.
  revert i best. induction ks as [|y ks IH]; intros i best; simpl.
  - by rewrite Nat.add_0_r.
  - rewrite IH. simpl. by rewrite Nat.add_succ_r.
Qed.

Lemma scanLow_spec ks k :
  lowest_above ks k (IndexedTree.scanLow ks 0 k None).
Proof.
  induction ks as [|x ks IH] using rev_ind; [by constructor|].
  rewrite scanLow_snoc. simpl.
  destruct (IndexedTree.scanLow ks 0 k None) as [[j b]|]; simpl in *.
  - destruct IH as (Hj & Hb & Hmax).
    destruct (N.leb_spec x k), (N.ltb_spec b x); simpl.
    + split_and!; [by rewrite lookup_app_r, Nat.sub_diag|done|].
      apply Forall_app; split; [|by repeat constructor].
      eapply Forall_impl; [exact Hmax|]. simpl. intros y Hy Hle.
      specialize (Hy Hle). lia.
    + split_and!; [by apply lookup_app_l_Some|done|].
      apply Forall_app; split; [done|]. repeat constructor. lia.
    + split_and!; [by apply lookup_app_l_Some|done|].
      apply Forall_app; split; [done|]. repeat constructor. lia.
    + split_and!; [by apply lookup_app_l_Some|done|].
      apply Forall_app; split; [done|]. repeat constructor. lia.
  - destruct (N.leb_spec x k); simpl.
    + split_and!; [by rewrite lookup_app_r, Nat.sub_diag|done|].
      apply Forall_app; split; [|by repeat constructor].
      eapply Forall_impl; [exact IH|]. simpl. lia.
    + apply Forall_app; split; [done|]. by repeat constructor.
Qed.

Lemma getPreviousValueIndex_Some tr k i b :
  IndexedTree.getPreviousValueIndex tr k = Some (i, b) →
  ∃ l, tr !! i = Some l ∧ (leafKey l <= k)%N ∧ b = (leafKey l =? k)%N ∧
       ∀ j m, tr !! j = Some m → (leafKey m <= k)%N → (leafKey m <= leafKey l)%N.
Proof.
  unfold IndexedTree.getPreviousValueIndex.
  pose proof (scanLow_spec (leafKey <$> tr) k) as Hs.
  destruct (IndexedTree.scanLow _ 0 k None) as [[j x]|]; [|done].
  intros [= -> <-]. destruct Hs as (Hj & Hx & Hmax).
  rewrite list_lookup_fmap in Hj.
  destruct (tr !! i) as [l|] eqn:Hl; simplify_eq/=.
  exists l. split_and!; [done..|].
  intros j m Hm Hle. rewrite Forall_forall in Hmax. apply Hmax; [|done].
  apply list_elem_of_fmap. exists m. split; [done|].
  by eapply list_elem_of_lookup_2.
Qed.

Lemma getPreviousValueIndex_None tr k :
  IndexedTree.getPreviousValueIndex tr k = None →
  ∀ j m, tr !! j = Some m → (k < leafKey m)%N.
Proof.
  unfold IndexedTree.getPreviousValueIndex.
  pose proof (scanLow_spec (leafKey <$> tr) k) as Hs.
  destruct (IndexedTree.scanLow _ 0 k None) as [[j x]|]; [done|].
  intros _ j m Hm. simpl in Hs. rewrite Forall_forall in Hs. apply Hs.
  apply list_elem_of_fmap. exists m. split; [done|].
  by eapply list_elem_of_lookup_2.
Qed.

(** The lookup reads nothing but the keys. *)
Lemma getPreviousValueIndex_keys tr tr' k :
  leafKey <$> tr = leafKey <$> tr' →
  IndexedTree.getPreviousValueIndex tr k = IndexedTree.getPreviousValueIndex tr' k.
Proof. unfold IndexedTree.getPreviousValueIndex. by intros ->. Qed.

(** A tree that holds the sentinel always yields a low leaf. *)
Lemma getPreviousValueIndex_sentinel tr k l :
  tr !! 0 = Some l → leafKey l = 0%N →
  is_Some (IndexedTree.getPreviousValueIndex tr k).
Proof.
  intros Hl Hk.
  destruct (IndexedTree.getPreviousValueIndex tr k) eqn:E; [by eexists|].
  pose proof (getPreviousValueIndex_None _ _ E 0 l Hl). lia.
Qed.

(** A present key is reported present. *)
Lemma getPreviousValueIndex_present tr k j m :
  tr !! j = Some m → leafKey m = k →
  ∃ i, IndexedTree.getPreviousValueIndex tr k = Some (i, true).
Proof.
  intros Hm Hk.
  destruct (IndexedTree.getPreviousValueIndex tr k) as [[i b]|] eqn:E.
  - destruct (getPreviousValueIndex_Some _ _ _ _ E) as (l & Hl & Hle & -> & Hmax).
    exists i. do 2 f_equal. apply N.eqb_eq.
    specialize (Hmax j m Hm). lia.
  - pose proof (getPreviousValueIndex_None _ _ E j m Hm). lia.
Qed.

(** The low-leaf skip: in a linked tree the low leaf of an absent key lies
    below the key and its successor, if any, lies above. *)
Lemma linked_skips tr k i l :
  IndexedTree.linked tr →
  IndexedTree.getPreviousValueIndex tr k = Some (i, false) →
  tr !! i = Some l →
  IndexedTree.skips l k = true.
Proof.
  intros Hlinked Hlow Hl.
  destruct (getPreviousValueIndex_Some _ _ _ _ Hlow) as (l' & Hl' & Hle & Hb & Hmax).
  assert (l' = l) as -> by congruence.
  symmetry in Hb. apply N.eqb_neq in Hb.
  unfold IndexedTree.skips. apply andb_true_iff. split; [apply N.ltb_lt; lia|].
  destruct (decide (nextIndex l = 0)) as [->|Hnz]; [done|].
  apply orb_true_iff. right. apply N.ltb_lt.
  destruct (Hlinked i l Hl Hnz) as (m & Hm & Hkey & Hlt).
  destruct (N.lt_ge_cases k (nextKey l)) as [|Hge]; [done|].
  specialize (Hmax _ m Hm). lia.
Qed.

Lemma linked_initial : IndexedTree.linked IndexedTree.initial.
Proof. intros [|[|i]] l; simpl; intros [= <-]; done. Qed.

Section InsertFacts.
Variable pathOf : IndexedTree.t → nat → list Fr.
Variable updateWitnessOf : IndexedTree.t → nat → IndexedTree.WitnessData.

Lemma sequentialInsert_Some tr k v res tr' :
  IndexedTree.sequentialInsert pathOf updateWitnessOf tr k v = Some (res, tr') →
  ∃ i b low,
    IndexedTree.getPreviousValueIndex tr k = Some (i, b) ∧ tr !! i = Some low ∧
    IndexedTree.lowLeavesWitnessData res =
      [IndexedTree.mkWitness low i (pathOf tr i)] ∧
    if b then
      IndexedTree.insertionWitnessData res = [updateWitnessOf tr' i] ∧
      tr' = <[i := withValue low v]> tr
    else
      IndexedTree.insertionWitnessData res =
        [IndexedTree.mkWitness (mkLeaf k v (nextKey low) (nextIndex low))
           (length tr) (pathOf tr' (length tr))] ∧
      tr' = <[i := withNext low k (length tr)]> tr ++
            [mkLeaf k v (nextKey low) (nextIndex low)].
Proof.
  unfold IndexedTree.sequentialInsert.
  destruct (IndexedTree.getPreviousValueIndex tr k) as [[i b]|]; [|done].
  destruct (tr !! i) as [low|] eqn:Hlow; [|done].
  destruct b; intros [= <- <-];
    [exists i, true, low | exists i, false, low]; by split_and!.
Qed.

(** The insert goes through exactly when a low leaf is found. *)
Lemma sequentialInsert_is_Some tr k v :
  is_Some (IndexedTree.sequentialInsert pathOf updateWitnessOf tr k v) ↔
  is_Some (IndexedTree.getPreviousValueIndex tr k).
Proof.
  unfold IndexedTree.sequentialInsert.
  destruct (IndexedTree.getPreviousValueIndex tr k) as [[i b]|] eqn:E.
  - destruct (getPreviousValueIndex_Some _ _ _ _ E) as (l & -> & _).
    destruct b; split; by eexists.
  - split; intros [? ?]; done.
Qed.

(** After an insert the key is present and holds the inserted value. *)
Lemma sequentialInsert_lookup tr k v res tr' :
  IndexedTree.sequentialInsert pathOf updateWitnessOf tr k v = Some (res, tr') →
  ∃ i l, IndexedTree.getPreviousValueIndex tr' k = Some (i, true) ∧
         tr' !! i = Some l ∧ leafValue l = v ∧ leafKey l = k.
Proof.
  intros Hins.
  destruct (sequentialInsert_Some _ _ _ _ _ Hins) as (i & b & low & Hlow & Hi & _ & Hb).
  destruct (getPreviousValueIndex_Some _ _ _ _ Hlow) as (l' & Hl' & Hle & Hbk & _).
  assert (l' = low) as -> by congruence.
  destruct b.
  - destruct Hb as [_ ->]. exists i, (withValue low v).
    assert (i < length tr) by (by eapply lookup_lt_Some).
    split_and!; [|by apply list_lookup_insert_eq|done|].
    + rewrite <- Hlow. apply getPreviousValueIndex_keys.
      rewrite list_fmap_insert. simpl. apply list_insert_id.
      by rewrite list_lookup_fmap, Hi.
    + simpl. symmetry in Hbk. by apply N.eqb_eq in Hbk.
  - destruct Hb as [_ ->]. exists (length tr), (mkLeaf k v (nextKey low) (nextIndex low)).
    split_and!; [| |done..].
    + revert Hlow. unfold IndexedTree.getPreviousValueIndex.
      rewrite fmap_app, list_fmap_insert. simpl.
      rewrite (list_insert_id (leafKey <$> tr)) by (by rewrite list_lookup_fmap, Hi).
      rewrite scanLow_snoc. simpl.
      pose proof (scanLow_spec (leafKey <$> tr) k) as Hs.
      destruct (IndexedTree.scanLow _ 0 k None) as [[j x]|]; [|done].
      destruct Hs as (_ & Hxk & _).
      intros [= -> Hx]. apply N.eqb_neq in Hx.
      rewrite length_fmap.
      destruct (N.leb_spec k k); [|lia]. destruct (N.ltb_spec x k); [|lia].
      simpl. by rewrite N.eqb_refl.
    + rewrite lookup_app_r; rewrite length_insert; [|done].
      by rewrite Nat.sub_diag.
Qed.

(** Inserting keeps the tree linked. *)
Lemma sequentialInsert_linked tr k v res tr' :
  IndexedTree.linked tr →
  IndexedTree.sequentialInsert pathOf updateWitnessOf tr k v = Some (res, tr') →
  IndexedTree.linked tr'.
Proof.
  intros Hlinked Hins.
  destruct (sequentialInsert_Some _ _ _ _ _ Hins) as (i & b & low & Hlow & Hi & _ & Hb).
  assert (i < length tr) as Hlen by (by eapply lookup_lt_Some).
  destruct b.
  - destruct Hb as [_ ->]. intros j l Hl Hnz.
    assert (∃ l0, tr !! j = Some l0 ∧ leafKey l0 = leafKey l ∧
                  nextKey l0 = nextKey l ∧ nextIndex l0 = nextIndex l)
      as (l0 & Hl0 & Hk0 & Hnk0 & Hni0).
    { destruct (decide (i = j)) as [->|Hne].
      - rewrite list_lookup_insert_eq in Hl by done. injection Hl as <-.
        by exists low.
      - rewrite list_lookup_insert_ne in Hl by done. by exists l. }
    rewrite <- Hni0 in Hnz.
    destruct (Hlinked j l0 Hl0 Hnz) as (m & Hm & Hmk & Hlt).
    rewrite <- Hni0, <- Hnk0, <- Hk0.
    destruct (decide (i = nextIndex l0)) as [Heq|Hne].
    + exists (withValue low v). rewrite <- Heq.
      rewrite list_lookup_insert_eq by done. split_and!; [done| |done].
      simpl. rewrite <- Hmk. congruence.
    + exists m. by rewrite list_lookup_insert_ne.
  - destruct Hb as [_ ->].
    pose proof (linked_skips _ _ _ _ Hlinked Hlow Hi) as Hskip.
    apply andb_true_iff in Hskip as [Hlt Hnext]. apply N.ltb_lt in Hlt.
    set (new := mkLeaf k v (nextKey low) (nextIndex low)).
    set (low' := withNext low k (length tr)).
    assert (∀ j m, tr !! j = Some m →
              ∃ m', (<[i := low']> tr ++ [new]) !! j = Some m' ∧
                    leafKey m' = leafKey m) as Hkeep.
    { intros j m Hm. assert (j < length tr) by (by eapply lookup_lt_Some).
      rewrite lookup_app_l by (by rewrite length_insert).
      destruct (decide (i = j)) as [->|Hne].
      - exists low'. rewrite list_lookup_insert_eq by done.
        split; [done|]. simpl. congruence.
      - exists m. by rewrite list_lookup_insert_ne. }
    intros j l Hl Hnz.
    destruct (decide (j < length tr)) as [Hj|Hj].
    + rewrite lookup_app_l in Hl by (by rewrite length_insert).
      destruct (decide (i = j)) as [->|Hne].
      * rewrite list_lookup_insert_eq in Hl by done. injection Hl as <-.
        exists new. simpl. split_and!; [|done..].
        rewrite lookup_app_r; rewrite length_insert; [|done].
        by rewrite Nat.sub_diag.
      * rewrite list_lookup_insert_ne in Hl by done.
        destruct (Hlinked j l Hl Hnz) as (m & Hm & Hmk & Hlt').
        destruct (Hkeep _ _ Hm) as (m' & Hm' & Hk'). exists m'.
        split_and!; [done| |done]. congruence.
    + rewrite lookup_app_r in Hl by (rewrite length_insert; lia).
      rewrite length_insert in Hl.
      destruct (j - length tr) as [|n] eqn:Hd; [|by destruct n].
      injection Hl as <-. simpl in *.
      destruct (Hlinked i low Hi Hnz) as (m & Hm & Hmk & Hlt').
      destruct (Hkeep _ _ Hm) as (m' & Hm' & Hk'). exists m'.
      split_and!; [done|congruence|].
      apply orb_true_iff in Hnext as [Hz|Hgt].
      * apply Nat.eqb_eq in Hz. done.
      * by apply N.ltb_lt.
Qed.

Lemma wellFormed_initial : wellFormed IndexedTree.initial.
Proof. split; [apply linked_initial|]. by exists emptyLeafPreimage. Qed.

Lemma sequentialInsert_wellFormed tr k v res tr' :
  wellFormed tr →
  IndexedTree.sequentialInsert pathOf updateWitnessOf tr k v = Some (res, tr') →
  wellFormed tr'.
Proof.
  intros [Hlinked (l0 & Hl0 & Hk0)] Hins.
  split; [by eapply sequentialInsert_linked|].
  destruct (sequentialInsert_Some _ _ _ _ _ Hins) as (i & b & low & _ & Hi & _ & Hb).
  assert (0 < length tr) as Hlen by (by eapply lookup_lt_Some).
  assert (i < length tr) as Hilen by (by eapply lookup_lt_Some).
  destruct b; destruct Hb as [_ ->].
  - destruct (decide (i = 0)) as [->|Hne].
    + exists (withValue low v). rewrite list_lookup_insert_eq by done.
      split; [done|]. simpl. congruence.
    + exists l0. by rewrite list_lookup_insert_ne.
  - rewrite lookup_app_l by (by rewrite length_insert).
    destruct (decide (i = 0)) as [->|Hne].
    + exists (withNext low k (length tr)). rewrite list_lookup_insert_eq by done.
      split; [done|]. simpl. congruence.
    + exists l0. by rewrite list_lookup_insert_ne.
Qed.

End InsertFacts.
End IndexedTreeFacts.

(** * Running methods *)

Section Running.

Lemma bind_Returns {A B} (c : Method A) (k : A → Method B) m a m' :
  c m = (Returns a, m') → bind c k m = k a m'.
Proof. unfold bind. by intros ->. Qed.

Lemma bind_Throws {A B} (c : Method A) (k : A → Method B) m e m' :
  c m = (Throws e, m') → bind c k m = (Throws e, m').
Proof. unfold bind. by intros ->. Qed.

Lemma getObject_Some m r sm :
  objects m !! r = Some sm → getObject r m = (Returns sm, m).
Proof. unfold getObject. by intros ->. Qed.

Lemma updateObject_Some m r sm f :
  objects m !! r = Some sm →
  updateObject r f m =
    (Returns tt, mkMachine (<[r := f sm]> (objects m)) (worldStateDB m)).
Proof. unfold updateObject. by intros ->. Qed.

Lemma traceEvent_Some m this sm e :
  objects m !! this = Some sm →
  traceEvent this e m =
    (Returns tt,
     mkMachine (<[this := setTrace (Trace.record e (trace sm)) sm]> (objects m))
       (worldStateDB m)).
Proof. unfold traceEvent, updateObject. by intros ->. Qed.

Lemma lookup_updated (objs : list AvmPersistableStateManager) r sm sm' :
  objs !! r = Some sm → <[r := sm']> objs !! r = Some sm'.
Proof. intros Hr. apply list_lookup_insert_eq. by eapply lookup_lt_Some. Qed.

End Running.

(** ** Properties of the store that methods keep *)

Section Preservation.

Lemma preserves_ret {A} P (a : A) : preserves P (ret a).
Proof. by intros m. Qed.

Lemma preserves_throw {A} P e : preserves P (throw (A := A) e).
Proof. by intros m. Qed.

Lemma preserves_bind {A B} P (c : Method A) (k : A → Method B) :
  preserves P c → (∀ a, preserves P (k a)) → preserves P (bind c k).
Proof.
  intros Hc Hk m Hm. unfold bind. specialize (Hc m Hm).
  destruct (c m) as [[a|e] m']; simpl in *; [by apply Hk|done].
Qed.

Lemma preserves_assert P b a : preserves P (assert b a).
Proof. destruct b; [apply preserves_ret|apply preserves_throw]. Qed.

Lemma preserves_getObject P r : preserves P (getObject r).
Proof. intros m Hm. unfold getObject. by destruct (objects m !! r). Qed.

Lemma preserves_getWorld P : preserves P getWorld.
Proof. by intros m. Qed.

Lemma preserves_setWorld P w : on_objects P → preserves P (setWorld w).
Proof. intros HP m Hm. by apply HP. Qed.

Lemma preserves_updateObject_world P r f : on_world P → preserves P (updateObject r f).
Proof.
  intros HP m Hm. unfold updateObject.
  destruct (objects m !! r); simpl; [by apply HP|done].
Qed.

Lemma preserves_newObject_world P sm : on_world P → preserves P (newObject sm).
Proof. intros HP m Hm. by apply HP. Qed.

Lemma preserves_forEach {A} P (xs : list A) (body : A → Method unit) :
  (∀ x, preserves P (body x)) → preserves P (forEach xs body).
Proof.
  intros Hbody. induction xs as [|x xs IH]; simpl; [apply preserves_ret|].
  apply preserves_bind; [apply Hbody|by intros _].
Qed.

End Preservation.

(** Unfold the plumbing of a method down to the store. *)
Ltac run :=
  unfold completion, after, assert, getWorld, setWorld;
  unfold bind, ret, throw; simpl.

Section StateManagerFacts.
Context `{Primitives}.
Implicit Types (m : Machine) (this : ref) (sm : AvmPersistableStateManager).

(** ** Note-hash checks *)

(** C8: [checkNoteHashExists] returns, and returns [true] exactly when the
    raw leaf fetched at the index from the persistent note-hash tree, taken
    as 0 when there is none, equals the given note hash; a mismatch gives
    [false], never an error. *)
Theorem checkNoteHashExists_iff m this sm contractAddress noteHash leafIndex_ :
  objects m !! this = Some sm →
  ∃ b, completion (checkNoteHashExists this contractAddress noteHash leafIndex_) m
         = Returns b ∧
       (b = true ↔
        default 0%N (noteHashTree (trees (worldStateDB m)) !! N.to_nat leafIndex_)
          = noteHash).
Proof.
  intros Hthis. eexists. split.
  - unfold checkNoteHashExists, db_getLeafValue, db_getSiblingPath. run.
    rewrite (getObject_Some _ _ _ Hthis).
    destruct (doMerkleOperations sm); simpl;
      by rewrite (traceEvent_Some _ _ _ _ Hthis).
  - simpl. apply N.eqb_eq.
Qed.

(** ** Resolution of forks *)

Lemma resolved_on_objects r : on_objects (resolved r).
Proof. by intros m w. Qed.

Lemma preserves_resolved_updateObject r r' f :
  (∀ sm, alreadyMergedIntoParent sm = true →
         alreadyMergedIntoParent (f sm) = true) →
  preserves (resolved r) (updateObject r' f).
Proof.
  intros Hf m (fs & Hfs & Hflag). unfold updateObject.
  destruct (objects m !! r') as [sm'|] eqn:Hr'; simpl; [|by exists fs].
  destruct (decide (r' = r)) as [->|Hne].
  - exists (f sm'). simpl. rewrite (lookup_updated _ _ _ _ Hr'). split; [done|].
    apply Hf. congruence.
  - exists fs. simpl. by rewrite list_lookup_insert_ne.
Qed.

Lemma preserves_resolved_newObject r sm : preserves (resolved r) (newObject sm).
Proof.
  intros m (fs & Hfs & Hflag). exists fs. split; [|done]. simpl.
  by apply lookup_app_l_Some.
Qed.

(** Steps that keep a resolved fork resolved, one rule per construct. *)
Ltac keeps_resolved :=
  repeat first
    [ apply preserves_ret
    | apply preserves_throw
    | apply preserves_assert
    | apply preserves_getObject
    | apply preserves_getWorld
    | apply preserves_setWorld, resolved_on_objects
    | apply preserves_resolved_newObject
    | apply preserves_resolved_updateObject; by intros []
    | apply preserves_bind; [|intros ?]
    | apply preserves_forEach; intros ?
    | match goal with
      | |- preserves _ (match ?x with _ => _ end) => destruct x
      end ].

Lemma merge_rest_resolved r this forkedState reverted :
  preserves (resolved r)
    (publicStorage_acceptAndMerge this forkedState ;;
     nullifiers_acceptAndMerge this forkedState ;;
     trace_merge this forkedState reverted ;;
     if reverted then revertCheckpoint
     else commitCheckpoint ;;
          fs' <- getObject forkedState ;;
          updateObject this (setMerkleTrees (merkleTrees fs'))).
Proof.
  unfold publicStorage_acceptAndMerge, nullifiers_acceptAndMerge,
    nullifiers_accept, nullifiers_add, trace_merge, revertCheckpoint,
    commitCheckpoint.
  keeps_resolved.
Qed.

(** A resolved fork cannot be merged or rejected: the call fails its
    assertion and writes nothing. *)
Lemma merge_resolved this forkedState reverted m :
  resolved forkedState m →
  _merge this forkedState reverted m =
    (Throws (AssertionError ForkAlreadyMerged), m).
Proof.
  intros (fs & Hfs & Hflag). unfold _merge.
  rewrite (bind_Returns _ _ _ _ _ (getObject_Some _ _ _ Hfs)).
  by rewrite Hflag.
Qed.

(** ** Reading public storage *)

(** The Value Cache read returns and leaves the store alone. *)
Lemma publicStorage_read_Some m this sm contractAddress slot :
  objects m !! this = Some sm →
  ∃ v cached, publicStorage_read this contractAddress slot m = (Returns (v, cached), m) ∧
    match readHereOrParent (objects m) (publicStorage sm) (contractAddress, slot) with
    | Some v' => v = v' ∧ cached = true
    | None => (storageRead contractAddress slot m).1 = Returns v ∧ cached = false
    end.
Proof.
  intros Hthis. unfold publicStorage_read.
  rewrite (bind_Returns _ _ _ _ _ (getObject_Some _ _ _ Hthis)).
  destruct (readHereOrParent _ _ _) as [v|]; [by exists v, true|].
  unfold storageRead. run. by eexists _, false.
Qed.

(** The persistent read behind the Value Cache returns the persisted value. *)
Lemma storageRead_run m contractAddress slot :
  storageRead contractAddress slot m =
    (Returns (persistedValue (publicDataTree (trees (worldStateDB m)))
                (computePublicDataTreeLeafSlot contractAddress slot)), m).
Proof. done. Qed.

(** The Value Cache read returns the cache-resolved value. *)
Lemma publicStorage_read_resolved m this sm contractAddress slot :
  objects m !! this = Some sm →
  ∃ cached,
    publicStorage_read this contractAddress slot m =
      (Returns (resolvedValue m sm contractAddress slot, cached), m).
Proof.
  intros Hthis.
  destruct (publicStorage_read_Some m this sm contractAddress slot Hthis)
    as (v & cached & Hread & Hv).
  exists cached. rewrite Hread. unfold resolvedValue.
  destruct (readHereOrParent _ _ _).
  - by destruct Hv as [-> _].
  - destruct Hv as [Hv _]. rewrite storageRead_run in Hv. simpl in Hv.
    by injection Hv as <-.
Qed.

Lemma then_ret_Returns {A B} (c : Method A) (x y : B) m :
  completion (c ;; ret x) m = Returns y → y = x.
Proof.
  unfold completion, bind, ret. destruct (c m) as [[a|e] m']; simpl; congruence.
Qed.

(** What [readStorage] returns, when it returns, is the Value Cache read. *)
Lemma readStorage_Returns m this sm contractAddress slot v :
  objects m !! this = Some sm →
  completion (readStorage this contractAddress slot) m = Returns v →
  ∃ cached, publicStorage_read this contractAddress slot m = (Returns (v, cached), m).
Proof.
  intros Hthis.
  destruct (publicStorage_read_Some m this sm contractAddress slot Hthis)
    as (v0 & cached & Hread & _).
  unfold completion, readStorage.
  rewrite (bind_Returns _ _ _ _ _ Hread).
  rewrite (bind_Returns _ _ _ _ _ (getObject_Some _ _ _ Hthis)).
  intros Hret. apply then_ret_Returns in Hret. simpl in Hret. subst v.
  by exists cached.
Qed.

(** Without Merkle operations [readStorage] always returns. *)
Lemma readStorage_plain m this sm contractAddress slot :
  objects m !! this = Some sm →
  doMerkleOperations sm = false →
  ∃ v cached,
    publicStorage_read this contractAddress slot m = (Returns (v, cached), m) ∧
    readStorage this contractAddress slot m =
      (Returns v,
       mkMachine
         (<[this := setTrace
                      (Trace.record (PublicStorageRead contractAddress slot v None)
                         (trace sm)) sm]> (objects m))
         (worldStateDB m)).
Proof.
  intros Hthis Hmode.
  destruct (publicStorage_read_Some m this sm contractAddress slot Hthis)
    as (v & cached & Hread & _).
  exists v, cached. split; [done|]. unfold readStorage.
  rewrite (bind_Returns _ _ _ _ _ Hread).
  rewrite (bind_Returns _ _ _ _ _ (getObject_Some _ _ _ Hthis)).
  rewrite Hmode. simpl.
  by rewrite (bind_Returns _ _ _ _ _ (traceEvent_Some _ _ _ _ Hthis)).
Qed.

(** A read of a slot this state manager has in its own cache returns the
    cached value; with Merkle operations the leaf has to be in the public
    data tree with that value, which is what a write leaves behind. *)
Lemma readStorage_cached m this sm contractAddress slot v :
  objects m !! this = Some sm →
  storageCache (publicStorage sm) !! (contractAddress, slot) = Some v →
  (doMerkleOperations sm = true →
   ∃ i l,
     IndexedTree.getPreviousValueIndex (publicDataTree (trees (worldStateDB m)))
       (computePublicDataTreeLeafSlot contractAddress slot) = Some (i, true) ∧
     publicDataTree (trees (worldStateDB m)) !! i = Some l ∧ leafValue l = v) →
  completion (readStorage this contractAddress slot) m = Returns v.
Proof.
  intros Hthis Hcache Htree.
  destruct (publicStorage_read_Some m this sm contractAddress slot Hthis)
    as (v0 & cached & Hread & Hv0).
  unfold readHereOrParent in Hv0. rewrite Hcache in Hv0. destruct Hv0 as [-> ->].
  destruct (doMerkleOperations sm) eqn:Hmode.
  - destruct (Htree eq_refl) as (i & l & Hlow & Hl & Hval).
    unfold completion, readStorage.
    rewrite (bind_Returns _ _ _ _ _ Hread).
    rewrite (bind_Returns _ _ _ _ _ (getObject_Some _ _ _ Hthis)).
    rewrite Hmode.
    unfold getLeafOrLowLeafInfo, db_getPreviousValueIndex, db_getLeafPreimage,
      db_getIndexedSiblingPath, IndexedTree.getLeafPreimage.
    run. rewrite Hlow. simpl. rewrite Hl. simpl. rewrite Hval, N.eqb_refl. simpl.
    by rewrite (traceEvent_Some _ _ _ _ Hthis).
  - destruct (readStorage_plain _ _ _ contractAddress slot Hthis Hmode)
      as (v' & cached' & Hread' & Hrun).
    unfold completion. rewrite Hrun. simpl. congruence.
Qed.

(** What a [writeStorage] that returns leaves behind. *)
Lemma writeStorage_Returns m this sm contractAddress slot value protocolWrite m1 :
  objects m !! this = Some sm →
  writeStorage this contractAddress slot value protocolWrite m = (Returns tt, m1) →
  ∃ sm1,
    objects m1 !! this = Some sm1 ∧
    publicStorage sm1 =
      mkPublicStorage
        (<[(contractAddress, slot) := value]> (storageCache (publicStorage sm)))
        (storageParents (publicStorage sm)) ∧
    doMerkleOperations sm1 = doMerkleOperations sm ∧
    alreadyMergedIntoParent sm1 = alreadyMergedIntoParent sm ∧
    nullifiers sm1 = nullifiers sm ∧
    length (objects m1) = length (objects m) ∧
    (∀ r, r ≠ this → objects m1 !! r = objects m !! r) ∧
    checkpoints (worldStateDB m1) = checkpoints (worldStateDB m) ∧
    if doMerkleOperations sm then
      ∃ res,
        IndexedTree.sequentialInsert indexedTreePath indexedTreeUpdateWitness
          (publicDataTree (trees (worldStateDB m)))
          (computePublicDataTreeLeafSlot contractAddress slot) value =
        Some (res, publicDataTree (trees (worldStateDB m1)))
    else worldStateDB m1 = worldStateDB m.
Proof.
  intros Hthis. unfold writeStorage.
  erewrite bind_Returns by (by apply (updateObject_Some _ _ sm)).
  cbv beta zeta.
  set (sm0 := setPublicStorage _ sm).
  assert (<[this:=sm0]> (objects m) !! this = Some sm0) as Hthis0
    by (by eapply lookup_updated).
  erewrite bind_Returns by (by apply getObject_Some).
  change (doMerkleOperations sm0) with (doMerkleOperations sm).
  destruct (doMerkleOperations sm) eqn:Hmode.
  - unfold db_sequentialInsert. run.
    destruct (IndexedTree.sequentialInsert _ _ _ _) as [[res tr']|] eqn:Hins;
      [|done]. simpl.
    destruct (sequentialInsert_Some _ _ _ _ _ _ _ Hins)
      as (i & b & low & _ & _ & Hlows & Hb).
    rewrite Hlows. simpl.
    assert (∀ e m', traceEvent this e
                      (mkMachine (<[this:=sm0]> (objects m)) (setTrees (setIndexedTree PUBLIC_DATA_TREE tr' (trees (worldStateDB m))) (worldStateDB m)))
                    = (Returns tt, m') →
            ∃ sm1, objects m' !! this = Some sm1 ∧
              publicStorage sm1 = publicStorage sm0 ∧
              doMerkleOperations sm1 = true ∧
              alreadyMergedIntoParent sm1 = alreadyMergedIntoParent sm ∧
              nullifiers sm1 = nullifiers sm ∧
              length (objects m') = length (objects m) ∧
              (∀ r, r ≠ this → objects m' !! r = objects m !! r) ∧
              checkpoints (worldStateDB m') = checkpoints (worldStateDB m) ∧
              ∃ res0, Some (res, tr') = Some (res0, publicDataTree (trees (worldStateDB m'))))
      as Hfin.
    { intros e m'. erewrite traceEvent_Some by exact Hthis0.
      intros [= <-]. eexists. simpl.
      split; [by apply (lookup_updated _ _ sm0)|].
      split_and!; try done.
      - by rewrite !length_insert.
      - intros r Hr. by rewrite !list_lookup_insert_ne.
      - by exists res. }
    destruct b; destruct Hb as [-> _]; simpl;
      intros Hrun; by apply Hfin in Hrun.
  - erewrite traceEvent_Some by exact Hthis0.
    intros [= <-]. eexists. simpl.
    split; [by apply (lookup_updated _ _ sm0)|].
    split_and!; try done.
    + by rewrite !length_insert.
    + intros r Hr. by rewrite !list_lookup_insert_ne.
Qed.


(** ** Fork, merge and reject *)

Lemma fork_Returns m this sm :
  objects m !! this = Some sm →
  fork this m =
    (Returns (length (objects m)),
     mkMachine
       (objects m ++
        [mkStateManager false [] (publicStorage_fork this (publicStorage sm))
           (nullifiers_fork this (nullifiers sm)) (doMerkleOperations sm)
           (merkleTrees sm) (firstNullifier sm)])
       (setCheckpoints
          (trees (worldStateDB m) :: checkpoints (worldStateDB m))
          (worldStateDB m))).
Proof.
  intros Hthis. unfold fork, createCheckpoint, newObject, getObject. run.
  by rewrite Hthis.
Qed.

(** One step of [_merge]: read the fork, write [this]. *)
Lemma update_from_fork m this child sm c
    (F : AvmPersistableStateManager → AvmPersistableStateManager →
         AvmPersistableStateManager) :
  objects m !! this = Some sm → objects m !! child = Some c →
  (c' <- getObject child ;; updateObject this (F c')) m =
    (Returns tt, mkMachine (<[this := F c sm]> (objects m)) (worldStateDB m)).
Proof.
  intros Hthis Hchild.
  rewrite (bind_Returns _ _ _ _ _ (getObject_Some _ _ _ Hchild)).
  by apply updateObject_Some.
Qed.

Lemma nullifiers_add_Some m this sm n :
  objects m !! this = Some sm →
  nullifiers_add this n m =
    (Returns tt,
     mkMachine
       (<[this :=
            setNullifiers
              (mkNullifierManager (nullifierCache (nullifiers sm) ++ [n])
                 (nullifierParents (nullifiers sm))) sm]> (objects m))
       (worldStateDB m)).
Proof. intros Hthis. unfold nullifiers_add, updateObject. by rewrite Hthis. Qed.

(** Taking nullifiers over one by one: all of them are taken exactly when
    none is held by the receiver and none comes twice; otherwise the first
    that is held by then is a collision, with those before it taken. *)
Lemma forEach_accept m this sm ns :
  objects m !! this = Some sm →
  ∃ taken,
    taken `prefix_of` ns ∧
    (Forall (λ n, n ∉ nullifierCache (nullifiers sm)) ns ∧ NoDup ns →
     taken = ns) ∧
    forEach ns (nullifiers_accept this) m =
      (if bool_decide (Forall (λ n, n ∉ nullifierCache (nullifiers sm)) ns ∧
                       NoDup ns)
       then Returns tt else Throws NullifierCollisionError,
       mkMachine
         (<[this :=
              setNullifiers
                (mkNullifierManager (nullifierCache (nullifiers sm) ++ taken)
                   (nullifierParents (nullifiers sm))) sm]> (objects m))
         (worldStateDB m)).
Proof.
  revert m sm. induction ns as [|n ns IH]; intros m sm Hthis.
  - exists []. split_and!; [done..|]. simpl.
    unfold ret. f_equal. destruct m as [objs w]. simpl in *. f_equal.
    symmetry. apply list_insert_id. etrans; [exact Hthis|]. f_equal.
    destruct sm as [? ? ? [? ?] ? ? ?]. simpl. by rewrite app_nil_r.
  - simpl. unfold bind at 1, nullifiers_accept at 1.
    rewrite (bind_Returns _ _ _ _ _ (getObject_Some _ _ _ Hthis)).
    destruct (decide (n ∈ nullifierCache (nullifiers sm))) as [Hin|Hnin].
    + rewrite (bool_decide_eq_true_2 _ Hin). exists []. split_and!.
      * apply prefix_nil.
      * intros [Hall _]. by inversion Hall.
      * rewrite bool_decide_eq_false_2 by (intros [Hall _]; by inversion Hall).
        unfold throw. f_equal. destruct m as [objs w]. simpl in *. f_equal.
        symmetry. apply list_insert_id. etrans; [exact Hthis|]. f_equal.
        destruct sm as [? ? ? [? ?] ? ? ?]. simpl. by rewrite app_nil_r.
    + rewrite (bool_decide_eq_false_2 _ Hnin).
      rewrite (nullifiers_add_Some _ _ _ _ Hthis).
      set (sm1 := setNullifiers _ sm).
      destruct (IH (mkMachine (<[this := sm1]> (objects m)) (worldStateDB m)) sm1)
        as (taken & Hpre & Hall & Hrun); [by eapply lookup_updated|].
      exists (n :: taken). split_and!.
      * by apply prefix_cons.
      * intros [Hf Hnd]. f_equal. apply Hall.
        apply Forall_cons in Hf as [_ Hf]. apply NoDup_cons in Hnd as [Hn Hnd].
        split; [|done]. rewrite Forall_forall in *. intros x Hx. simpl.
        rewrite elem_of_app, list_elem_of_singleton.
        intros [?| ->]; [by eapply Hf|done].
      * rewrite Hrun. cbn [objects worldStateDB]. f_equal.
        -- erewrite bool_decide_ext; [reflexivity|]. simpl. split.
           ++ intros [Hf Hnd]. rewrite Forall_forall in Hf. split.
              ** constructor; [done|]. apply Forall_forall.
                 intros x Hx Hin. apply (Hf x Hx), elem_of_app. by left.
              ** constructor; [|done]. intros Hin.
                 apply (Hf n Hin), elem_of_app. right.
                 by apply list_elem_of_singleton.
           ++ intros [Hf Hnd]. apply Forall_cons in Hf as [_ Hf].
              apply NoDup_cons in Hnd as [Hn Hnd]. split; [|done].
              rewrite Forall_forall in *. intros x Hx.
              rewrite elem_of_app, list_elem_of_singleton.
              intros [?| ->]; [by eapply Hf|done].
        -- rewrite list_insert_insert_eq. simpl. by rewrite <- app_assoc.
Qed.

(** What [_merge] does to the parent when the fork is unresolved, its
    pending nullifiers are new to the parent and a checkpoint is open:
    whether the fork is accepted or rejected, the parent's caches take the
    fork's entries over; only the trees differ. *)
Lemma merge_Returns m this child sm fs reverted s cs :
  objects m !! this = Some sm → objects m !! child = Some fs →
  this ≠ child →
  alreadyMergedIntoParent fs = false →
  Forall (λ n, n ∉ nullifierCache (nullifiers sm)) (nullifierCache (nullifiers fs)) →
  NoDup (nullifierCache (nullifiers fs)) →
  checkpoints (worldStateDB m) = s :: cs →
  ∃ m' sm',
    _merge this child reverted m = (Returns tt, m') ∧
    objects m' !! this = Some sm' ∧
    storageCache (publicStorage sm') =
      storageCache (publicStorage fs) ∪ storageCache (publicStorage sm) ∧
    storageParents (publicStorage sm') = storageParents (publicStorage sm) ∧
    nullifierCache (nullifiers sm') =
      nullifierCache (nullifiers sm) ++ nullifierCache (nullifiers fs) ∧
    nullifierParents (nullifiers sm') = nullifierParents (nullifiers sm) ∧
    trace sm' = Trace.merge (trace sm) (trace fs) reverted ∧
    doMerkleOperations sm' = doMerkleOperations sm ∧
    alreadyMergedIntoParent sm' = alreadyMergedIntoParent sm ∧
    trees (worldStateDB m') = (if reverted then s else trees (worldStateDB m)) ∧
    checkpoints (worldStateDB m') = cs.
Proof.
  intros Hthis Hchild Hne Hflag Hnew Hnodup Hcp. unfold _merge.
  rewrite (bind_Returns _ _ _ _ _ (getObject_Some _ _ _ Hchild)).
  rewrite Hflag. simpl. erewrite bind_Returns by reflexivity.
  erewrite bind_Returns by (by apply updateObject_Some).
  set (fs1 := setAlreadyMerged true fs).
  unfold publicStorage_acceptAndMerge, trace_merge.
  erewrite bind_Returns; cycle 1.
  { eapply update_from_fork with (c := fs1); simpl.
    - by rewrite list_lookup_insert_ne.
    - by eapply lookup_updated. }
  erewrite bind_Returns; cycle 1.
  { unfold nullifiers_acceptAndMerge.
    erewrite bind_Returns; cycle 1.
    { apply getObject_Some with (sm := fs1). simpl.
      rewrite list_lookup_insert_ne by done. by eapply lookup_updated. }
    match goal with
    | |- forEach _ _ (mkMachine (<[this := ?x]> ?objs) ?w) = _ =>
        destruct (forEach_accept (mkMachine (<[this := x]> objs) w) this x
                    (nullifierCache (nullifiers fs1)))
          as (taken & _ & Hall & Hrun)
    end.
    { simpl. eapply lookup_updated. by rewrite list_lookup_insert_ne. }
    simpl in Hall, Hrun. rewrite Hall in Hrun by done.
    rewrite bool_decide_eq_true_2 in Hrun by done. exact Hrun. }
  cbn [objects worldStateDB]. rewrite list_insert_insert_eq.
  erewrite bind_Returns; cycle 1.
  { eapply update_from_fork with (c := fs1); simpl.
    - eapply lookup_updated. by rewrite list_lookup_insert_ne.
    - rewrite !list_lookup_insert_ne by done. by eapply lookup_updated. }
  cbn [objects worldStateDB].
  match goal with
  | |- context [ mkMachine (<[this := ?x]> ?objs) _ ] =>
      set (sm3 := x); set (objs3 := objs)
  end.
  assert (<[this := sm3]> objs3 !! this = Some sm3) as Hthis4.
  { apply list_lookup_insert_eq. unfold objs3. rewrite !length_insert.
    by eapply lookup_lt_Some. }
  assert (<[this := sm3]> objs3 !! child = Some fs1) as Hchild4.
  { unfold objs3. rewrite !list_lookup_insert_ne by done.
    by eapply lookup_updated. }
  destruct reverted.
  - unfold revertCheckpoint. run. rewrite Hcp. simpl.
    eexists _, sm3. split; [done|]. simpl. by split_and!.
  - unfold commitCheckpoint. run. rewrite Hcp. simpl.
    unfold getObject. cbn [objects]. rewrite Hchild4.
    unfold updateObject. cbn [objects]. rewrite Hthis4.
    eexists _, _. split; [done|]. cbn [objects].
    split; [by eapply lookup_updated|]. simpl. by split_and!.
Qed.


Lemma neverWritten_miss m sm key :
  neverWritten m sm key →
  readHereOrParent (objects m) (publicStorage sm) key = None.
Proof.
  intros [Hhere Hparents]. unfold readHereOrParent. rewrite Hhere.
  induction (storageParents (publicStorage sm)) as [|p ps IH]; [done|]. simpl.
  destruct (objects m !! p) as [psm|] eqn:Hp; simpl.
  - rewrite (Hparents p psm) by (done || by left).
    apply IH. intros q qsm Hq. apply Hparents. by right.
  - apply IH. intros q qsm Hq. apply Hparents. by right.
Qed.



(** ** Rejecting a fork *)

(** Whether the fork is merged or rejected, what it wrote to a slot is what
    the parent reads afterwards. *)
Lemma resolve_keeps_fork_write m this sm contractAddress slot value protocolWrite
    c m1 m2 reverted :
  objects m !! this = Some sm →
  fork this m = (Returns c, m1) →
  writeStorage c contractAddress slot value protocolWrite m1 = (Returns tt, m2) →
  ∃ m3 sm3,
    _merge this c reverted m2 = (Returns tt, m3) ∧
    objects m3 !! this = Some sm3 ∧
    storageCache (publicStorage sm3) !! (contractAddress, slot) = Some value ∧
    (∀ v, completion (readStorage this contractAddress slot) m3 = Returns v →
          v = value) ∧
    (doMerkleOperations sm = false →
     completion (readStorage this contractAddress slot) m3 = Returns value).
Proof.
  intros Hthis Hfork Hwrite.
  rewrite (fork_Returns _ _ _ Hthis) in Hfork. injection Hfork as <- <-.
  set (child := mkStateManager _ _ _ _ _ _ _) in *.
  assert (this < length (objects m)) as Hlt by (by eapply lookup_lt_Some).
  assert (this ≠ length (objects m)) as Hne by lia.
  set (m1 := mkMachine _ _) in Hwrite.
  assert (objects m1 !! length (objects m) = Some child) as Hchild.
  { simpl. rewrite lookup_app_r by done. by rewrite Nat.sub_diag. }
  destruct (writeStorage_Returns m1 _ _ _ _ _ _ _ Hchild Hwrite) as
    (sm1 & Hsm1 & Hps & Hmode & Hflag & Hnull & _ & Hother & Hcp & Hworld).
  assert (objects m2 !! this = Some sm) as Hthis2.
  { rewrite Hother by done. simpl. by apply lookup_app_l_Some. }
  destruct (merge_Returns m2 this (length (objects m)) sm sm1 reverted
              (trees (worldStateDB m)) (checkpoints (worldStateDB m)))
    as (m3 & sm3 & Hmerge & Hsm3 & Hcache & _ & _ & _ & _ & Hmode3 & _);
    [done|done|done|done|by rewrite Hnull|by rewrite Hnull; constructor|done|].
  assert (storageCache (publicStorage sm3) !! (contractAddress, slot) = Some value)
    as Hhit.
  { rewrite Hcache, Hps. simpl. apply lookup_union_Some_l, lookup_insert_eq. }
  exists m3, sm3. split_and!; [done..| |].
  - intros v Hret.
    destruct (readStorage_Returns _ _ _ _ _ _ Hsm3 Hret) as (cached & Hread).
    destruct (publicStorage_read_Some m3 this sm3 contractAddress slot Hsm3)
      as (v0 & cached0 & Hread0 & Hv0).
    unfold readHereOrParent in Hv0. rewrite Hhit in Hv0. destruct Hv0 as [-> _].
    congruence.
  - intros Hplain. apply (readStorage_cached _ _ sm3); [done..|].
    rewrite Hmode3. congruence.
Qed.

(** C1: a slot read as 0 before the fork reads as 42, the value the rejected
    fork wrote, after [reject]; with and without Merkle operations. *)
Theorem reject_keeps_fork_write :
  completion rejectScenario (rootMachine false genesisWorld) =
    Returns (0%N, 42%N) ∧
  completion rejectScenario (rootMachine true genesisWorld) =
    Returns (0%N, 42%N).
Proof. split; vm_compute; reflexivity. Qed.

(** The nested scenario of the specification expects 42 in fork A; A reads
    99, the value of the fork it rejected. *)
Example nested_reject_reads_rejected_value :
  completion nestedRejectScenario (rootMachine false genesisWorld) =
    Returns 99%N.
Proof. vm_compute. reflexivity. Qed.

(** ** Overwriting a slot *)

(** With Merkle operations [writeStorage] returns as soon as the public
    data tree has a low leaf for the slot, whether or not it holds the slot
    already: the insertion result always carries an insertion witness, so the
    leaf that is traced is rebuilt from the low leaf and no value is
    compared. *)
Lemma writeStorage_merkle m this sm contractAddress slot value protocolWrite i b :
  objects m !! this = Some sm →
  doMerkleOperations sm = true →
  IndexedTree.getPreviousValueIndex (publicDataTree (trees (worldStateDB m)))
    (computePublicDataTreeLeafSlot contractAddress slot) = Some (i, b) →
  ∃ low res tr' path,
    publicDataTree (trees (worldStateDB m)) !! i = Some low ∧
    IndexedTree.sequentialInsert indexedTreePath indexedTreeUpdateWitness
      (publicDataTree (trees (worldStateDB m)))
      (computePublicDataTreeLeafSlot contractAddress slot) value =
      Some (res, tr') ∧
    writeStorage this contractAddress slot value protocolWrite m =
      (Returns tt,
       mkMachine
         (<[this :=
              setTrace
                (Trace.record
                   (PublicStorageWrite contractAddress slot value protocolWrite
                      (Some (mkHint low (N.of_nat i)
                               (indexedTreePath
                                  (publicDataTree (trees (worldStateDB m))) i),
                             mkLeaf
                               (computePublicDataTreeLeafSlot contractAddress slot)
                               value (nextKey low) (nextIndex low),
                             Some path)))
                   (trace sm))
                (setPublicStorage
                   (mkPublicStorage
                      (<[(contractAddress, slot) := value]>
                         (storageCache (publicStorage sm)))
                      (storageParents (publicStorage sm))) sm)]> (objects m))
         (setTrees (setIndexedTree PUBLIC_DATA_TREE tr' (trees (worldStateDB m)))
            (worldStateDB m))).
Proof.
  intros Hthis Hmode Hlow.
  destruct (getPreviousValueIndex_Some _ _ _ _ Hlow) as (low & Hi & _).
  exists low.
  destruct (IndexedTree.sequentialInsert indexedTreePath indexedTreeUpdateWitness
              (publicDataTree (trees (worldStateDB m)))
              (computePublicDataTreeLeafSlot contractAddress slot) value)
    as [[res tr']|] eqn:Hins; cycle 1.
  { unfold IndexedTree.sequentialInsert in Hins. rewrite Hlow, Hi in Hins.
    by destruct b. }
  destruct (sequentialInsert_Some _ _ _ _ _ _ _ Hins)
    as (i' & b' & low' & Hlow' & Hi' & Hlows & Hb).
  assert (i' = i ∧ b' = b) as [-> ->] by (split; congruence).
  assert (low' = low) as -> by congruence.
  assert (∃ ins, IndexedTree.insertionWitnessData res = [ins]) as (ins & Hins1).
  { destruct b; destruct Hb as [-> _]; by eexists. }
  exists res, tr', (IndexedTree.siblingPath ins). split_and!; [done..|].
  unfold writeStorage, publicStorage_write.
  erewrite bind_Returns by (by apply (updateObject_Some _ _ sm)).
  cbv beta zeta. set (sm0 := setPublicStorage _ sm).
  assert (<[this:=sm0]> (objects m) !! this = Some sm0) as Hthis0
    by (by eapply lookup_updated).
  erewrite bind_Returns by (by apply getObject_Some).
  change (doMerkleOperations sm0) with (doMerkleOperations sm). rewrite Hmode.
  unfold db_sequentialInsert. run. rewrite Hins. simpl.
  rewrite Hlows, Hins1. simpl.
  erewrite traceEvent_Some by exact Hthis0. simpl.
  by rewrite list_insert_insert_eq.
Qed.

(** Without a low leaf for the slot the insertion fails, and [writeStorage]
    with it. *)
Lemma writeStorage_no_low_leaf m this sm contractAddress slot value protocolWrite :
  objects m !! this = Some sm →
  doMerkleOperations sm = true →
  IndexedTree.getPreviousValueIndex (publicDataTree (trees (worldStateDB m)))
    (computePublicDataTreeLeafSlot contractAddress slot) = None →
  completion (writeStorage this contractAddress slot value protocolWrite) m =
    Throws (AssertionError PublicDataInsertionFailed).
Proof.
  intros Hthis Hmode Hlow. unfold completion, writeStorage, publicStorage_write.
  erewrite bind_Returns by (by apply (updateObject_Some _ _ sm)).
  cbv beta zeta. set (sm0 := setPublicStorage _ sm).
  assert (<[this:=sm0]> (objects m) !! this = Some sm0) as Hthis0
    by (by eapply lookup_updated).
  erewrite bind_Returns by (by apply getObject_Some).
  change (doMerkleOperations sm0) with (doMerkleOperations sm). rewrite Hmode.
  unfold db_sequentialInsert, IndexedTree.sequentialInsert. run.
  by rewrite Hlow.
Qed.

(** Without Merkle operations [writeStorage] caches, traces and returns. *)
Lemma writeStorage_plain m this sm contractAddress slot value protocolWrite :
  objects m !! this = Some sm →
  doMerkleOperations sm = false →
  writeStorage this contractAddress slot value protocolWrite m =
    (Returns tt,
     mkMachine
       (<[this :=
            setTrace
              (Trace.record
                 (PublicStorageWrite contractAddress slot value protocolWrite None)
                 (trace sm))
              (setPublicStorage
                 (mkPublicStorage
                    (<[(contractAddress, slot) := value]>
                       (storageCache (publicStorage sm)))
                    (storageParents (publicStorage sm))) sm)]> (objects m))
       (worldStateDB m)).
Proof.
  intros Hthis Hmode. unfold writeStorage, publicStorage_write.
  erewrite bind_Returns by (by apply (updateObject_Some _ _ sm)).
  cbv beta zeta. set (sm0 := setPublicStorage _ sm).
  assert (<[this:=sm0]> (objects m) !! this = Some sm0) as Hthis0
    by (by eapply lookup_updated).
  erewrite bind_Returns by (by apply getObject_Some).
  change (doMerkleOperations sm0) with (doMerkleOperations sm). rewrite Hmode.
  erewrite traceEvent_Some by exact Hthis0. simpl.
  by rewrite list_insert_insert_eq.
Qed.


(** ** Write, then read *)


(** Writing 1 and then 2 to one slot returns, and the slot then reads as
    2, with and without Merkle operations. *)
Example overwrite_then_read :
  completion overwriteScenario (rootMachine true genesisWorld) = Returns 2%N ∧
  completion overwriteScenario (rootMachine false genesisWorld) = Returns 2%N.
Proof. split; vm_compute; reflexivity. Qed.


(** ** The low-leaf skip *)

Lemma worldWellFormed_on_world : on_world worldWellFormed.
Proof. by intros m objs. Qed.

Lemma indexedTree_wellFormed treeId s :
  treesWellFormed s → wellFormed (indexedTree treeId s).
Proof. intros [? ?]. by destruct treeId. Qed.

Lemma createCheckpoint_wellFormed : preserves worldWellFormed createCheckpoint.
Proof.
  intros m Hm. unfold createCheckpoint, worldWellFormed in *. run.
  constructor; [by inversion Hm|done].
Qed.

Lemma commitCheckpoint_wellFormed : preserves worldWellFormed commitCheckpoint.
Proof.
  intros m Hm. unfold commitCheckpoint, worldWellFormed in *. run.
  destruct (checkpoints (worldStateDB m)) as [|s cs] eqn:Hcp; simpl; [by rewrite Hcp|].
  inversion Hm as [|? ? ? Hrest]; subst. inversion Hrest; subst. by constructor.
Qed.

Lemma revertCheckpoint_wellFormed : preserves worldWellFormed revertCheckpoint.
Proof.
  intros m Hm. unfold revertCheckpoint, worldWellFormed in *. run.
  destruct (checkpoints (worldStateDB m)) as [|s cs] eqn:Hcp; simpl; [by rewrite Hcp|].
  by inversion Hm.
Qed.

Lemma sequentialInsert_worldWellFormed treeId key value :
  preserves worldWellFormed (db_sequentialInsert treeId key value).
Proof.
  intros m Hm. unfold db_sequentialInsert, worldWellFormed in *. run.
  destruct (IndexedTree.sequentialInsert _ _ _ _) as [[res tr']|] eqn:Hins;
    simpl; [|done].
  inversion Hm as [|? ? [Hn Hp] Hrest]; subst. constructor; [|done].
  destruct treeId; split; simpl; try done;
    (eapply sequentialInsert_wellFormed; [|exact Hins]; done).
Qed.

(** Over a well-formed tree the lookup returns, writes nothing, and hands
    back a low leaf that skips every key it does not hold. *)
Lemma getLeafOrLowLeafInfo_wellFormed m treeId key :
  wellFormed (indexedTree treeId (trees (worldStateDB m))) →
  ∃ r, getLeafOrLowLeafInfo treeId key m = (Returns r, m) ∧
       IndexedTree.getPreviousValueIndex (indexedTree treeId (trees (worldStateDB m)))
         key = Some (leafIndex r, alreadyPresent r) ∧
       indexedTree treeId (trees (worldStateDB m)) !! leafIndex r =
         Some (preimage r) ∧
       (alreadyPresent r = false → IndexedTree.skips (preimage r) key = true).
Proof.
  intros [Hlinked (l0 & Hl0 & Hk0)].
  destruct (getPreviousValueIndex_sentinel _ key _ Hl0 Hk0) as [[i b] Hlow].
  destruct (getPreviousValueIndex_Some _ _ _ _ Hlow) as (l & Hl & _).
  exists (mkLeafResult l i b). split_and!; [|done..|].
  - unfold getLeafOrLowLeafInfo, db_getPreviousValueIndex, db_getLeafPreimage,
      IndexedTree.getLeafPreimage. run.
    rewrite Hlow. simpl. by rewrite Hl.
  - simpl. intros ->. by eapply linked_skips.
Qed.

(** ** What every call keeps *)

Lemma publicStorage_read_pure this contractAddress slot m :
  (publicStorage_read this contractAddress slot m).2 = m.
Proof.
  unfold publicStorage_read, storageRead, getObject. run.
  destruct (objects m !! this); simpl; [|done].
  by destruct (readHereOrParent _ _ _).
Qed.

Lemma nullifiers_checkExists_pure this siloedNullifier m :
  (nullifiers_checkExists this siloedNullifier m).2 = m.
Proof.
  unfold nullifiers_checkExists, getNullifierIndex, getObject. run.
  destruct (objects m !! this); simpl; [|done].
  by destruct (checkExistsHereOrParent _ _ _).
Qed.

Lemma preserves_publicStorage_read P this contractAddress slot :
  preserves P (publicStorage_read this contractAddress slot).
Proof. intros m Hm. by rewrite publicStorage_read_pure. Qed.

Lemma preserves_nullifiers_checkExists P this siloedNullifier :
  preserves P (nullifiers_checkExists this siloedNullifier).
Proof. intros m Hm. by rewrite nullifiers_checkExists_pure. Qed.

(** The rules shared by every property; [leaf] closes the writes. *)
Ltac keeps leaf :=
  repeat first
    [ apply preserves_ret
    | apply preserves_throw
    | apply preserves_assert
    | apply preserves_getObject
    | apply preserves_getWorld
    | apply preserves_publicStorage_read
    | apply preserves_nullifiers_checkExists
    | leaf
    | apply preserves_bind; [|intros ?]
    | apply preserves_forEach; intros ?
    | match goal with
      | |- preserves _ (match ?x with _ => _ end) => destruct x
      end ].

(** The calls down to the caches and the database; [append] and
    [acceptAndMerge] of the Append Set Cache stay folded. *)
Ltac unfold_calls :=
  unfold invoke, create, fork, merge, reject, _merge, writeStorage, readStorage,
    peekStorage, checkNoteHashExists, checkL1ToL2MessageExists,
    checkNullifierExists, writeNullifier, writeSiloedNullifiersFromPrivate,
    getContractInstance, getBytecode, instanceAndMembership;
  unfold writeSiloedNullifier, getNullifierMembership;
  unfold getLeafOrLowLeafInfo, publicStorage_write, publicStorage_acceptAndMerge,
    trace_merge, traceEvent,
    db_getPreviousValueIndex, db_getLeafPreimage, db_getIndexedSiblingPath,
    db_getSiblingPath, db_getLeafValue.

Ltac unfold_methods :=
  unfold_calls;
  unfold nullifiers_append, nullifiers_acceptAndMerge, nullifiers_accept,
    nullifiers_add.

Lemma invoke_wellFormed c : preserves worldWellFormed (invoke c).
Proof.
  destruct c; unfold_methods;
    keeps ltac:(first
      [ apply preserves_updateObject_world, worldWellFormed_on_world
      | apply preserves_newObject_world, worldWellFormed_on_world
      | apply createCheckpoint_wellFormed
      | apply commitCheckpoint_wellFormed
      | apply revertCheckpoint_wellFormed
      | apply sequentialInsert_worldWellFormed ]).
Qed.

Lemma invoke_resolved r c : preserves (resolved r) (invoke c).
Proof.
  destruct c; unfold_methods;
    unfold createCheckpoint, commitCheckpoint, revertCheckpoint, db_sequentialInsert;
    keeps ltac:(first
      [ apply preserves_setWorld, resolved_on_objects
      | apply preserves_resolved_newObject
      | apply preserves_resolved_updateObject; by intros [] ]).
Qed.

Lemma execute_preserves P cs :
  (∀ c, preserves P (invoke c)) → ∀ m, P m → P (execute cs m).
Proof.
  intros Hinv. induction cs as [|c cs IH]; intros m Hm; simpl; [done|].
  apply IH. by apply Hinv.
Qed.

(** Every store reached from a well-formed database by calls on the state
    manager has a well-formed database. *)
Lemma execute_wellFormed cs m :
  worldWellFormed m → worldWellFormed (execute cs m).
Proof. apply execute_preserves, invoke_wellFormed. Qed.

(** A resolved fork stays resolved whatever is called afterwards. *)
Lemma execute_resolved r cs m : resolved r m → resolved r (execute cs m).
Proof. apply execute_preserves, invoke_resolved. Qed.

(** C4: the first [merge] or [reject] of a fork ([_merge] with [reverted]
    false or true) marks it resolved, and any later [merge] or [reject] of
    that fork, from any state manager and after any further calls, fails the
    fatal assertion and leaves the store as it was: a fork is resolved at
    most once. *)
Theorem fork_resolved_once m this forkedState fs reverted :
  objects m !! forkedState = Some fs →
  alreadyMergedIntoParent fs = false →
  resolved forkedState (after (_merge this forkedState reverted) m) ∧
  ∀ cs this' reverted',
    _merge this' forkedState reverted'
      (execute cs (after (_merge this forkedState reverted) m)) =
      (Throws (AssertionError ForkAlreadyMerged),
       execute cs (after (_merge this forkedState reverted) m)).
Proof.
  intros Hfs Hflag.
  assert (resolved forkedState (after (_merge this forkedState reverted) m)) as Hres.
  { unfold after, _merge.
    rewrite (bind_Returns _ _ _ _ _ (getObject_Some _ _ _ Hfs)).
    rewrite Hflag. simpl.
    erewrite bind_Returns by reflexivity.
    erewrite bind_Returns by (by apply updateObject_Some).
    apply merge_rest_resolved.
    exists (setAlreadyMerged true fs). split; [|done].
    by eapply lookup_updated. }
  split; [done|]. intros cs this' reverted'.
  by apply merge_resolved, execute_resolved.
Qed.

Lemma genesis_wellFormed objs : worldWellFormed (mkMachine objs genesisWorld).
Proof.
  repeat constructor; simpl; try apply linked_initial;
    by exists emptyLeafPreimage.
Qed.

Lemma nullifiers_checkExists_Some m this sm siloedNullifier :
  objects m !! this = Some sm →
  ∃ r, nullifiers_checkExists this siloedNullifier m = (Returns r, m) ∧
       r.1.1 = nullifierKnown m sm siloedNullifier.
Proof.
  intros Hthis. unfold nullifiers_checkExists, getNullifierIndex, nullifierKnown.
  rewrite (bind_Returns _ _ _ _ _ (getObject_Some _ _ _ Hthis)).
  destruct (checkExistsHereOrParent _ _ _); run; by eexists.
Qed.

Lemma dangling_throws {A} (k : AvmPersistableStateManager → Method A) m this :
  objects m !! this = None →
  (sm <- getObject this ;; k sm) m = (Throws DanglingReference, m).
Proof. intros Hnone. unfold bind, getObject. by rewrite Hnone. Qed.

Lemma then_ret_Throws {A B} (c : Method A) (x : B) m e :
  completion (c ;; ret x) m = Throws e → completion c m = Throws e.
Proof.
  unfold completion, bind, ret. destruct (c m) as [[a|e'] m']; simpl; congruence.
Qed.

Lemma readStorage_no_skip m this contractAddress slot :
  wellFormed (publicDataTree (trees (worldStateDB m))) →
  completion (readStorage this contractAddress slot) m ≠
    Throws (AssertionError PublicDataLowLeafSkip).
Proof.
  intros Hwf. unfold readStorage.
  destruct (objects m !! this) as [sm|] eqn:Hthis.
  - destruct (publicStorage_read_Some m this sm contractAddress slot Hthis)
      as (v & cached & Hread & _).
    unfold completion.
    rewrite (bind_Returns _ _ _ _ _ Hread).
    rewrite (bind_Returns _ _ _ _ _ (getObject_Some _ _ _ Hthis)).
    intros Hthrow. apply then_ret_Throws in Hthrow. revert Hthrow.
    unfold completion. destruct (doMerkleOperations sm).
    + destruct (getLeafOrLowLeafInfo_wellFormed m PUBLIC_DATA_TREE
                  (computePublicDataTreeLeafSlot contractAddress slot) Hwf)
        as (r & Hrun & _ & _ & Hskip).
      rewrite (bind_Returns _ _ _ _ _ Hrun).
      unfold db_getIndexedSiblingPath. run.
      destruct (alreadyPresent r).
      * destruct (leafValue (preimage r) =? v)%N; simpl; [|done].
        by rewrite (traceEvent_Some _ _ _ _ Hthis).
      * rewrite Hskip by done. simpl.
        by rewrite (traceEvent_Some _ _ _ _ Hthis).
    + simpl. by rewrite (traceEvent_Some _ _ _ _ Hthis).
  - unfold completion, publicStorage_read.
    rewrite (bind_Throws _ _ _ _ _ (dangling_throws _ _ _ Hthis)). done.
Qed.

(** [getNullifierMembership] writes nothing.  When it returns, it returns
    what the Append Set Cache reports, and with Merkle operations the tree
    agrees with that and its low leaf skips an absent nullifier; when it
    throws, it is one of its assertions, with Merkle operations on. *)
Lemma getNullifierMembership_cases m this sm siloedNullifier :
  objects m !! this = Some sm →
  after (getNullifierMembership this siloedNullifier) m = m ∧
  match completion (getNullifierMembership this siloedNullifier) m with
  | Returns r =>
      r.1 = nullifierKnown m sm siloedNullifier ∧
      if doMerkleOperations sm then
        ∃ i l,
          IndexedTree.getPreviousValueIndex
            (nullifierTree (trees (worldStateDB m))) siloedNullifier =
            Some (i, r.1) ∧
          nullifierTree (trees (worldStateDB m)) !! i = Some l ∧
          r.2 = mkHint l (N.of_nat i)
                  (indexedTreePath (nullifierTree (trees (worldStateDB m))) i) ∧
          (r.1 = false → IndexedTree.skips l siloedNullifier = true)
      else r.2 = mkHint emptyLeafPreimage 0%N []
  | Throws e =>
      doMerkleOperations sm = true ∧
      ∃ a, e = AssertionError a ∧
           (a = NullifierLowLeafSkip →
            ¬ wellFormed (nullifierTree (trees (worldStateDB m))))
  end.
Proof.
  intros Hthis.
  destruct (nullifiers_checkExists_Some m this sm siloedNullifier Hthis)
    as (r & Hcheck & Hr).
  unfold after, completion, getNullifierMembership.
  rewrite (bind_Returns _ _ _ _ _ Hcheck).
  rewrite (bind_Returns _ _ _ _ _ (getObject_Some _ _ _ Hthis)).
  rewrite Hr. set (known := nullifierKnown m sm siloedNullifier). clearbody known.
  destruct (doMerkleOperations sm); [|by run].
  unfold getLeafOrLowLeafInfo, db_getPreviousValueIndex, db_getLeafPreimage,
    db_getIndexedSiblingPath, IndexedTree.getLeafPreimage. run.
  destruct (IndexedTree.getPreviousValueIndex _ _) as [[i b]|] eqn:Hlow; simpl;
    [|by (split_and!; [done..|eexists])].
  destruct (getPreviousValueIndex_Some _ _ _ _ Hlow) as (l & Hl & _).
  rewrite Hl. simpl.
  destruct b, known; simpl.
  - split; [done|]. split; [done|]. by exists i, l.
  - by (split_and!; [done..|eexists]).
  - by (split_and!; [done..|eexists]).
  - destruct (IndexedTree.skips l siloedNullifier) eqn:Hskip; simpl.
    + split; [done|]. split; [done|]. by exists i, l.
    + split; [done|]. split; [done|]. eexists. split; [done|].
      intros _ [Hlinked _].
      rewrite (linked_skips _ _ _ _ Hlinked Hlow Hl) in Hskip. done.
Qed.

(** C3: over a well-formed database every indexed-tree lookup returns, and
    for a key that is not already present the low leaf it returns lies below
    the key and its successor, if it has one, above; so the skip assertions
    of [readStorage] and [getNullifierMembership] never fire. *)
Theorem low_leaf_skip m :
  worldWellFormed m →
  (∀ treeId key,
     ∃ r, getLeafOrLowLeafInfo treeId key m = (Returns r, m) ∧
          (alreadyPresent r = false →
           (leafKey (preimage r) < key)%N ∧
           (nextIndex (preimage r) = 0 ∨ (key < nextKey (preimage r))%N))) ∧
  (∀ this contractAddress slot,
     completion (readStorage this contractAddress slot) m ≠
       Throws (AssertionError PublicDataLowLeafSkip)) ∧
  (∀ this siloedNullifier,
     completion (getNullifierMembership this siloedNullifier) m ≠
       Throws (AssertionError NullifierLowLeafSkip)).
Proof.
  intros Hwf. inversion Hwf as [|? ? Htrees _]; subst. split_and!.
  - intros treeId key.
    destruct (getLeafOrLowLeafInfo_wellFormed m treeId key
                (indexedTree_wellFormed _ _ Htrees)) as (r & Hrun & _ & _ & Hskip).
    exists r. split; [done|]. intros Habsent. specialize (Hskip Habsent).
    apply andb_true_iff in Hskip as [Hlt Hnext]. apply N.ltb_lt in Hlt.
    split; [done|]. apply orb_true_iff in Hnext as [Hz|Hgt].
    + left. by apply Nat.eqb_eq.
    + right. by apply N.ltb_lt.
  - intros this contractAddress slot. apply readStorage_no_skip, Htrees.
  - intros this siloedNullifier Hthrow.
    destruct (objects m !! this) as [sm|] eqn:Hthis.
    + destruct (getNullifierMembership_cases m this sm siloedNullifier Hthis)
        as [_ Hcases].
      rewrite Hthrow in Hcases. destruct Hcases as (_ & a & [= <-] & Hnot).
      apply Hnot; [done|]. apply Htrees.
    + revert Hthrow. unfold completion, getNullifierMembership, nullifiers_checkExists.
      by rewrite (bind_Throws _ _ _ _ _ (dangling_throws _ _ _ Hthis)).
Qed.

(** ** Nullifiers from private execution *)

Lemma zeroFree_on_objects : on_objects zeroFree.
Proof. by intros m w. Qed.

Lemma preserves_zeroFree_updateObject r f :
  (∀ sm, 0%N ∉ nullifierCache (nullifiers sm) →
         0%N ∉ nullifierCache (nullifiers (f sm))) →
  preserves zeroFree (updateObject r f).
Proof.
  intros Hf m Hm. unfold updateObject.
  destruct (objects m !! r) as [sm|] eqn:Hr; simpl; [|done].
  intros r' sm'. simpl. destruct (decide (r = r')) as [<-|Hne].
  - rewrite (lookup_updated _ _ _ _ Hr). intros [= <-]. apply Hf. by eapply Hm.
  - rewrite list_lookup_insert_ne by done. apply Hm.
Qed.

Lemma append_zeroFree (n : N) (c : list N) :
  n ≠ 0%N → 0%N ∉ c → 0%N ∉ c ++ [n].
Proof.
  intros Hn Hc. rewrite elem_of_app, list_elem_of_singleton. by intros [?|?].
Qed.

Lemma writeSiloedNullifier_zeroFree this siloedNullifier :
  siloedNullifier ≠ 0%N →
  preserves zeroFree (writeSiloedNullifier this siloedNullifier).
Proof.
  intros Hnz. unfold_methods. unfold db_sequentialInsert.
  keeps ltac:(first
    [ apply preserves_setWorld, zeroFree_on_objects
    | apply preserves_zeroFree_updateObject; intros [] ?; simpl in *;
      first [done | by apply append_zeroFree] ]).
Qed.

(** C10: [writeSiloedNullifiersFromPrivate] writes the non-empty entries of
    the list, in order, through [writeSiloedNullifier], stopping at the
    first that throws; an empty (zero) entry is skipped, so a list of empty
    entries does nothing at all, and the empty nullifier never enters a
    cache. *)
Theorem fromPrivate_skips_empty this :
  writeSiloedNullifiersFromPrivate this [] = ret tt ∧
  (∀ ns, writeSiloedNullifiersFromPrivate this (0%N :: ns) =
         writeSiloedNullifiersFromPrivate this ns) ∧
  (∀ n ns, n ≠ 0%N →
     writeSiloedNullifiersFromPrivate this (n :: ns) =
     (writeSiloedNullifier this n ;; writeSiloedNullifiersFromPrivate this ns)) ∧
  (∀ ns m, Forall (λ n, n = 0%N) ns →
     writeSiloedNullifiersFromPrivate this ns m = (Returns tt, m)) ∧
  (∀ ns m, zeroFree m →
     zeroFree (after (writeSiloedNullifiersFromPrivate this ns) m)).
Proof.
  assert (∀ ns, writeSiloedNullifiersFromPrivate this (0%N :: ns) =
                writeSiloedNullifiersFromPrivate this ns) as Hzero by done.
  assert (∀ n ns, n ≠ 0%N →
            writeSiloedNullifiersFromPrivate this (n :: ns) =
            (writeSiloedNullifier this n ;;
             writeSiloedNullifiersFromPrivate this ns)) as Hcons.
  { intros n ns Hn. unfold writeSiloedNullifiersFromPrivate.
    rewrite filter_cons_True; [done|].
    unfold isEmpty. apply N.eqb_neq in Hn. by rewrite Hn. }
  split_and!; [done..| |].
  - intros ns m Hall. induction Hall as [|n ns -> _ IH]; [done|].
    by rewrite Hzero.
  - intros ns. induction ns as [|n ns IH]; intros m Hm; [done|].
    destruct (decide (n = 0%N)) as [->|Hn]; [rewrite Hzero; by apply IH|].
    rewrite Hcons by done. revert m Hm.
    change (preserves zeroFree
              (writeSiloedNullifier this n ;;
               writeSiloedNullifiersFromPrivate this ns)).
    apply preserves_bind; [by apply writeSiloedNullifier_zeroFree|].
    intros _ m Hm. by apply IH.
Qed.

(** ** Contract instances *)

(** The shared prefix of [getContractInstance] and [getBytecode] writes
    nothing.  When it returns, it hands back what the database holds for the
    address and, for an address that is not canonical, the nullifier cache
    agrees with the database on existence, and so does the nullifier tree
    under Merkle operations; when it throws, the address is not canonical
    and an assertion failed. *)
Lemma instanceAndMembership_cases m this sm contractAddress :
  objects m !! this = Some sm →
  after (instanceAndMembership this contractAddress) m = m ∧
  match completion (instanceAndMembership this contractAddress) m with
  | Returns r =>
      r.1 = contractInstances (worldStateDB m) !! contractAddress ∧
      if contractAddressIsCanonical contractAddress then
        r.2 = mkHint emptyLeafPreimage 0%N []
      else
        nullifierKnown m sm (siloNullifier DEPLOYER_CONTRACT_ADDRESS contractAddress)
          = bool_decide (is_Some (contractInstances (worldStateDB m) !! contractAddress)) ∧
        (doMerkleOperations sm = true →
         ∃ i,
           IndexedTree.getPreviousValueIndex
             (nullifierTree (trees (worldStateDB m)))
             (siloNullifier DEPLOYER_CONTRACT_ADDRESS contractAddress) =
           Some (i, bool_decide
                      (is_Some (contractInstances (worldStateDB m) !! contractAddress))))
  | Throws e =>
      contractAddressIsCanonical contractAddress = false ∧
      ∃ a, e = AssertionError a
  end.
Proof.
  intros Hthis. unfold after, completion, instanceAndMembership.
  erewrite bind_Returns by reflexivity.
  destruct (contractAddressIsCanonical contractAddress); simpl; [done|].
  pose proof (getNullifierMembership_cases m this sm
                (siloNullifier DEPLOYER_CONTRACT_ADDRESS contractAddress) Hthis)
    as [Hafter Hcases].
  unfold after, completion in Hafter, Hcases.
  destruct (getNullifierMembership _ _ m) as [[r|e] m'] eqn:Hrun;
    simpl in Hafter, Hcases; subst m'.
  - destruct Hcases as [Hknown Htree]. rewrite <- Hknown.
    rewrite !(bind_Returns _ _ _ _ _ Hrun).
    set (inst := bool_decide _). unfold assert.
    destruct (eqb inst r.1) eqn:Heq; run.
    + apply eqb_prop in Heq. split_and!; [done..|].
      intros Hmode. rewrite Hmode in Htree.
      destruct Htree as (i & l & Hlow & _). exists i. by rewrite Heq.
    + split_and!; [done..|]. by eexists.
  - rewrite !(bind_Throws _ _ _ _ _ Hrun). simpl.
    destruct Hcases as (_ & a & -> & _). split_and!; [done..|]. by eexists.
Qed.




(** ** Lookups in an indexed tree *)

Lemma getLeafOrLowLeafInfo_run m treeId key :
  getLeafOrLowLeafInfo treeId key m =
    (match IndexedTree.getPreviousValueIndex
             (indexedTree treeId (trees (worldStateDB m))) key with
     | None => Throws (AssertionError (LowLeafIndexNotFound treeId))
     | Some (i, b) =>
         match indexedTree treeId (trees (worldStateDB m)) !! i with
         | None => Throws (AssertionError (LowLeafPreimageUndefined treeId))
         | Some l => Returns (mkLeafResult l i b)
         end
     end, m).
Proof.
  unfold getLeafOrLowLeafInfo, db_getPreviousValueIndex, db_getLeafPreimage,
    IndexedTree.getLeafPreimage. run.
  destruct (IndexedTree.getPreviousValueIndex _ _) as [[i b]|]; simpl; [|done].
  by destruct (_ !! i).
Qed.

(** X1: [getLeafOrLowLeafInfo] leaves the store as it was.  When it returns,
    the preimage is the leaf the tree holds at the returned index, its key
    is the largest key of the tree that does not exceed the queried key, and
    [alreadyPresent] tells whether the two keys are equal.  It throws only
    when every key of the tree is above the queried key, and then it is the
    missing-index assertion: the undefined-preimage assertion never fires. *)
Theorem getLeafOrLowLeafInfo_result m treeId key :
  after (getLeafOrLowLeafInfo treeId key) m = m ∧
  match completion (getLeafOrLowLeafInfo treeId key) m with
  | Returns r =>
      indexedTree treeId (trees (worldStateDB m)) !! leafIndex r =
        Some (preimage r) ∧
      (leafKey (preimage r) <= key)%N ∧
      alreadyPresent r = (leafKey (preimage r) =? key)%N ∧
      ∀ j l, indexedTree treeId (trees (worldStateDB m)) !! j = Some l →
             (leafKey l <= key)%N → (leafKey l <= leafKey (preimage r))%N
  | Throws e =>
      e = AssertionError (LowLeafIndexNotFound treeId) ∧
      ∀ j l, indexedTree treeId (trees (worldStateDB m)) !! j = Some l →
             (key < leafKey l)%N
  end.
Proof.
  unfold after, completion. rewrite getLeafOrLowLeafInfo_run. simpl.
  split; [done|].
  destruct (IndexedTree.getPreviousValueIndex _ _) as [[i b]|] eqn:Hlow.
  - destruct (getPreviousValueIndex_Some _ _ _ _ Hlow) as (l & Hl & Hle & Hb & Hmax).
    rewrite Hl. simpl. by split_and!.
  - split; [done|]. by apply getPreviousValueIndex_None.
Qed.

(** ** L1-to-L2 message checks *)

(** X2: [checkL1ToL2MessageExists] always returns.  It returns [true]
    exactly when the leaf of the persistent L1-to-L2 message tree at the
    index, taken as 0 when the tree has none there, equals the message hash;
    it appends one entry to the trace of the receiver, which carries the
    value found and the returned boolean, and a sibling path exactly with
    Merkle operations; it changes nothing else. *)
Theorem checkL1ToL2MessageExists_iff m this sm contractAddress msgHash msgLeafIndex :
  objects m !! this = Some sm →
  ∃ b path,
    checkL1ToL2MessageExists this contractAddress msgHash msgLeafIndex m =
      (Returns b,
       mkMachine
         (<[this :=
              setTrace
                (Trace.record
                   (L1ToL2MessageCheck contractAddress
                      (default 0%N
                         (l1ToL2MessageTree (trees (worldStateDB m))
                            !! N.to_nat msgLeafIndex))
                      msgLeafIndex b path)
                   (trace sm)) sm]> (objects m))
         (worldStateDB m)) ∧
    (b = true ↔
     default 0%N (l1ToL2MessageTree (trees (worldStateDB m)) !! N.to_nat msgLeafIndex)
       = msgHash) ∧
    (is_Some path ↔ doMerkleOperations sm = true).
Proof.
  intros Hthis.
  unfold checkL1ToL2MessageExists, db_getLeafValue, db_getSiblingPath. run.
  rewrite (getObject_Some _ _ _ Hthis).
  destruct (doMerkleOperations sm); simpl;
    rewrite (traceEvent_Some _ _ _ _ Hthis); eexists _, _;
    (split; [done|]); (split; [apply N.eqb_eq|]).
  - by split.
  - split; [by intros [? ?]|done].
Qed.

(** ** Bytecode of a deployed contract *)

(** X3: [getBytecode] on an address the database holds an instance for,
    once the membership part has returned: without a contract class for the
    instance it fails the first assertion, with a class but no bytecode
    commitment the second, both with the store untouched; with both it
    returns the packed bytecode of the class and traces it with the instance
    and the class preimage built from the class and the commitment, the
    membership hint being passed exactly with Merkle operations. *)
Theorem getBytecode_deployed m this sm contractAddress instance r :
  objects m !! this = Some sm →
  contractInstances (worldStateDB m) !! contractAddress = Some instance →
  completion (instanceAndMembership this contractAddress) m = Returns r →
  match contractClasses (worldStateDB m) !! contractClassId instance,
        bytecodeCommitments (worldStateDB m) !! contractClassId instance with
  | None, _ =>
      getBytecode this contractAddress m =
        (Throws (AssertionError ContractClassNotFound), m)
  | Some _, None =>
      getBytecode this contractAddress m =
        (Throws (AssertionError BytecodeCommitmentNotFound), m)
  | Some contractClass, Some bytecodeCommitment =>
      getBytecode this contractAddress m =
        (Returns (Some (packedBytecode contractClass)),
         mkMachine
           (<[this :=
                setTrace
                  (Trace.record
                     (GetBytecode contractAddress true
                        (Some (packedBytecode contractClass)) (Some instance)
                        (Some (mkClassPreimage (artifactHash contractClass)
                                 (privateFunctionsRoot contractClass)
                                 bytecodeCommitment))
                        (if doMerkleOperations sm then Some r.2 else None))
                     (trace sm)) sm]> (objects m))
           (worldStateDB m))
  end.
Proof.
  intros Hthis Hinst Hret.
  destruct (instanceAndMembership_cases m this sm contractAddress Hthis)
    as [Hsame Hcases].
  rewrite Hret in Hcases. destruct Hcases as [Hr1 _].
  assert (instanceAndMembership this contractAddress m = (Returns r, m)) as Hrun.
  { unfold completion, after in *.
    destruct (instanceAndMembership this contractAddress m) as [c m']. simpl in *.
    by subst. }
  unfold getBytecode.
  rewrite (bind_Returns _ _ _ _ _ Hrun).
  rewrite (bind_Returns _ _ _ _ _ (getObject_Some _ _ _ Hthis)).
  rewrite Hr1, Hinst. run.
  destruct (contractClasses _ !! _) as [cls|]; [|done].
  destruct (bytecodeCommitments _ !! _) as [commitment|]; [|done].
  destruct (doMerkleOperations sm); simpl;
    by rewrite (traceEvent_Some _ _ _ _ Hthis).
Qed.

(** ** Membership of nullifiers *)

Lemma findLeafIndex_Some (tr : IndexedTree.t) (k : Fr) j :
  IndexedTree.findLeafIndex tr k = Some j →
  ∃ l, tr !! j = Some l ∧ leafKey l = k.
Proof.
  revert j. induction tr as [|l tr IH]; intros j; simpl; [done|].
  destruct (leafKey l =? k)%N eqn:Hk.
  - intros [= <-]. exists l. split; [done|]. by apply N.eqb_eq.
  - destruct (IndexedTree.findLeafIndex tr k) as [j'|]; simpl; [|done].
    intros [= <-]. by apply IH.
Qed.

Lemma findLeafIndex_None (tr : IndexedTree.t) (k : Fr) :
  IndexedTree.findLeafIndex tr k = None →
  ∀ j l, tr !! j = Some l → leafKey l ≠ k.
Proof.
  induction tr as [|l0 tr IH]; simpl; [done|].
  destruct (leafKey l0 =? k)%N eqn:Hk; [done|].
  destruct (IndexedTree.findLeafIndex tr k) as [j'|] eqn:Hfind; simpl; [done|].
  intros _ [|j] l; simpl.
  - intros [= <-]. by apply N.eqb_neq.
  - by apply IH.
Qed.

(** The two membership tests of the persistent accessor agree: the low-leaf
    lookup reports a key as present exactly when a leaf search finds it. *)
Lemma present_findLeafIndex (tr : IndexedTree.t) (k : Fr) i b :
  IndexedTree.getPreviousValueIndex tr k = Some (i, b) →
  b = bool_decide (is_Some (IndexedTree.findLeafIndex tr k)).
Proof.
  intros Hlow.
  destruct (getPreviousValueIndex_Some _ _ _ _ Hlow) as (l & Hl & Hle & -> & Hmax).
  destruct (IndexedTree.findLeafIndex tr k) as [j|] eqn:Hfind.
  - destruct (findLeafIndex_Some _ _ _ Hfind) as (l' & Hl' & Hk).
    rewrite bool_decide_eq_true_2 by done. apply N.eqb_eq.
    specialize (Hmax j l' Hl'). lia.
  - rewrite bool_decide_eq_false_2 by (by intros [? ?]).
    apply N.eqb_neq. by apply (findLeafIndex_None _ _ Hfind i l).
Qed.

Lemma getNullifierMembership_run m this sm siloedNullifier :
  objects m !! this = Some sm →
  getNullifierMembership this siloedNullifier m =
    (if doMerkleOperations sm then
       match IndexedTree.getPreviousValueIndex
               (nullifierTree (trees (worldStateDB m))) siloedNullifier with
       | None => Throws (AssertionError (LowLeafIndexNotFound NULLIFIER_TREE))
       | Some (i, b) =>
           match nullifierTree (trees (worldStateDB m)) !! i with
           | None => Throws (AssertionError (LowLeafPreimageUndefined NULLIFIER_TREE))
           | Some l =>
               if negb (eqb b (nullifierKnown m sm siloedNullifier)) then
                 Throws (AssertionError NullifierTreeDisagreement)
               else if negb (nullifierKnown m sm siloedNullifier) &&
                       negb (IndexedTree.skips l siloedNullifier) then
                 Throws (AssertionError NullifierLowLeafSkip)
               else
                 Returns
                   (nullifierKnown m sm siloedNullifier,
                    mkHint l (N.of_nat i)
                      (indexedTreePath (nullifierTree (trees (worldStateDB m))) i))
           end
       end
     else Returns (nullifierKnown m sm siloedNullifier,
                   mkHint emptyLeafPreimage 0%N []),
     m).
Proof.
  intros Hthis.
  destruct (nullifiers_checkExists_Some m this sm siloedNullifier Hthis)
    as (r & Hcheck & Hr).
  unfold getNullifierMembership.
  rewrite (bind_Returns _ _ _ _ _ Hcheck).
  rewrite (bind_Returns _ _ _ _ _ (getObject_Some _ _ _ Hthis)).
  rewrite Hr. set (known := nullifierKnown m sm siloedNullifier). clearbody known.
  destruct (doMerkleOperations sm); [|done].
  unfold bind at 1. rewrite getLeafOrLowLeafInfo_run. simpl.
  destruct (IndexedTree.getPreviousValueIndex _ _) as [[i b]|]; [|done].
  destruct (_ !! i) as [l|]; [|done].
  unfold db_getIndexedSiblingPath. run.
  destruct b, known; simpl; try done.
  by destruct (IndexedTree.skips l siloedNullifier).
Qed.

Lemma checkNullifierExists_run m this sm contractAddress nullifier :
  objects m !! this = Some sm →
  checkNullifierExists this contractAddress nullifier m =
    match getNullifierMembership this (siloNullifier contractAddress nullifier) m with
    | (Returns r, _) =>
        (Returns r.1,
         mkMachine
           (<[this :=
                setTrace
                  (Trace.record
                     (NullifierCheck (siloNullifier contractAddress nullifier) r.1
                        (if doMerkleOperations sm then Some r.2 else None))
                     (trace sm)) sm]> (objects m))
           (worldStateDB m))
    | (Throws e, _) => (Throws e, m)
    end.
Proof.
  intros Hthis.
  pose proof (getNullifierMembership_cases m this sm
                (siloNullifier contractAddress nullifier) Hthis) as [Hsame _].
  unfold after in Hsame. unfold checkNullifierExists. unfold bind at 1.
  destruct (getNullifierMembership _ _ m) as [[r|e] m']; simpl in Hsame; subst m';
    [|done].
  rewrite (bind_Returns _ _ _ _ _ (getObject_Some _ _ _ Hthis)).
  unfold bind.
  destruct (doMerkleOperations sm); by rewrite (traceEvent_Some _ _ _ _ Hthis).
Qed.

(** X4: what [checkNullifierExists] answers.  Without Merkle operations it
    returns what the Append Set Cache reports (pending in an overlay of the
    chain, or held by the persistent tree) and traces it without a hint.
    With Merkle operations over a well-formed nullifier tree it returns
    whether the tree holds the siloed nullifier and traces that with the
    leaf or low leaf found, except when the nullifier is pending in an
    overlay of the chain and the tree does not hold it: then, and only then,
    the agreement assertion fails, with the store untouched. *)
Theorem checkNullifierExists_result m this sm contractAddress nullifier :
  objects m !! this = Some sm →
  (doMerkleOperations sm = false →
   checkNullifierExists this contractAddress nullifier m =
     (Returns (nullifierKnown m sm (siloNullifier contractAddress nullifier)),
      mkMachine
        (<[this :=
             setTrace
               (Trace.record
                  (NullifierCheck (siloNullifier contractAddress nullifier)
                     (nullifierKnown m sm (siloNullifier contractAddress nullifier))
                     None)
                  (trace sm)) sm]> (objects m))
        (worldStateDB m))) ∧
  (doMerkleOperations sm = true →
   wellFormed (nullifierTree (trees (worldStateDB m))) →
   if checkExistsHereOrParent (objects m) (nullifiers sm)
        (siloNullifier contractAddress nullifier) &&
      negb (inNullifierTree m (siloNullifier contractAddress nullifier))
   then
     checkNullifierExists this contractAddress nullifier m =
       (Throws (AssertionError NullifierTreeDisagreement), m)
   else
     ∃ i l,
       nullifierTree (trees (worldStateDB m)) !! i = Some l ∧
       (leafKey l <= siloNullifier contractAddress nullifier)%N ∧
       checkNullifierExists this contractAddress nullifier m =
         (Returns (inNullifierTree m (siloNullifier contractAddress nullifier)),
          mkMachine
            (<[this :=
                 setTrace
                   (Trace.record
                      (NullifierCheck (siloNullifier contractAddress nullifier)
                         (inNullifierTree m (siloNullifier contractAddress nullifier))
                         (Some (mkHint l (N.of_nat i)
                                  (indexedTreePath
                                     (nullifierTree (trees (worldStateDB m))) i))))
                      (trace sm)) sm]> (objects m))
            (worldStateDB m))).
Proof.
  intros Hthis.
  set (n := siloNullifier contractAddress nullifier).
  pose proof (getNullifierMembership_run m this sm n Hthis) as Hrun.
  split.
  - intros Hmode. rewrite Hmode in Hrun.
    rewrite (checkNullifierExists_run _ _ _ _ _ Hthis). fold n.
    by rewrite Hrun, Hmode.
  - intros Hmode [Hlinked (l0 & Hl0 & Hzero)]. rewrite Hmode in Hrun.
    destruct (getPreviousValueIndex_sentinel _ n _ Hl0 Hzero) as [[i b] Hlow].
    rewrite Hlow in Hrun.
    destruct (getPreviousValueIndex_Some _ _ _ _ Hlow) as (l & Hl & Hle & _).
    rewrite Hl in Hrun.
    pose proof (present_findLeafIndex _ _ _ _ Hlow) as Hb.
    fold (inNullifierTree m n) in Hb.
    unfold nullifierKnown in Hrun. fold (inNullifierTree m n) in Hrun.
    rewrite (checkNullifierExists_run _ _ _ _ _ Hthis). fold n.
    destruct (checkExistsHereOrParent _ _ _) eqn:Hpending;
      destruct (inNullifierTree m n) eqn:Htree; subst b; simpl in *.
    + exists i, l. split; [done|]. split; [done|]. by rewrite Hrun, Hmode.
    + by rewrite Hrun.
    + exists i, l. split; [done|]. split; [done|]. by rewrite Hrun, Hmode.
    + rewrite (linked_skips _ _ _ _ Hlinked Hlow Hl) in Hrun. simpl in Hrun.
      exists i, l. split; [done|]. split; [done|]. by rewrite Hrun, Hmode.
Qed.

(** A check of a nullifier that is pending on the chain of overlays returns
    [true]; with Merkle operations the tree has to hold it too. *)
Lemma checkNullifierExists_pending m this sm contractAddress nullifier :
  objects m !! this = Some sm →
  checkExistsHereOrParent (objects m) (nullifiers sm)
    (siloNullifier contractAddress nullifier) = true →
  (doMerkleOperations sm = true →
   inNullifierTree m (siloNullifier contractAddress nullifier) = true) →
  completion (checkNullifierExists this contractAddress nullifier) m = Returns true.
Proof.
  intros Hthis Hpending Htree. unfold completion.
  rewrite (checkNullifierExists_run _ _ _ _ _ Hthis).
  rewrite (getNullifierMembership_run _ _ _ _ Hthis).
  unfold nullifierKnown. rewrite Hpending. simpl.
  destruct (doMerkleOperations sm); [|done].
  specialize (Htree eq_refl). unfold inNullifierTree in Htree.
  apply bool_decide_eq_true_1 in Htree as [j Hfind].
  destruct (findLeafIndex_Some _ _ _ Hfind) as (l' & Hl' & Hk).
  destruct (getPreviousValueIndex_present _ _ _ _ Hl' Hk) as (i & Hlow).
  destruct (getPreviousValueIndex_Some _ _ _ _ Hlow) as (l & Hl & _).
  by rewrite Hlow, Hl.
Qed.

(** ** Contract instances, cross-checked *)


(** The lookup of an address that is neither canonical nor deployed, over a
    database at genesis: [getContractInstance] and [getBytecode] return
    [undefined], with and without Merkle operations. *)
Example undeployed_lookup_returns :
  contractAddressIsCanonical (H := samplePrimitives) 9%N = false ∧
  completion (getContractInstance (H := samplePrimitives) 0 9%N)
    (rootMachine true genesisWorld) = Returns None ∧
  completion (getBytecode (H := samplePrimitives) 0 9%N)
    (rootMachine true genesisWorld) = Returns None ∧
  completion (getContractInstance (H := samplePrimitives) 0 9%N)
    (rootMachine false genesisWorld) = Returns None ∧
  completion (getBytecode (H := samplePrimitives) 0 9%N)
    (rootMachine false genesisWorld) = Returns None.
Proof. split_and!; vm_compute; reflexivity. Qed.


(** ** Writing nullifiers *)

(** [append] throws for a nullifier the Append Set Cache reports as
    existing, and adds any other to the pending set of the receiver. *)
Lemma nullifiers_append_run m this sm siloedNullifier :
  objects m !! this = Some sm →
  nullifiers_append this siloedNullifier m =
    if nullifierKnown m sm siloedNullifier
    then (Throws NullifierCollisionError, m)
    else
      (Returns tt,
       mkMachine
         (<[this :=
              setNullifiers
                (mkNullifierManager
                   (nullifierCache (nullifiers sm) ++ [siloedNullifier])
                   (nullifierParents (nullifiers sm))) sm]> (objects m))
         (worldStateDB m)).
Proof.
  intros Hthis.
  destruct (nullifiers_checkExists_Some m this sm siloedNullifier Hthis)
    as (r & Hcheck & Hr).
  unfold nullifiers_append. rewrite (bind_Returns _ _ _ _ _ Hcheck), Hr.
  destruct (nullifierKnown m sm siloedNullifier); [done|].
  by apply nullifiers_add_Some.
Qed.

(** Every way [writeSiloedNullifier] can go.  With Merkle operations a
    nullifier the tree holds is traced as a check and collides; one the
    tree does not hold collides in [append], untraced, when it is pending on
    the chain of overlays, and is otherwise added, inserted and traced.
    Without Merkle operations [append] decides alone. *)
Lemma writeSiloedNullifier_run m this sm siloedNullifier :
  objects m !! this = Some sm →
  writeSiloedNullifier this siloedNullifier m =
    if doMerkleOperations sm then
      match IndexedTree.getPreviousValueIndex
              (nullifierTree (trees (worldStateDB m))) siloedNullifier with
      | None => (Throws (AssertionError (LowLeafIndexNotFound NULLIFIER_TREE)), m)
      | Some (i, b) =>
          match nullifierTree (trees (worldStateDB m)) !! i with
          | None =>
              (Throws (AssertionError (LowLeafPreimageUndefined NULLIFIER_TREE)), m)
          | Some low =>
              if b then
                (Throws NullifierCollisionError,
                 mkMachine
                   (<[this :=
                        setTrace
                          (Trace.record
                             (NullifierCheck siloedNullifier true
                                (Some (mkHint low (N.of_nat i)
                                         (indexedTreePath
                                            (nullifierTree (trees (worldStateDB m)))
                                            i))))
                             (trace sm)) sm]> (objects m))
                   (worldStateDB m))
              else if nullifierKnown m sm siloedNullifier then
                (Throws NullifierCollisionError, m)
              else
                let n := length (nullifierTree (trees (worldStateDB m))) in
                let tr' :=
                  <[i := withNext low siloedNullifier n]>
                    (nullifierTree (trees (worldStateDB m))) ++
                  [mkLeaf siloedNullifier 0%N (nextKey low) (nextIndex low)] in
                (Returns tt,
                 mkMachine
                   (<[this :=
                        setTrace
                          (Trace.record
                             (NewNullifier siloedNullifier
                                (Some (mkHint low (N.of_nat i)
                                         (indexedTreePath
                                            (nullifierTree (trees (worldStateDB m)))
                                            i),
                                       indexedTreePath tr' n)))
                             (trace sm))
                          (setNullifiers
                             (mkNullifierManager
                                (nullifierCache (nullifiers sm) ++ [siloedNullifier])
                                (nullifierParents (nullifiers sm))) sm)]>
                      (objects m))
                   (setTrees
                      (setIndexedTree NULLIFIER_TREE tr' (trees (worldStateDB m)))
                      (worldStateDB m)))
          end
      end
    else if nullifierKnown m sm siloedNullifier then
      (Throws NullifierCollisionError, m)
    else
      (Returns tt,
       mkMachine
         (<[this :=
              setTrace
                (Trace.record (NewNullifier siloedNullifier None) (trace sm))
                (setNullifiers
                   (mkNullifierManager
                      (nullifierCache (nullifiers sm) ++ [siloedNullifier])
                      (nullifierParents (nullifiers sm))) sm)]> (objects m))
         (worldStateDB m)).
Proof.
  intros Hthis. unfold writeSiloedNullifier.
  rewrite (bind_Returns _ _ _ _ _ (getObject_Some _ _ _ Hthis)).
  destruct (doMerkleOperations sm) eqn:Hmode.
  - unfold bind at 1. rewrite getLeafOrLowLeafInfo_run. cbn [indexedTree].
    destruct (IndexedTree.getPreviousValueIndex _ _) as [[i b]|] eqn:Hlow; [|done].
    destruct (_ !! i) as [low|] eqn:Hl; [|done].
    destruct b; simpl.
    { unfold db_getIndexedSiblingPath. run.
      by rewrite (traceEvent_Some _ _ _ _ Hthis). }
    unfold bind at 1. rewrite (nullifiers_append_run _ _ _ _ Hthis).
    destruct (nullifierKnown m sm siloedNullifier); [done|].
    unfold db_sequentialInsert, IndexedTree.sequentialInsert. run.
    rewrite Hlow, Hl. simpl.
    erewrite traceEvent_Some by (by eapply lookup_updated). simpl.
    by rewrite list_insert_insert_eq.
  - unfold bind at 1. rewrite (nullifiers_append_run _ _ _ _ Hthis).
    destruct (nullifierKnown m sm siloedNullifier); [done|].
    erewrite traceEvent_Some by (by eapply lookup_updated). simpl.
    by rewrite list_insert_insert_eq.
Qed.

(** A nullifier that exists already, pending on the chain of overlays or
    held by the tree, collides; the check is traced when the state manager
    finds the nullifier in the tree itself, and nothing is written when the
    collision comes from [append]. *)
Lemma writeSiloedNullifier_known m this sm siloedNullifier :
  objects m !! this = Some sm →
  doMerkleOperations sm = false ∨
  wellFormed (nullifierTree (trees (worldStateDB m))) →
  nullifierKnown m sm siloedNullifier = true →
  completion (writeSiloedNullifier this siloedNullifier) m =
    Throws NullifierCollisionError ∧
  if doMerkleOperations sm && inNullifierTree m siloedNullifier then
    ∃ witness,
      after (writeSiloedNullifier this siloedNullifier) m =
        mkMachine
          (<[this :=
               setTrace
                 (Trace.record
                    (NullifierCheck siloedNullifier true (Some witness))
                    (trace sm)) sm]> (objects m))
          (worldStateDB m)
  else after (writeSiloedNullifier this siloedNullifier) m = m.
Proof.
  intros Hthis Hok Hknown. unfold completion, after.
  rewrite (writeSiloedNullifier_run _ _ _ _ Hthis), Hknown.
  destruct (doMerkleOperations sm); [|done].
  destruct Hok as [|[_ (l0 & Hl0 & Hzero)]]; [done|].
  destruct (getPreviousValueIndex_sentinel _ siloedNullifier _ Hl0 Hzero)
    as [[i b] Hlow].
  destruct (getPreviousValueIndex_Some _ _ _ _ Hlow) as (low & Hl & _).
  rewrite Hlow, Hl. unfold inNullifierTree.
  rewrite <- (present_findLeafIndex _ _ _ _ Hlow).
  destruct b; simpl; [|done]. split; [done|]. by eexists.
Qed.

(** A nullifier that does not exist yet is added to the pending set of the
    receiver and traced, with its witnesses exactly with Merkle operations,
    where the tree takes it too. *)
Lemma writeSiloedNullifier_fresh m this sm siloedNullifier :
  objects m !! this = Some sm →
  doMerkleOperations sm = false ∨
  wellFormed (nullifierTree (trees (worldStateDB m))) →
  nullifierKnown m sm siloedNullifier = false →
  ∃ m1 witness,
    writeSiloedNullifier this siloedNullifier m = (Returns tt, m1) ∧
    objects m1 =
      <[this :=
          setTrace
            (Trace.record (NewNullifier siloedNullifier witness) (trace sm))
            (setNullifiers
               (mkNullifierManager
                  (nullifierCache (nullifiers sm) ++ [siloedNullifier])
                  (nullifierParents (nullifiers sm))) sm)]> (objects m) ∧
    (is_Some witness ↔ doMerkleOperations sm = true) ∧
    checkpoints (worldStateDB m1) = checkpoints (worldStateDB m) ∧
    if doMerkleOperations sm then
      wellFormed (nullifierTree (trees (worldStateDB m1))) ∧
      inNullifierTree m1 siloedNullifier = true
    else worldStateDB m1 = worldStateDB m.
Proof.
  intros Hthis Hok Hknown.
  rewrite (writeSiloedNullifier_run _ _ _ _ Hthis), Hknown.
  destruct (doMerkleOperations sm); cycle 1.
  { eexists _, _. split; [done|]. simpl. split; [done|].
    split; [|done]. split; [by intros [? ?]|done]. }
  destruct Hok as [|Hwf]; [done|].
  pose proof Hwf as [_ (l0 & Hl0 & Hzero)].
  destruct (getPreviousValueIndex_sentinel _ siloedNullifier _ Hl0 Hzero)
    as [[i b] Hlow].
  destruct (getPreviousValueIndex_Some _ _ _ _ Hlow) as (low & Hl & _).
  rewrite Hlow, Hl.
  assert (b = false) as ->.
  { rewrite (present_findLeafIndex _ _ _ _ Hlow).
    unfold nullifierKnown in Hknown. by apply orb_false_iff in Hknown as [_ ->]. }
  assert (IndexedTree.sequentialInsert indexedTreePath indexedTreeUpdateWitness
            (nullifierTree (trees (worldStateDB m))) siloedNullifier 0%N =
          Some (IndexedTree.mkInsertion
                  [IndexedTree.mkWitness low i
                     (indexedTreePath (nullifierTree (trees (worldStateDB m))) i)]
                  [IndexedTree.mkWitness
                     (mkLeaf siloedNullifier 0%N (nextKey low) (nextIndex low))
                     (length (nullifierTree (trees (worldStateDB m))))
                     (indexedTreePath
                        (<[i := withNext low siloedNullifier
                                  (length (nullifierTree (trees (worldStateDB m))))]>
                           (nullifierTree (trees (worldStateDB m))) ++
                         [mkLeaf siloedNullifier 0%N (nextKey low) (nextIndex low)])
                        (length (nullifierTree (trees (worldStateDB m)))))],
                <[i := withNext low siloedNullifier
                         (length (nullifierTree (trees (worldStateDB m))))]>
                  (nullifierTree (trees (worldStateDB m))) ++
                [mkLeaf siloedNullifier 0%N (nextKey low) (nextIndex low)]))
    as Hins.
  { unfold IndexedTree.sequentialInsert. by rewrite Hlow, Hl. }
  cbv zeta. eexists _, _. split; [done|]. cbn [objects worldStateDB].
  split; [done|]. split; [by split; [|eexists]|]. split; [done|]. simpl. split.
  - by eapply sequentialInsert_wellFormed.
  - destruct (sequentialInsert_lookup _ _ _ _ _ _ _ Hins) as (j & l' & Hj & _).
    unfold inNullifierTree. simpl.
    by rewrite <- (present_findLeafIndex _ _ _ _ Hj).
Qed.

(** The nullifier a state manager holds in its own pending set exists for
    it, and for every fork made of it. *)
Lemma nullifierKnown_own m sm siloedNullifier :
  siloedNullifier ∈ nullifierCache (nullifiers sm) →
  nullifierKnown m sm siloedNullifier = true.
Proof.
  intros Hin. unfold nullifierKnown, checkExistsHereOrParent.
  by rewrite (bool_decide_eq_true_2 _ Hin).
Qed.

Lemma nullifierKnown_parent m (p : ref) psm sm siloedNullifier :
  objects m !! p = Some psm →
  siloedNullifier ∈ nullifierCache (nullifiers psm) →
  p ∈ nullifierParents (nullifiers sm) →
  nullifierKnown m sm siloedNullifier = true.
Proof.
  intros Hp Hin Hparent. unfold nullifierKnown, checkExistsHereOrParent.
  apply orb_true_iff. left. apply orb_true_iff. right.
  apply existsb_exists. exists p. split; [by apply list_elem_of_In|].
  unfold pendingIn. rewrite Hp. by apply bool_decide_eq_true_2.
Qed.


(** A [writeSiloedNullifier] that returns wrote a nullifier that did not
    exist. *)
Lemma writeSiloedNullifier_Returns_fresh m this sm siloedNullifier m1 :
  objects m !! this = Some sm →
  writeSiloedNullifier this siloedNullifier m = (Returns tt, m1) →
  nullifierKnown m sm siloedNullifier = false.
Proof.
  intros Hthis. rewrite (writeSiloedNullifier_run _ _ _ _ Hthis).
  destruct (nullifierKnown m sm siloedNullifier); [|done].
  destruct (doMerkleOperations sm); [|done].
  destruct (IndexedTree.getPreviousValueIndex _ _) as [[i b]|]; [|done].
  destruct (_ !! i) as [l|]; [|done]. by destruct b.
Qed.

(** What a [writeSiloedNullifier] that returns leaves behind. *)
Lemma writeSiloedNullifier_Returns m this sm siloedNullifier m1 :
  objects m !! this = Some sm →
  writeSiloedNullifier this siloedNullifier m = (Returns tt, m1) →
  ∃ sm1,
    objects m1 = <[this := sm1]> (objects m) ∧
    nullifiers sm1 =
      mkNullifierManager (nullifierCache (nullifiers sm) ++ [siloedNullifier])
        (nullifierParents (nullifiers sm)) ∧
    publicStorage sm1 = publicStorage sm ∧
    doMerkleOperations sm1 = doMerkleOperations sm ∧
    alreadyMergedIntoParent sm1 = alreadyMergedIntoParent sm ∧
    checkpoints (worldStateDB m1) = checkpoints (worldStateDB m) ∧
    if doMerkleOperations sm then
      (∃ i, IndexedTree.getPreviousValueIndex
              (nullifierTree (trees (worldStateDB m))) siloedNullifier =
            Some (i, false)) ∧
      inNullifierTree m1 siloedNullifier = true
    else worldStateDB m1 = worldStateDB m.
Proof.
  intros Hthis. rewrite (writeSiloedNullifier_run _ _ _ _ Hthis).
  destruct (doMerkleOperations sm) eqn:Hmode.
  - destruct (IndexedTree.getPreviousValueIndex _ _) as [[i b]|] eqn:Hlow; [|done].
    destruct (_ !! i) as [l|] eqn:Hl; [|done].
    destruct b; [done|].
    destruct (nullifierKnown m sm siloedNullifier); [done|].
    assert (is_Some (IndexedTree.sequentialInsert indexedTreePath
                       indexedTreeUpdateWitness
                       (nullifierTree (trees (worldStateDB m))) siloedNullifier 0%N))
      as [[res tr'] Hins].
    { apply sequentialInsert_is_Some. by eexists. }
    destruct (sequentialInsert_lookup _ _ _ _ _ _ _ Hins) as (j & l' & Hj & _).
    destruct (sequentialInsert_Some _ _ _ _ _ _ _ Hins)
      as (i' & b & low & Hlow' & Hl' & _ & Hb).
    rewrite Hlow in Hlow'. injection Hlow' as <- <-.
    assert (low = l) as -> by congruence. destruct Hb as [_ ->].
    cbv zeta. intros [= <-]. eexists. split; [done|]. simpl.
    split_and!; try done.
    + by exists i.
    + unfold inNullifierTree. simpl.
      by rewrite <- (present_findLeafIndex _ _ _ _ Hj).
  - destruct (nullifierKnown m sm siloedNullifier); [done|].
    intros [= <-]. eexists. split; [done|]. by split_and!.
Qed.

(** A nullifier that does not exist for a fresh fork is not pending in the
    fork's parent. *)
Lemma fork_write_new_to_parent m1 this sm (c : ref) child siloedNullifier :
  objects m1 !! this = Some sm →
  objects m1 !! c = Some child →
  nullifierParents (nullifiers child) = this :: nullifierParents (nullifiers sm) →
  nullifierKnown m1 child siloedNullifier = false →
  siloedNullifier ∉ nullifierCache (nullifiers sm).
Proof.
  intros Hthis Hchild Hparents Hknown Hin.
  by rewrite (nullifierKnown_parent m1 this sm child siloedNullifier Hthis Hin)
    in Hknown by (rewrite Hparents; apply list_elem_of_here).
Qed.

(** X5: a nullifier written by a state manager is reported as existing by
    that state manager and by a fork made of it afterwards; and a nullifier
    written by a fork is reported as existing by the parent once the fork is
    merged.  This holds with and without Merkle operations. *)
Theorem nullifier_write_then_check m this sm contractAddress nullifier :
  objects m !! this = Some sm →
  (∀ m1,
     writeNullifier this contractAddress nullifier m = (Returns tt, m1) →
     completion (checkNullifierExists this contractAddress nullifier) m1 =
       Returns true ∧
     ∀ c m2, fork this m1 = (Returns c, m2) →
       completion (checkNullifierExists c contractAddress nullifier) m2 =
         Returns true) ∧
  (∀ c m1 m2,
     fork this m = (Returns c, m1) →
     writeNullifier c contractAddress nullifier m1 = (Returns tt, m2) →
     ∃ m3, merge this c m2 = (Returns tt, m3) ∧
           completion (checkNullifierExists this contractAddress nullifier) m3 =
             Returns true).
Proof.
  intros Hthis. set (n := siloNullifier contractAddress nullifier).
  pose proof (lookup_lt_Some _ _ _ Hthis) as Hlt.
  split.
  - intros m1 Hwrite.
    destruct (writeSiloedNullifier_Returns _ _ _ _ _ Hthis Hwrite)
      as (sm1 & Hobjs & Hnull & _ & Hmode & _ & _ & Hworld).
    assert (objects m1 !! this = Some sm1) as Hthis1.
    { rewrite Hobjs. by apply list_lookup_insert_eq. }
    assert (n ∈ nullifierCache (nullifiers sm1)) as Hin.
    { rewrite Hnull. simpl. apply elem_of_app. right.
      by apply list_elem_of_singleton. }
    assert (doMerkleOperations sm1 = true → inNullifierTree m1 n = true) as Htree.
    { rewrite Hmode. intros Hm. rewrite Hm in Hworld. by destruct Hworld. }
    split.
    + apply (checkNullifierExists_pending _ _ sm1); [done| |done].
      unfold checkExistsHereOrParent. fold n.
      by rewrite bool_decide_eq_true_2.
    + intros c m2. rewrite (fork_Returns _ _ _ Hthis1). intros [= <- <-].
      eapply checkNullifierExists_pending.
      * simpl. by apply list_lookup_middle.
      * unfold checkExistsHereOrParent, pendingIn. fold n. simpl.
        rewrite (lookup_app_l_Some _ _ _ _ Hthis1).
        rewrite (bool_decide_eq_true_2 _ Hin). by rewrite ?orb_true_r.
      * simpl. exact Htree.
  - intros c m1 m2. rewrite (fork_Returns _ _ _ Hthis). intros [= <- <-] Hwrite.
    set (child := mkStateManager _ _ _ _ _ _ _) in Hwrite.
    set (m1 := mkMachine _ _) in Hwrite.
    assert (objects m1 !! length (objects m) = Some child) as Hchild
      by (by apply list_lookup_middle).
    destruct (writeSiloedNullifier_Returns _ _ _ _ _ Hchild Hwrite)
      as (fs & Hobjs & Hnull & _ & Hmode & Hflag & Hcp & Hworld).
    assert (objects m1 !! this = Some sm) as Hthis1
      by (by apply lookup_app_l_Some).
    pose proof (fork_write_new_to_parent _ _ _ _ _ _ Hthis1 Hchild eq_refl
                  (writeSiloedNullifier_Returns_fresh _ _ _ _ _ Hchild Hwrite))
      as Hnew.
    assert (objects m2 !! this = Some sm) as Hthis2.
    { rewrite Hobjs. rewrite list_lookup_insert_ne by lia.
      by apply lookup_app_l_Some. }
    assert (objects m2 !! length (objects m) = Some fs) as Hchild2.
    { rewrite Hobjs. apply list_lookup_insert_eq. by eapply lookup_lt_Some. }
    destruct (merge_Returns m2 this (length (objects m)) sm fs false
                (trees (worldStateDB m)) (checkpoints (worldStateDB m)))
      as (m3 & sm3 & Hmerge & Hthis3 & _ & _ & Hcache & _ & _ & Hmode3 & _ &
          Htrees & _);
      [done|done|lia|by rewrite Hflag
      |rewrite Hnull; by repeat constructor
      |rewrite Hnull; apply NoDup_singleton|by rewrite Hcp|].
    exists m3. split; [done|].
    apply (checkNullifierExists_pending _ _ sm3); [done|..].
    + unfold checkExistsHereOrParent. fold n. rewrite Hcache, Hnull. simpl.
      rewrite bool_decide_eq_true_2; [done|].
      apply elem_of_app. right. by apply list_elem_of_singleton.
    + rewrite Hmode3. intros Hm.
      change (doMerkleOperations child) with (doMerkleOperations sm) in Hworld.
      rewrite Hm in Hworld. destruct Hworld as [_ Hin].
      unfold inNullifierTree in *. by rewrite Htrees.
Qed.

(** X6: a nullifier written by a fork stays pending in the parent when the
    fork is rejected, since [_merge] takes the fork's pending nullifiers over
    before it looks at [reverted].  Without Merkle operations the parent then
    reports the nullifier as existing; with Merkle operations the reverted
    tree does not hold it, and the parent's check fails the agreement
    assertion. *)
Theorem rejected_nullifier_stays_pending m this sm contractAddress nullifier
    c m1 m2 :
  objects m !! this = Some sm →
  fork this m = (Returns c, m1) →
  writeNullifier c contractAddress nullifier m1 = (Returns tt, m2) →
  ∃ m3 sm3,
    reject this c m2 = (Returns tt, m3) ∧
    objects m3 !! this = Some sm3 ∧
    siloNullifier contractAddress nullifier ∈ nullifierCache (nullifiers sm3) ∧
    completion (checkNullifierExists this contractAddress nullifier) m3 =
      if doMerkleOperations sm
      then Throws (AssertionError NullifierTreeDisagreement)
      else Returns true.
Proof.
  intros Hthis. set (n := siloNullifier contractAddress nullifier).
  pose proof (lookup_lt_Some _ _ _ Hthis) as Hlt.
  rewrite (fork_Returns _ _ _ Hthis). intros [= <- <-] Hwrite.
  set (child := mkStateManager _ _ _ _ _ _ _) in Hwrite.
  set (m1 := mkMachine _ _) in Hwrite.
  assert (objects m1 !! length (objects m) = Some child) as Hchild
    by (by apply list_lookup_middle).
  destruct (writeSiloedNullifier_Returns _ _ _ _ _ Hchild Hwrite)
    as (fs & Hobjs & Hnull & _ & Hmode & Hflag & Hcp & Hworld).
  assert (objects m1 !! this = Some sm) as Hthis1
    by (by apply lookup_app_l_Some).
  pose proof (fork_write_new_to_parent _ _ _ _ _ _ Hthis1 Hchild eq_refl
                (writeSiloedNullifier_Returns_fresh _ _ _ _ _ Hchild Hwrite))
    as Hnew.
  assert (objects m2 !! this = Some sm) as Hthis2.
  { rewrite Hobjs. rewrite list_lookup_insert_ne by lia.
    by apply lookup_app_l_Some. }
  assert (objects m2 !! length (objects m) = Some fs) as Hchild2.
  { rewrite Hobjs. apply list_lookup_insert_eq. by eapply lookup_lt_Some. }
  destruct (merge_Returns m2 this (length (objects m)) sm fs true
              (trees (worldStateDB m)) (checkpoints (worldStateDB m)))
    as (m3 & sm3 & Hmerge & Hthis3 & _ & _ & Hcache & _ & _ & Hmode3 & _ &
        Htrees & _);
    [done|done|lia|by rewrite Hflag
    |rewrite Hnull; by repeat constructor
    |rewrite Hnull; apply NoDup_singleton|by rewrite Hcp|].
  assert (n ∈ nullifierCache (nullifiers sm3)) as Hin.
  { rewrite Hcache, Hnull. simpl. apply elem_of_app. right.
    by apply list_elem_of_singleton. }
  assert (checkExistsHereOrParent (objects m3) (nullifiers sm3) n = true)
    as Hpending.
  { unfold checkExistsHereOrParent. by rewrite bool_decide_eq_true_2. }
  exists m3, sm3. split; [done|]. split; [done|]. split; [done|].
  change (doMerkleOperations child) with (doMerkleOperations sm) in Hworld.
  destruct (doMerkleOperations sm) eqn:Hm.
  - destruct Hworld as [(i & Hlow) _]. simpl in Hlow.
    destruct (getPreviousValueIndex_Some _ _ _ _ Hlow) as (l & Hl & _).
    unfold completion.
    rewrite (checkNullifierExists_run _ _ _ _ _ Hthis3).
    rewrite (getNullifierMembership_run _ _ _ _ Hthis3).
    unfold n in *. rewrite Hmode3, Htrees, Hlow, Hl.
    unfold nullifierKnown. by rewrite Hpending.
  - apply (checkNullifierExists_pending _ _ sm3); [done|done|].
    rewrite Hmode3. done.
Qed.

(** ** Checkpoints around a fork *)

Lemma execute_preserves_Forall (Q : Call → Prop) P cs :
  (∀ c, Q c → preserves P (invoke c)) →
  Forall Q cs → ∀ m, P m → P (execute cs m).
Proof.
  intros Hinv Hcs. induction Hcs as [|c cs Hc _ IH]; intros m Hm; simpl; [done|].
  apply IH. by apply Hinv.
Qed.

Lemma sequentialInsert_checkpoints treeId key value cs :
  preserves (λ m, checkpoints (worldStateDB m) = cs)
    (db_sequentialInsert treeId key value).
Proof.
  intros m Hm. unfold db_sequentialInsert. run.
  by destruct (IndexedTree.sequentialInsert _ _ _ _) as [[res tr']|].
Qed.

(** Only [fork], [merge] and [reject] open or close a checkpoint. *)
Lemma invoke_checkpoints c cs :
  touchesCheckpoints c = false →
  preserves (λ m, checkpoints (worldStateDB m) = cs) (invoke c).
Proof.
  assert (on_world (λ m, checkpoints (worldStateDB m) = cs)) as Hworld
    by (by intros m objs Hm).
  destruct c; try done; intros _; unfold_methods;
    keeps ltac:(first
      [ apply preserves_updateObject_world, Hworld
      | apply preserves_newObject_world, Hworld
      | apply sequentialInsert_checkpoints ]).
Qed.

Lemma flagged_on_objects r b : on_objects (flagged r b).
Proof. by intros m w Hm. Qed.

Lemma preserves_flagged_updateObject r b r' f :
  (∀ sm, alreadyMergedIntoParent (f sm) = alreadyMergedIntoParent sm) →
  preserves (flagged r b) (updateObject r' f).
Proof.
  intros Hf m (sm & Hsm & Hflag). unfold updateObject.
  destruct (objects m !! r') as [sm'|] eqn:Hr'; simpl; [|by exists sm].
  destruct (decide (r = r')) as [->|Hne].
  - exists (f sm'). simpl. split; [by eapply lookup_updated|].
    rewrite Hf. congruence.
  - exists sm. simpl. by rewrite list_lookup_insert_ne.
Qed.

Lemma preserves_flagged_newObject r b sm : preserves (flagged r b) (newObject sm).
Proof.
  intros m (sm' & Hsm' & Hflag). exists sm'. split; [|done].
  simpl. by apply lookup_app_l_Some.
Qed.

(** No call other than [merge] and [reject] writes the merged flag of an
    object, and no call removes an object. *)
Lemma invoke_flagged r b c :
  touchesCheckpoints c = false → preserves (flagged r b) (invoke c).
Proof.
  destruct c; try done; intros _; unfold_methods; unfold db_sequentialInsert;
    keeps ltac:(first
      [ apply preserves_setWorld, flagged_on_objects
      | apply preserves_flagged_newObject
      | apply preserves_flagged_updateObject; by intros [] ]).
Qed.

(** *** What [append] keeps *)

Lemma nullifierKnown_false_own m sm siloedNullifier :
  nullifierKnown m sm siloedNullifier = false →
  siloedNullifier ∉ nullifierCache (nullifiers sm).
Proof. intros Hknown Hin. by rewrite (nullifierKnown_own _ _ _ Hin) in Hknown. Qed.

Lemma nullifierKnown_false_parent m (p : ref) psm sm siloedNullifier :
  nullifierKnown m sm siloedNullifier = false →
  objects m !! p = Some psm →
  p ∈ nullifierParents (nullifiers sm) →
  siloedNullifier ∉ nullifierCache (nullifiers psm).
Proof.
  intros Hknown Hp Hparent Hin.
  by rewrite (nullifierKnown_parent _ _ _ _ _ Hp Hin Hparent) in Hknown.
Qed.

(** A property of the store survives [append] when it survives the adding
    of a nullifier that did not exist. *)
Lemma preserves_nullifiers_append P this siloedNullifier :
  (∀ m sm, P m → objects m !! this = Some sm →
     nullifierKnown m sm siloedNullifier = false →
     P (mkMachine
          (<[this :=
               setNullifiers
                 (mkNullifierManager
                    (nullifierCache (nullifiers sm) ++ [siloedNullifier])
                    (nullifierParents (nullifiers sm))) sm]> (objects m))
          (worldStateDB m))) →
  preserves P (nullifiers_append this siloedNullifier).
Proof.
  intros HP m Hm. destruct (objects m !! this) as [sm|] eqn:Hthis.
  - rewrite (nullifiers_append_run _ _ _ _ Hthis).
    destruct (nullifierKnown m sm siloedNullifier) eqn:Hknown; [done|].
    by apply HP.
  - unfold nullifiers_append, nullifiers_checkExists.
    by rewrite (bind_Throws _ _ _ _ _ (dangling_throws _ _ _ Hthis)).
Qed.

Lemma pendingDistinct_on_objects r : on_objects (pendingDistinct r).
Proof. by intros m w Hm. Qed.

Lemma preserves_pendingDistinct_updateObject r r' f :
  (∀ x, nullifiers (f x) = nullifiers x) →
  preserves (pendingDistinct r) (updateObject r' f).
Proof.
  intros Hf m (sm & Hsm & Hnd). unfold updateObject.
  destruct (objects m !! r') as [sm'|] eqn:Hr'; simpl; [|by exists sm].
  destruct (decide (r = r')) as [->|Hne].
  - exists (f sm'). simpl. split; [by eapply lookup_updated|].
    rewrite Hf. congruence.
  - exists sm. simpl. by rewrite list_lookup_insert_ne.
Qed.

Lemma preserves_pendingDistinct_newObject r sm :
  preserves (pendingDistinct r) (newObject sm).
Proof.
  intros m (sm' & Hsm' & Hnd). exists sm'. split; [|done].
  simpl. by apply lookup_app_l_Some.
Qed.

Lemma append_pendingDistinct r this siloedNullifier :
  preserves (pendingDistinct r) (nullifiers_append this siloedNullifier).
Proof.
  apply preserves_nullifiers_append. intros m sm (x & Hx & Hnd) Hthis Hknown.
  destruct (decide (r = this)) as [->|Hne].
  - eexists. simpl. split; [by eapply lookup_updated|]. simpl.
    assert (x = sm) as -> by congruence.
    apply NoDup_app. split; [done|]. split; [|apply NoDup_singleton].
    intros y Hy Hy'. apply list_elem_of_singleton in Hy' as ->.
    by apply (nullifierKnown_false_own _ _ _ Hknown).
  - exists x. simpl. by rewrite list_lookup_insert_ne.
Qed.

(** The pending nullifiers of a state manager stay pairwise distinct as
    long as nothing is merged into it. *)
Lemma invoke_pendingDistinct r c :
  touchesCheckpoints c = false → preserves (pendingDistinct r) (invoke c).
Proof.
  destruct c; try done; intros _; unfold_calls; unfold db_sequentialInsert;
    keeps ltac:(first
      [ apply preserves_setWorld, pendingDistinct_on_objects
      | apply preserves_pendingDistinct_newObject
      | apply append_pendingDistinct
      | apply preserves_pendingDistinct_updateObject; by intros [] ]).
Qed.

Lemma forkNewTo_on_objects this c sm : on_objects (forkNewTo this c sm).
Proof. by intros m w Hm. Qed.

Lemma preserves_forkNewTo_updateObject this c sm r' f :
  this ≠ r' →
  (∀ x, nullifiers (f x) = nullifiers x) →
  preserves (forkNewTo this c sm) (updateObject r' f).
Proof.
  intros Hne Hf m (Hthis & fs & Hfs & Hparent & Hnd & Hnew). unfold updateObject.
  destruct (objects m !! r') as [sm'|] eqn:Hr'; simpl; [|by split; [|exists fs]].
  split; [simpl; by rewrite list_lookup_insert_ne|].
  destruct (decide (c = r')) as [->|Hne'].
  - exists (f sm'). simpl. split; [by eapply lookup_updated|].
    assert (fs = sm') as -> by congruence.
    unfold pendingNewTo in *. by rewrite Hf.
  - exists fs. simpl. by rewrite list_lookup_insert_ne.
Qed.

Lemma preserves_forkNewTo_newObject this c sm sm' :
  preserves (forkNewTo this c sm) (newObject sm').
Proof.
  intros m (Hthis & fs & Hfs & Hrest). split; [by apply lookup_app_l_Some|].
  exists fs. split; [|done]. simpl. by apply lookup_app_l_Some.
Qed.

Lemma append_forkNewTo this c sm r' siloedNullifier :
  this ≠ r' →
  preserves (forkNewTo this c sm) (nullifiers_append r' siloedNullifier).
Proof.
  intros Hne. apply preserves_nullifiers_append.
  intros m x (Hthis & fs & Hfs & Hparent & Hnd & Hnew) Hr' Hknown.
  split; [simpl; by rewrite list_lookup_insert_ne|].
  destruct (decide (c = r')) as [->|Hne'].
  - eexists. simpl. split; [by eapply lookup_updated|]. simpl.
    assert (fs = x) as -> by congruence.
    split; [done|]. split.
    + apply NoDup_app. split; [done|]. split; [|apply NoDup_singleton].
      intros y Hy Hy'. apply list_elem_of_singleton in Hy' as ->.
      by apply (nullifierKnown_false_own _ _ _ Hknown).
    + unfold pendingNewTo in *. simpl. apply Forall_app. split; [done|].
      repeat constructor.
      by apply (nullifierKnown_false_parent _ _ _ _ _ Hknown Hthis).
  - exists fs. simpl. by rewrite list_lookup_insert_ne.
Qed.

(** While no call is made on the parent and nothing is resolved, the
    pending nullifiers of a fork stay new to its parent: [append] looks for a
    nullifier along the whole chain of overlays before it adds it. *)
Lemma invoke_forkNewTo this c sm call :
  touchesCheckpoints call = false → receiver call ≠ Some this →
  preserves (forkNewTo this c sm) (invoke call).
Proof.
  destruct call; try done; intros _ Hrecv; simpl in Hrecv;
    try (match type of Hrecv with
         | Some ?t ≠ Some _ => assert (this ≠ t) as Hne by congruence
         end);
    unfold_calls; unfold db_sequentialInsert;
    keeps ltac:(first
      [ apply preserves_setWorld, forkNewTo_on_objects
      | apply preserves_forkNewTo_newObject
      | by apply append_forkNewTo
      | apply preserves_forkNewTo_updateObject; [done|by intros []] ]).
Qed.

(** A fresh fork holds no pending nullifier. *)
Lemma fork_forkNewTo m this sm :
  objects m !! this = Some sm →
  forkNewTo this (length (objects m)) sm (after (fork this) m).
Proof.
  intros Hthis. unfold after. rewrite (fork_Returns _ _ _ Hthis). simpl.
  split; [by apply lookup_app_l_Some|]. eexists.
  split; [by apply list_lookup_middle|]. simpl.
  split; [apply list_elem_of_here|]. split; constructor.
Qed.

(** *** What a resolution does to the database *)

(** The store [m'] has the database of [m] and every object of [m], with
    the pending nullifiers it had. *)
Lemma update_keeps_pending m (r : ref) f :
  (∀ x, nullifiers (f x) = nullifiers x) →
  is_Some (objects m !! r) →
  ∃ m', updateObject r f m = (Returns tt, m') ∧
        worldStateDB m' = worldStateDB m ∧
        ∀ (q : ref) x, objects m !! q = Some x →
          ∃ x', objects m' !! q = Some x' ∧ nullifiers x' = nullifiers x.
Proof.
  intros Hf [sm Hr]. rewrite (updateObject_Some _ _ _ _ Hr).
  eexists. split; [done|]. split; [done|]. intros q x Hq. simpl.
  destruct (decide (r = q)) as [->|Hne].
  - exists (f sm). rewrite (lookup_updated _ _ _ _ Hr). split; [done|].
    rewrite Hf. congruence.
  - exists x. by rewrite list_lookup_insert_ne.
Qed.

Lemma update_from_fork_keeps_pending m this child
    (F : AvmPersistableStateManager → AvmPersistableStateManager →
         AvmPersistableStateManager) :
  (∀ c x, nullifiers (F c x) = nullifiers x) →
  is_Some (objects m !! this) → is_Some (objects m !! child) →
  ∃ m', (c' <- getObject child ;; updateObject this (F c')) m = (Returns tt, m') ∧
        worldStateDB m' = worldStateDB m ∧
        ∀ (q : ref) x, objects m !! q = Some x →
          ∃ x', objects m' !! q = Some x' ∧ nullifiers x' = nullifiers x.
Proof.
  intros HF Hthis [c Hc].
  rewrite (bind_Returns _ _ _ _ _ (getObject_Some _ _ _ Hc)).
  by apply update_keeps_pending.
Qed.

(** How [_merge] completes on an unresolved state manager with a checkpoint
    open: it returns, with the innermost checkpoint closed, exactly when the
    pending nullifiers of its argument are pairwise distinct and new to the
    receiver; otherwise [acceptAndMerge] throws the collision error and the
    database is left as it was, checkpoint included. *)
Lemma merge_outcome m this child sm fs reverted s cs :
  objects m !! this = Some sm → objects m !! child = Some fs →
  alreadyMergedIntoParent fs = false →
  checkpoints (worldStateDB m) = s :: cs →
  (_merge this child reverted m).1 =
    (if bool_decide (pendingNewTo sm fs ∧ NoDup (nullifierCache (nullifiers fs)))
     then Returns tt else Throws NullifierCollisionError) ∧
  worldStateDB (_merge this child reverted m).2 =
    (if bool_decide (pendingNewTo sm fs ∧ NoDup (nullifierCache (nullifiers fs)))
     then if reverted then setCheckpoints cs (setTrees s (worldStateDB m))
          else setCheckpoints cs (worldStateDB m)
     else worldStateDB m).
Proof.
  intros Hthis Hchild Hflag Hcp.
  destruct (_merge this child reverted m) as [r m'] eqn:Hrun. simpl.
  revert Hrun. unfold _merge.
  rewrite (bind_Returns _ _ _ _ _ (getObject_Some _ _ _ Hchild)).
  rewrite Hflag. simpl. erewrite bind_Returns by reflexivity.
  destruct (update_keeps_pending m child (setAlreadyMerged true))
    as (ma & Hrun_a & Hwa & Hka); [by intros []|by eexists|].
  rewrite (bind_Returns _ _ _ _ _ Hrun_a).
  destruct (Hka this sm Hthis) as (smA & HthisA & HnA).
  destruct (Hka child fs Hchild) as (fsA & HchildA & HnfA).
  unfold publicStorage_acceptAndMerge.
  edestruct (update_from_fork_keeps_pending ma this child)
    as (mb & Hrun_b & Hwb & Hkb); [|by eexists|by eexists|]; cycle 1.
  { rewrite (bind_Returns _ _ _ _ _ Hrun_b).
    destruct (Hkb this smA HthisA) as (smB & HthisB & HnB).
    destruct (Hkb child fsA HchildA) as (fsB & HchildB & HnfB).
    unfold nullifiers_acceptAndMerge. unfold bind at 1.
    rewrite (bind_Returns _ _ _ _ _ (getObject_Some _ _ _ HchildB)).
    destruct (forEach_accept mb this smB (nullifierCache (nullifiers fsB)) HthisB)
      as (taken & _ & _ & Hrun_c).
    rewrite Hrun_c, HnB, HnA, HnfB, HnfA. fold (pendingNewTo sm fs).
    destruct (bool_decide (pendingNewTo sm fs ∧ _)); cycle 1.
    { intros [= <- <-]. simpl. split; [done|]. by rewrite Hwb, Hwa. }
    set (mc := mkMachine _ _).
    assert (∀ q : ref, is_Some (objects mb !! q) → is_Some (objects mc !! q))
      as Hkc.
    { intros q Hq. apply lookup_lt_is_Some. simpl. rewrite length_insert.
      by apply lookup_lt_is_Some. }
    unfold trace_merge.
    edestruct (update_from_fork_keeps_pending mc this child)
      as (md & Hrun_d & Hwd & Hkd);
      [|apply Hkc; by eexists|apply Hkc; by eexists|]; cycle 1.
    { rewrite (bind_Returns _ _ _ _ _ Hrun_d).
      assert (worldStateDB md = worldStateDB m) as Hw
        by (by rewrite Hwd; simpl; rewrite Hwb, Hwa).
      destruct (Hkc this ltac:(by eexists)) as [smC HthisC].
      destruct (Hkc child ltac:(by eexists)) as [fsC HchildC].
      destruct (Hkd this smC HthisC) as (smD & HthisD & _).
      destruct (Hkd child fsC HchildC) as (fsD & HchildD & _).
      destruct reverted.
      - unfold revertCheckpoint. run. rewrite Hw, Hcp. by intros [= <- <-].
      - unfold commitCheckpoint. run. rewrite Hw, Hcp. simpl.
        unfold getObject. cbn [objects]. rewrite HchildD.
        unfold updateObject. cbn [objects]. rewrite HthisD.
        by intros [= <- <-]. }
    by intros c []. }
  by intros c [].
Qed.

Lemma merge_resolves m this other fs reverted :
  objects m !! other = Some fs →
  alreadyMergedIntoParent fs = false →
  resolved other (after (_merge this other reverted) m).
Proof.
  intros Hother Hflag. unfold after, _merge.
  rewrite (bind_Returns _ _ _ _ _ (getObject_Some _ _ _ Hother)).
  rewrite Hflag. simpl. erewrite bind_Returns by reflexivity.
  erewrite bind_Returns by (by apply updateObject_Some).
  apply merge_rest_resolved. exists (setAlreadyMerged true fs).
  split; [by eapply lookup_updated|done].
Qed.

(** X7: the checkpoint a [fork] opens is closed by the [merge] or [reject]
    of that fork, unless the resolution collides.  After [fork], any calls
    that are not themselves [fork], [merge] or [reject], and then the
    resolution of the fork by its parent.  When the pending nullifiers of
    the fork are all new to the parent, the resolution returns, the stack of
    open checkpoints is what it was before the fork, and the trees of the
    database are those from before the fork when the fork is rejected and
    those the calls left when it is merged.  When the parent has one of them
    pending itself, the resolution throws [NullifierCollisionError]: the
    fork is marked resolved and its checkpoint stays open, with the trees as
    the calls left them.  The first is the case whenever none of the calls
    was made on the parent. *)
Theorem resolve_closes_checkpoint m this sm cs reverted :
  objects m !! this = Some sm →
  Forall (λ c, touchesCheckpoints c = false) cs →
  ∃ fs sm2,
    objects (execute cs (after (fork this) m)) !! length (objects m) = Some fs ∧
    objects (execute cs (after (fork this) m)) !! this = Some sm2 ∧
    (pendingNewTo sm2 fs →
     ∃ m3,
       _merge this (length (objects m)) reverted
         (execute cs (after (fork this) m)) = (Returns tt, m3) ∧
       checkpoints (worldStateDB m3) = checkpoints (worldStateDB m) ∧
       trees (worldStateDB m3) =
         if reverted then trees (worldStateDB m)
         else trees (worldStateDB (execute cs (after (fork this) m)))) ∧
    (¬ pendingNewTo sm2 fs →
     ∃ m3,
       _merge this (length (objects m)) reverted
         (execute cs (after (fork this) m)) = (Throws NullifierCollisionError, m3) ∧
       resolved (length (objects m)) m3 ∧
       checkpoints (worldStateDB m3) =
         trees (worldStateDB m) :: checkpoints (worldStateDB m) ∧
       trees (worldStateDB m3) =
         trees (worldStateDB (execute cs (after (fork this) m)))) ∧
    (Forall (λ c, receiver c ≠ Some this) cs → pendingNewTo sm2 fs).
Proof.
  intros Hthis Hcs.
  pose proof (lookup_lt_Some _ _ _ Hthis) as Hlt.
  pose proof (fork_forkNewTo _ _ _ Hthis) as Hfresh.
  set (m1 := after (fork this) m) in *.
  assert (checkpoints (worldStateDB (execute cs m1)) =
          trees (worldStateDB m) :: checkpoints (worldStateDB m)) as Hcp.
  { apply (execute_preserves_Forall _
             (λ m', checkpoints (worldStateDB m') =
                    trees (worldStateDB m) :: checkpoints (worldStateDB m)) _
             (λ c, invoke_checkpoints c _) Hcs).
    unfold m1, after. by rewrite (fork_Returns _ _ _ Hthis). }
  destruct (execute_preserves_Forall _ (flagged this (alreadyMergedIntoParent sm))
              _ (invoke_flagged _ _) Hcs m1) as (sm2 & Hthis2 & _).
  { exists sm. split; [|done]. by destruct Hfresh. }
  destruct (execute_preserves_Forall _ (flagged (length (objects m)) false)
              _ (invoke_flagged _ _) Hcs m1) as (fs & Hchild2 & Hflag).
  { unfold m1, after. rewrite (fork_Returns _ _ _ Hthis). simpl.
    eexists. split; [by apply list_lookup_middle|done]. }
  destruct (execute_preserves_Forall _ (pendingDistinct (length (objects m)))
              _ (invoke_pendingDistinct _) Hcs m1) as (fs' & Hchild2' & Hnd).
  { destruct Hfresh as (_ & fs0 & Hfs0 & _ & Hnd0 & _). by exists fs0. }
  assert (fs' = fs) as -> by congruence.
  destruct (merge_outcome _ this (length (objects m)) sm2 fs reverted _ _
              Hthis2 Hchild2 Hflag Hcp) as [Hcompletion Hworld].
  pose proof (merge_resolves (execute cs m1) this _ _ reverted Hchild2 Hflag)
    as Hresolved.
  unfold after in Hresolved.
  destruct (_merge this (length (objects m)) reverted (execute cs m1))
    as [r m3] eqn:Hrun.
  simpl in Hcompletion, Hworld, Hresolved.
  exists fs, sm2. split_and!; [done..| | |].
  - intros Hnew.
    rewrite bool_decide_eq_true_2 in Hcompletion, Hworld by done.
    subst r. exists m3. split; [done|]. rewrite Hworld. by destruct reverted.
  - intros Hold.
    rewrite bool_decide_eq_false_2 in Hcompletion, Hworld by (by intros [? _]).
    subst r. exists m3. split; [done|]. split; [done|]. by rewrite Hworld.
  - intros Hrecv.
    assert (Forall (λ c, touchesCheckpoints c = false ∧ receiver c ≠ Some this) cs)
      as Hboth.
    { apply Forall_forall. intros c Hc. rewrite Forall_forall in Hcs, Hrecv.
      split; [by apply Hcs|by apply Hrecv]. }
    destruct (execute_preserves_Forall _ (forkNewTo this (length (objects m)) sm) _
                (λ c Hc, invoke_forkNewTo this _ sm c (proj1 Hc) (proj2 Hc))
                Hboth m1 Hfresh) as (Hthis2' & fs' & Hfs' & _ & _ & Hnew).
    assert (fs' = fs) as -> by congruence.
    assert (sm2 = sm) as -> by congruence. done.
Qed.

(** ** What the reading calls leave alone *)

Lemma tracedOnly_refl this m : tracedOnly this m m.
Proof.
  split; [done|]. split; [done|]. intros r sm Hsm. exists sm.
  split; [done|]. split; [by destruct sm|]. done.
Qed.

Lemma tracedOnly_traceEvent this m0 e :
  preserves (tracedOnly this m0) (traceEvent this e).
Proof.
  intros m (Hworld & Hlen & Hobjs). unfold traceEvent, updateObject.
  destruct (objects m !! this) as [sm1|] eqn:Hthis; simpl; [|done].
  unfold tracedOnly. simpl.
  split; [done|]. split; [by rewrite length_insert|].
  intros r sm Hsm. destruct (Hobjs r sm Hsm) as (sm' & Hsm' & Heq & Hpre & Hother).
  destruct (decide (r = this)) as [->|Hne].
  - eexists. split; [by eapply lookup_updated|].
    assert (sm1 = sm') as -> by congruence. simpl.
    split; [by rewrite Heq|]. split; [|done].
    etrans; [exact Hpre|]. by apply prefix_app_r.
  - exists sm'. by rewrite list_lookup_insert_ne.
Qed.

(** X8: a reading call ([readStorage], [peekStorage], the three existence
    checks, [getContractInstance], [getBytecode]) changes nothing but the
    trace of the state manager it is made on, and that only by appending,
    whether the call returns or throws: the database with its trees and
    checkpoints, every cache, every merged flag and every other object are
    as before. *)
Theorem queries_only_trace c m :
  isQuery c = true →
  ∃ this, receiver c = Some this ∧ tracedOnly this m (after (invoke c) m).
Proof.
  assert (∀ this (k : Method unit),
            preserves (tracedOnly this m) k → tracedOnly this m (after k m))
    as Hrun by (intros this k Hk; apply Hk, tracedOnly_refl).
  destruct c; try done; intros _; (eexists; split; [reflexivity|]); apply Hrun;
    unfold invoke, readStorage, peekStorage, checkNoteHashExists,
      checkL1ToL2MessageExists, checkNullifierExists, getContractInstance,
      getBytecode, instanceAndMembership;
    unfold getNullifierMembership;
    unfold getLeafOrLowLeafInfo, db_getPreviousValueIndex, db_getLeafPreimage,
      db_getIndexedSiblingPath, db_getSiblingPath, db_getLeafValue;
    keeps ltac:(apply tracedOnly_traceEvent).
Qed.

(** ** Writing a slot the tree does not hold yet *)

(** X9: [writeStorage] with Merkle operations, over a well-formed public
    data tree that holds no leaf for the slot.  The write returns; the low
    leaf it traces is the leaf the tree held at the traced index before the
    write, and it skips the leaf slot; the new leaf it traces, which the
    code rebuilds from the low leaf, is the leaf the tree holds after the
    write at the next free index, and the low leaf now points at it; the
    written value is in the cache of the receiver. *)
Theorem writeStorage_new_slot m this sm contractAddress slot value protocolWrite :
  objects m !! this = Some sm →
  doMerkleOperations sm = true →
  wellFormed (publicDataTree (trees (worldStateDB m))) →
  notPersisted m (computePublicDataTreeLeafSlot contractAddress slot) →
  ∃ i low m1 sm1 path,
    writeStorage this contractAddress slot value protocolWrite m = (Returns tt, m1) ∧
    publicDataTree (trees (worldStateDB m)) !! i = Some low ∧
    IndexedTree.skips low (computePublicDataTreeLeafSlot contractAddress slot) = true ∧
    objects m1 !! this = Some sm1 ∧
    trace sm1 =
      Trace.record
        (PublicStorageWrite contractAddress slot value protocolWrite
           (Some (mkHint low (N.of_nat i)
                    (indexedTreePath (publicDataTree (trees (worldStateDB m))) i),
                  mkLeaf (computePublicDataTreeLeafSlot contractAddress slot) value
                    (nextKey low) (nextIndex low),
                  Some path)))
        (trace sm) ∧
    storageCache (publicStorage sm1) !! (contractAddress, slot) = Some value ∧
    publicDataTree (trees (worldStateDB m1))
      !! length (publicDataTree (trees (worldStateDB m))) =
      Some (mkLeaf (computePublicDataTreeLeafSlot contractAddress slot) value
              (nextKey low) (nextIndex low)) ∧
    publicDataTree (trees (worldStateDB m1)) !! i =
      Some (withNext low (computePublicDataTreeLeafSlot contractAddress slot)
              (length (publicDataTree (trees (worldStateDB m))))) ∧
    path = indexedTreePath (publicDataTree (trees (worldStateDB m1)))
             (length (publicDataTree (trees (worldStateDB m)))).
Proof.
  intros Hthis Hmode [Hlinked (l0 & Hl0 & Hzero)] Hnot.
  set (k := computePublicDataTreeLeafSlot contractAddress slot) in *.
  set (tr := publicDataTree (trees (worldStateDB m))) in *.
  destruct (getPreviousValueIndex_sentinel tr k _ Hl0 Hzero) as [[i b] Hlow].
  destruct (getPreviousValueIndex_Some _ _ _ _ Hlow) as (low & Hi & Hle & Hb & _).
  assert (b = false) as ->.
  { rewrite Hb. apply N.eqb_neq. by apply (Hnot i low). }
  pose proof (lookup_lt_Some _ _ _ Hi) as Hlt.
  exists i, low.
  unfold writeStorage, publicStorage_write.
  erewrite bind_Returns by (by apply (updateObject_Some _ _ sm)).
  cbv beta zeta. fold k.
  set (sm0 := setPublicStorage _ sm).
  assert (<[this:=sm0]> (objects m) !! this = Some sm0) as Hthis0
    by (by eapply lookup_updated).
  erewrite bind_Returns by (by apply getObject_Some).
  change (doMerkleOperations sm0) with (doMerkleOperations sm). rewrite Hmode.
  unfold db_sequentialInsert, IndexedTree.sequentialInsert. run. fold tr.
  rewrite Hlow, Hi. simpl.
  erewrite traceEvent_Some by exact Hthis0.
  eexists _, _, _. split; [done|]. simpl.
  split; [done|]. split; [by eapply linked_skips|].
  split; [by eapply lookup_updated|]. simpl.
  split; [done|]. split; [by apply lookup_insert_eq|].
  split; [|split; [|done]].
  - apply list_lookup_middle. by rewrite length_insert.
  - apply lookup_app_l_Some. by apply list_lookup_insert_eq.
Qed.

(** ** Writes and the other slots *)

Lemma peekStorage_run m this sm contractAddress slot :
  objects m !! this = Some sm →
  peekStorage this contractAddress slot m =
    (Returns (resolvedValue m sm contractAddress slot), m).
Proof.
  intros Hthis.
  destruct (publicStorage_read_Some m this sm contractAddress slot Hthis)
    as (v & cached & Hread & Hv).
  unfold peekStorage. rewrite (bind_Returns _ _ _ _ _ Hread).
  unfold resolvedValue, ret. simpl.
  destruct (readHereOrParent _ _ _).
  - by destruct Hv as [-> _].
  - destruct Hv as [Hv _]. rewrite storageRead_run in Hv. simpl in Hv.
    by injection Hv as <-.
Qed.

(** C9, as amended: [peekStorage] returns the cache-resolved value (the
    nearest cached value on the chain of overlays, else the persisted value,
    0 by default), which is the value [readStorage] returns, and it leaves
    the whole store, so the trace and the trees, as it was, in either mode.
    It looks up no witness and asserts nothing; but it does read the
    persistent public data tree, in either mode, when no overlay on the
    chain holds the slot: with a cached value the result is the same over
    any database, without one it is the value the tree holds for the leaf
    slot. *)
Theorem peekStorage_frame m this sm contractAddress slot :
  objects m !! this = Some sm →
  ∃ v, peekStorage this contractAddress slot m = (Returns v, m) ∧
       v = resolvedValue m sm contractAddress slot ∧
       match readHereOrParent (objects m) (publicStorage sm)
               (contractAddress, slot) with
       | Some cached =>
           v = cached ∧
           ∀ w, peekStorage this contractAddress slot (mkMachine (objects m) w) =
                  (Returns v, mkMachine (objects m) w)
       | None =>
           completion (storageRead contractAddress slot) m = Returns v ∧
           v = persistedValue (publicDataTree (trees (worldStateDB m)))
                 (computePublicDataTreeLeafSlot contractAddress slot)
       end ∧
       (∀ v', completion (readStorage this contractAddress slot) m = Returns v' →
              v' = v) ∧
       (doMerkleOperations sm = false →
        completion (readStorage this contractAddress slot) m = Returns v).
Proof.
  intros Hthis.
  pose proof (peekStorage_run _ _ _ contractAddress slot Hthis) as Hpeek.
  destruct (publicStorage_read_Some m this sm contractAddress slot Hthis)
    as (v & cached & Hread & Hv).
  assert (v = resolvedValue m sm contractAddress slot) as Hres.
  { revert Hpeek. unfold peekStorage. rewrite (bind_Returns _ _ _ _ _ Hread).
    unfold ret. simpl. congruence. }
  exists v. split_and!.
  - unfold peekStorage. by rewrite (bind_Returns _ _ _ _ _ Hread).
  - done.
  - unfold resolvedValue in Hres.
    destruct (readHereOrParent (objects m) (publicStorage sm)
                (contractAddress, slot)) as [c|] eqn:Hhit.
    + destruct Hv as [-> _]. split; [done|]. intros w.
      rewrite (peekStorage_run (mkMachine (objects m) w) this sm) by done.
      unfold resolvedValue. simpl. by rewrite Hhit.
    + by destruct Hv as [Hv _].
  - intros v' Hret.
    destruct (readStorage_Returns _ _ _ _ _ _ Hthis Hret) as (cached' & Hread').
    congruence.
  - intros Hmode.
    destruct (readStorage_plain _ _ _ contractAddress slot Hthis Hmode)
      as (v' & cached' & Hread' & Hrun).
    unfold completion. rewrite Hrun. simpl. congruence.
Qed.

(** An insertion for one key leaves the value held for any other key. *)
Lemma sequentialInsert_persisted_other pathOf updateWitnessOf (tr : IndexedTree.t) k v res tr' k' :
  IndexedTree.sequentialInsert pathOf updateWitnessOf tr k v = Some (res, tr') →
  k' ≠ k →
  persistedValue tr' k' = persistedValue tr k'.
Proof.
  intros Hins Hne.
  destruct (sequentialInsert_Some _ _ _ _ _ _ _ Hins)
    as (i & b & low & Hlow & Hi & _ & Hb).
  destruct (getPreviousValueIndex_Some _ _ _ _ Hlow)
    as (low' & Hi' & Hle & Hbeq & _).
  assert (low' = low) as -> by congruence.
  assert ((leafKey <$> tr) !! i = Some (leafKey low)) as Hki
    by (by rewrite list_lookup_fmap, Hi).
  unfold persistedValue. destruct b.
  - destruct Hb as [_ ->].
    symmetry in Hbeq. apply N.eqb_eq in Hbeq.
    rewrite (getPreviousValueIndex_keys (<[i:=withValue low v]> tr) tr); cycle 1.
    { rewrite list_fmap_insert. simpl. by apply list_insert_id. }
    destruct (IndexedTree.getPreviousValueIndex tr k') as [[i' [|]]|] eqn:Hlow';
      try done.
    destruct (getPreviousValueIndex_Some _ _ _ _ Hlow') as (l' & Hl' & _ & Hb' & _).
    symmetry in Hb'. apply N.eqb_eq in Hb'.
    rewrite list_lookup_insert_ne; [done|]. intros ->. congruence.
  - destruct Hb as [_ ->].
    unfold IndexedTree.getPreviousValueIndex.
    rewrite fmap_app, list_fmap_insert. simpl.
    rewrite (list_insert_id _ _ _ Hki), scanLow_snoc. cbv zeta.
    pose proof (scanLow_spec (leafKey <$> tr) k') as Hspec.
    destruct (IndexedTree.scanLow (leafKey <$> tr) 0 k' None) as [[i0 x0]|].
    + destruct Hspec as (Hx0 & _).
      rewrite list_lookup_fmap in Hx0.
      destruct (tr !! i0) as [l0|] eqn:Hl0; [|done]. injection Hx0 as <-.
      destruct ((k <=? k')%N && (leafKey l0 <? k)%N) eqn:Hcond.
      * apply andb_true_iff in Hcond as [Hk Hx]. apply N.leb_le in Hk.
        apply N.ltb_lt in Hx.
        rewrite (proj2 (N.eqb_neq k k')) by done.
        by rewrite (proj2 (N.eqb_neq (leafKey l0) k')) by lia.
      * destruct (leafKey l0 =? k')%N; [|done].
        destruct (decide (i0 = i)) as [->|Hi0].
        -- rewrite (lookup_app_l_Some _ _ _ (withNext low k (length tr))).
           ++ rewrite Hi in Hl0. by injection Hl0 as <-.
           ++ apply list_lookup_insert_eq. by eapply lookup_lt_Some.
        -- rewrite (lookup_app_l_Some _ _ _ l0); [done|].
           by rewrite list_lookup_insert_ne.
    + destruct ((k <=? k')%N && true); [|done].
      by rewrite (proj2 (N.eqb_neq k k')) by done.
Qed.

(** What [writeStorage] leaves behind however it completes: the value is in
    the cache of the receiver, no other object has changed, and the public
    data tree is as before or has taken the insertion. *)
Lemma writeStorage_after m this sm contractAddress slot value protocolWrite :
  objects m !! this = Some sm →
  ∃ sm1,
    objects (after (writeStorage this contractAddress slot value protocolWrite) m) =
      <[this := sm1]> (objects m) ∧
    publicStorage sm1 =
      mkPublicStorage
        (<[(contractAddress, slot) := value]> (storageCache (publicStorage sm)))
        (storageParents (publicStorage sm)) ∧
    nullifiers sm1 = nullifiers sm ∧
    doMerkleOperations sm1 = doMerkleOperations sm ∧
    alreadyMergedIntoParent sm1 = alreadyMergedIntoParent sm ∧
    (doMerkleOperations sm = false →
     worldStateDB (after (writeStorage this contractAddress slot value protocolWrite) m) =
       worldStateDB m) ∧
    (publicDataTree
       (trees (worldStateDB
                 (after (writeStorage this contractAddress slot value protocolWrite) m))) =
     publicDataTree (trees (worldStateDB m)) ∨
     ∃ res,
       IndexedTree.sequentialInsert indexedTreePath indexedTreeUpdateWitness
         (publicDataTree (trees (worldStateDB m)))
         (computePublicDataTreeLeafSlot contractAddress slot) value =
       Some (res,
             publicDataTree
               (trees (worldStateDB
                         (after (writeStorage this contractAddress slot value
                                   protocolWrite) m))))).
Proof.
  intros Hthis. unfold after, writeStorage.
  erewrite bind_Returns by (by apply (updateObject_Some _ _ sm)).
  cbv beta zeta.
  set (sm0 := setPublicStorage _ sm).
  assert (<[this:=sm0]> (objects m) !! this = Some sm0) as Hthis0
    by (by eapply lookup_updated).
  erewrite bind_Returns by (by apply getObject_Some).
  change (doMerkleOperations sm0) with (doMerkleOperations sm).
  destruct (doMerkleOperations sm) eqn:Hmode.
  - unfold db_sequentialInsert. run.
    destruct (IndexedTree.sequentialInsert _ _ _ _) as [[res tr']|] eqn:Hins;
      simpl; cycle 1.
    { exists sm0. split_and!; try done. by left. }
    destruct (sequentialInsert_Some _ _ _ _ _ _ _ Hins)
      as (i & b & low & _ & _ & Hlows & Hb).
    rewrite Hlows. simpl.
    destruct b; destruct Hb as [-> _]; simpl;
      (erewrite traceEvent_Some by exact Hthis0); simpl;
      (eexists; split; [by rewrite list_insert_insert_eq|]);
      split_and!; try done; right; by exists res.
  - erewrite traceEvent_Some by exact Hthis0. simpl.
    eexists. split; [by rewrite list_insert_insert_eq|].
    split_and!; try done. by left.
Qed.

Lemma readParents_frame (objs objs' : list AvmPersistableStateManager) ps key :
  (∀ p, p ∈ ps →
        objs' !! p ≫= (λ sm, storageCache (publicStorage sm) !! key) =
        objs !! p ≫= (λ sm, storageCache (publicStorage sm) !! key)) →
  readParents objs' ps key = readParents objs ps key.
Proof.
  induction ps as [|p ps IH]; intros Hsame; simpl; [done|].
  rewrite (Hsame p) by apply list_elem_of_here.
  rewrite IH; [done|]. intros q Hq. apply Hsame. by apply list_elem_of_further.
Qed.

(** X10: a [writeStorage], however it completes, leaves the value of every
    other slot as it was for every state manager of the store: [peekStorage]
    of a slot with a different leaf slot returns after the write what it
    returned before. *)
Theorem writeStorage_other_slot m this sm contractAddress slot value protocolWrite
    r smr contractAddress' slot' :
  objects m !! this = Some sm →
  objects m !! r = Some smr →
  computePublicDataTreeLeafSlot contractAddress' slot' ≠
    computePublicDataTreeLeafSlot contractAddress slot →
  completion (peekStorage r contractAddress' slot')
    (after (writeStorage this contractAddress slot value protocolWrite) m) =
  completion (peekStorage r contractAddress' slot') m.
Proof.
  intros Hthis Hr Hslots.
  assert ((contractAddress, slot) ≠ (contractAddress', slot')) as Hkeys
    by (intros [= -> ->]; done).
  destruct (writeStorage_after m this sm contractAddress slot value protocolWrite
              Hthis) as (sm1 & Hobjs & Hps & _ & _ & _ & _ & Htree).
  set (m1 := after _ m) in *.
  pose proof (lookup_lt_Some _ _ _ Hthis) as Hlt.
  assert (∀ p : ref, objects m1 !! p ≫=
                 (λ sm, storageCache (publicStorage sm) !! (contractAddress', slot')) =
               objects m !! p ≫=
                 (λ sm, storageCache (publicStorage sm) !! (contractAddress', slot')))
    as Hcaches.
  { intros p. rewrite Hobjs. destruct (decide (p = this)) as [->|Hp].
    - rewrite list_lookup_insert_eq by done. rewrite Hthis. simpl.
      rewrite Hps. simpl. by apply lookup_insert_ne.
    - by rewrite list_lookup_insert_ne. }
  assert (∃ smr', objects m1 !! r = Some smr' ∧
            storageCache (publicStorage smr') !! (contractAddress', slot') =
              storageCache (publicStorage smr) !! (contractAddress', slot') ∧
            storageParents (publicStorage smr') = storageParents (publicStorage smr))
    as (smr' & Hr' & Hown & Hparents).
  { rewrite Hobjs. destruct (decide (r = this)) as [->|Hne].
    - exists sm1. rewrite list_lookup_insert_eq by done.
      assert (smr = sm) as -> by congruence.
      rewrite Hps. simpl. split; [done|]. split; [|done].
      by apply lookup_insert_ne.
    - exists smr. by rewrite list_lookup_insert_ne. }
  unfold completion.
  rewrite (peekStorage_run _ _ _ _ _ Hr'), (peekStorage_run _ _ _ _ _ Hr). simpl.
  f_equal. unfold resolvedValue, readHereOrParent.
  rewrite Hown, Hparents.
  rewrite (readParents_frame (objects m) (objects m1)) by (intros p _; apply Hcaches).
  destruct (storageCache (publicStorage smr) !! _); [done|].
  destruct (readParents _ _ _); [done|].
  destruct Htree as [->|(res & Hins)]; [done|].
  by apply (sequentialInsert_persisted_other _ _ _ _ _ _ _ _ Hins).
Qed.

(** ** Reading through to the parent *)

(** A read of a slot some overlay of the chain holds returns the nearest
    cached value; with Merkle operations the leaf has to be in the public
    data tree with that value. *)
Lemma readStorage_overlay m this sm contractAddress slot v :
  objects m !! this = Some sm →
  readHereOrParent (objects m) (publicStorage sm) (contractAddress, slot) = Some v →
  (doMerkleOperations sm = true →
   ∃ i l,
     IndexedTree.getPreviousValueIndex (publicDataTree (trees (worldStateDB m)))
       (computePublicDataTreeLeafSlot contractAddress slot) = Some (i, true) ∧
     publicDataTree (trees (worldStateDB m)) !! i = Some l ∧ leafValue l = v) →
  completion (readStorage this contractAddress slot) m = Returns v.
Proof.
  intros Hthis Hcache Htree.
  destruct (publicStorage_read_Some m this sm contractAddress slot Hthis)
    as (v0 & cached & Hread & Hv0).
  rewrite Hcache in Hv0. destruct Hv0 as [-> ->].
  destruct (doMerkleOperations sm) eqn:Hmode.
  - destruct (Htree eq_refl) as (i & l & Hlow & Hl & Hval).
    unfold completion, readStorage.
    rewrite (bind_Returns _ _ _ _ _ Hread).
    rewrite (bind_Returns _ _ _ _ _ (getObject_Some _ _ _ Hthis)).
    rewrite Hmode.
    unfold getLeafOrLowLeafInfo, db_getPreviousValueIndex, db_getLeafPreimage,
      db_getIndexedSiblingPath, IndexedTree.getLeafPreimage.
    run. rewrite Hlow. simpl. rewrite Hl. simpl. rewrite Hval, N.eqb_refl. simpl.
    by rewrite (traceEvent_Some _ _ _ _ Hthis).
  - destruct (readStorage_plain _ _ _ contractAddress slot Hthis Hmode)
      as (v' & cached' & Hread' & Hrun).
    unfold completion. rewrite Hrun. simpl. congruence.
Qed.

(** X11: a fork reads what its parent wrote before the fork was made: after
    a [writeStorage] that returns and a [fork] of the writer, both
    [readStorage] and [peekStorage] of the slot in the fork return the
    written value, with and without Merkle operations. *)
Theorem fork_reads_parent_write m this sm contractAddress slot value protocolWrite
    m1 c m2 :
  objects m !! this = Some sm →
  writeStorage this contractAddress slot value protocolWrite m = (Returns tt, m1) →
  fork this m1 = (Returns c, m2) →
  completion (readStorage c contractAddress slot) m2 = Returns value ∧
  completion (peekStorage c contractAddress slot) m2 = Returns value.
Proof.
  intros Hthis Hwrite.
  destruct (writeStorage_Returns _ _ _ _ _ _ _ _ Hthis Hwrite)
    as (sm1 & Hsm1 & Hps & Hmode & _ & _ & _ & _ & _ & Hworld).
  rewrite (fork_Returns _ _ _ Hsm1). intros [= <- <-].
  set (child := mkStateManager _ _ _ _ _ _ _).
  set (m2 := mkMachine _ _).
  assert (objects m2 !! length (objects m1) = Some child) as Hchild
    by (by apply list_lookup_middle).
  assert (readHereOrParent (objects m2) (publicStorage child)
            (contractAddress, slot) = Some value) as Hread.
  { unfold readHereOrParent. simpl.
    rewrite lookup_empty, (lookup_app_l_Some _ _ _ _ Hsm1). simpl.
    rewrite Hps. simpl. by rewrite lookup_insert_eq. }
  split.
  - apply (readStorage_overlay _ _ child); [done|done|].
    change (doMerkleOperations child) with (doMerkleOperations sm1).
    rewrite Hmode. intros Hm. rewrite Hm in Hworld.
    destruct Hworld as (res & Hins).
    destruct (sequentialInsert_lookup _ _ _ _ _ _ _ Hins) as (i & l & ? & ? & ? & _).
    by exists i, l.
  - unfold completion. rewrite (peekStorage_run _ _ _ _ _ Hchild). simpl.
    unfold resolvedValue. by rewrite Hread.
Qed.

(** ** The chain of overlays *)

Lemma wellChained_on_objects : on_objects wellChained.
Proof. by intros m w Hm. Qed.

Lemma preserves_wellChained_updateObject r f :
  (∀ sm, storageParents (publicStorage (f sm)) = storageParents (publicStorage sm) ∧
         nullifierParents (nullifiers (f sm)) = nullifierParents (nullifiers sm)) →
  preserves wellChained (updateObject r f).
Proof.
  intros Hf m Hm. unfold updateObject.
  destruct (objects m !! r) as [sm|] eqn:Hr; simpl; [|done].
  intros r' sm'. simpl. destruct (decide (r' = r)) as [->|Hne].
  - rewrite (lookup_updated _ _ _ _ Hr). intros [= <-].
    destruct (Hf sm) as [-> ->]. by apply Hm.
  - rewrite list_lookup_insert_ne by done. apply Hm.
Qed.

Lemma preserves_wellChained_newObject sm :
  storageParents (publicStorage sm) = [] →
  nullifierParents (nullifiers sm) = [] →
  preserves wellChained (newObject sm).
Proof.
  intros Hs Hn m Hm r sm'. simpl. intros Hr.
  apply lookup_app_Some in Hr as [Hr|[_ Hr]]; [by apply Hm|].
  apply list_lookup_singleton_Some in Hr as [_ <-]. by rewrite Hs, Hn.
Qed.

Lemma fork_wellChained this : preserves wellChained (fork this).
Proof.
  intros m Hm. destruct (objects m !! this) as [sm|] eqn:Hthis.
  - rewrite (fork_Returns _ _ _ Hthis). simpl. intros r sm'. simpl. intros Hr.
    apply lookup_app_Some in Hr as [Hr|[Hge Hr]]; [by apply Hm|].
    apply list_lookup_singleton_Some in Hr as [Hr <-]. simpl.
    pose proof (lookup_lt_Some _ _ _ Hthis) as Hlt.
    assert (r = length (objects m)) as -> by lia.
    destruct (Hm this sm Hthis) as [Hs Hn].
    split; (constructor; [done|]); eapply Forall_impl; try eassumption;
      simpl; intros; lia.
  - unfold fork, createCheckpoint, getObject. run. by rewrite Hthis.
Qed.

(** Every call keeps the chains of parents pointing at earlier objects. *)
Lemma invoke_wellChained c : preserves wellChained (invoke c).
Proof.
  destruct c;
    try (unfold invoke; apply preserves_bind;
         [apply fork_wellChained|intros ?; apply preserves_ret]);
    unfold_methods; unfold createCheckpoint, commitCheckpoint, revertCheckpoint,
      db_sequentialInsert;
    keeps ltac:(first
      [ apply preserves_setWorld, wellChained_on_objects
      | by apply preserves_wellChained_newObject
      | apply preserves_wellChained_updateObject; by intros [] ]).
Qed.

(** X12: in every store the calls of the state manager build from an empty
    one, the chains of parents of the overlays name objects created earlier
    than the object they belong to: no chain runs in a circle, no overlay is
    its own ancestor, and no parent link dangles. *)
Theorem execute_wellChained w cs : wellChained (execute cs (mkMachine [] w)).
Proof.
  apply execute_preserves; [apply invoke_wellChained|]. by intros r sm.
Qed.

(** X13: without Merkle operations a fork's write stays in the fork until
    the fork is resolved: for every state manager that was there before the
    fork, [peekStorage] of any slot returns after the fork's [writeStorage],
    however that completes, what it returned before the fork. *)
Theorem fork_write_hidden m this sm c m1 contractAddress slot value protocolWrite
    r smr contractAddress' slot' :
  wellChained m →
  objects m !! this = Some sm →
  doMerkleOperations sm = false →
  fork this m = (Returns c, m1) →
  objects m !! r = Some smr →
  completion (peekStorage r contractAddress' slot')
    (after (writeStorage c contractAddress slot value protocolWrite) m1) =
  completion (peekStorage r contractAddress' slot') m.
Proof.
  intros Hchained Hthis Hmode. rewrite (fork_Returns _ _ _ Hthis).
  intros [= <- <-] Hr.
  set (child := mkStateManager _ _ _ _ _ _ _).
  set (m1 := mkMachine _ _).
  assert (objects m1 !! length (objects m) = Some child) as Hchild
    by (by apply list_lookup_middle).
  destruct (writeStorage_after m1 _ child contractAddress slot value protocolWrite
              Hchild) as (sm1 & Hobjs & _ & _ & _ & _ & Hworld & _).
  specialize (Hworld Hmode).
  set (m2 := after _ m1) in *.
  pose proof (lookup_lt_Some _ _ _ Hr) as Hlt.
  assert (∀ p : ref, p < length (objects m) → objects m2 !! p = objects m !! p)
    as Hsame.
  { intros p Hp. rewrite Hobjs. rewrite list_lookup_insert_ne by lia.
    simpl. by apply lookup_app_l. }
  assert (objects m2 !! r = Some smr) as Hr2 by (by rewrite Hsame).
  unfold completion.
  rewrite (peekStorage_run _ _ _ _ _ Hr2), (peekStorage_run _ _ _ _ _ Hr). simpl.
  f_equal. unfold resolvedValue, readHereOrParent.
  rewrite (readParents_frame (objects m) (objects m2)); cycle 1.
  { intros p Hp. rewrite Hsame; [done|].
    destruct (Hchained r smr Hr) as [Hs _].
    rewrite Forall_forall in Hs. specialize (Hs p Hp). lia. }
  by rewrite Hworld.
Qed.

(** X14: with Merkle operations a fork's write goes to the public data tree
    all state managers share, before the fork is resolved: a state manager
    that was there before the fork and has no cached value for the slot on
    its chain of overlays gets the fork's value from [peekStorage] as soon
    as the fork's [writeStorage] has returned. *)
Theorem fork_write_shared_tree m this sm c m1 contractAddress slot value
    protocolWrite m2 r smr :
  wellChained m →
  objects m !! this = Some sm →
  doMerkleOperations sm = true →
  fork this m = (Returns c, m1) →
  writeStorage c contractAddress slot value protocolWrite m1 = (Returns tt, m2) →
  objects m !! r = Some smr →
  neverWritten m smr (contractAddress, slot) →
  completion (peekStorage r contractAddress slot) m2 = Returns value.
Proof.
  intros Hchained Hthis Hmode. rewrite (fork_Returns _ _ _ Hthis).
  intros [= <- <-] Hwrite Hr Hnever.
  set (child := mkStateManager _ _ _ _ _ _ _) in Hwrite.
  set (m1 := mkMachine _ _) in Hwrite.
  assert (objects m1 !! length (objects m) = Some child) as Hchild
    by (by apply list_lookup_middle).
  destruct (writeStorage_Returns _ _ _ _ _ _ _ _ Hchild Hwrite)
    as (sm1 & _ & _ & _ & _ & _ & _ & Hothers & _ & Hworld).
  change (doMerkleOperations child) with (doMerkleOperations sm) in Hworld.
  rewrite Hmode in Hworld. destruct Hworld as (res & Hins).
  pose proof (lookup_lt_Some _ _ _ Hr) as Hlt.
  assert (∀ p : ref, p < length (objects m) → objects m2 !! p = objects m !! p)
    as Hsame.
  { intros p Hp. rewrite Hothers by lia. simpl. by apply lookup_app_l. }
  assert (objects m2 !! r = Some smr) as Hr2 by (by rewrite Hsame).
  unfold completion. rewrite (peekStorage_run _ _ _ _ _ Hr2). simpl.
  f_equal. unfold resolvedValue, readHereOrParent.
  rewrite (readParents_frame (objects m) (objects m2)); cycle 1.
  { intros p Hp. rewrite Hsame; [done|].
    destruct (Hchained r smr Hr) as [Hs _].
    rewrite Forall_forall in Hs. specialize (Hs p Hp). lia. }
  pose proof (neverWritten_miss _ _ _ Hnever) as Hmiss.
  unfold readHereOrParent in Hmiss. rewrite Hmiss.
  destruct (sequentialInsert_lookup _ _ _ _ _ _ _ Hins) as (i & l & Hlow & Hl & Hv & _).
  unfold persistedValue. by rewrite Hlow, Hl.
Qed.

(** ** Nullifiers from private execution, with Merkle operations *)

Lemma findLeafIndex_is_Some (tr : IndexedTree.t) (k : Fr) :
  is_Some (IndexedTree.findLeafIndex tr k) ↔ k ∈ leafKey <$> tr.
Proof.
  split.
  - intros [j Hj]. destruct (findLeafIndex_Some _ _ _ Hj) as (l & Hl & <-).
    apply list_elem_of_fmap. exists l. split; [done|].
    by eapply list_elem_of_lookup_2.
  - intros Hin. apply list_elem_of_fmap in Hin as (l & -> & Hl).
    apply list_elem_of_lookup_1 in Hl as (j & Hj).
    destruct (IndexedTree.findLeafIndex tr (leafKey l)) as [j'|] eqn:Hfind;
      [done|].
    by destruct (findLeafIndex_None _ _ Hfind j l Hj).
Qed.

Lemma sequentialInsert_keys pathOf updateWitnessOf (tr : IndexedTree.t) k v res tr' x :
  IndexedTree.sequentialInsert pathOf updateWitnessOf tr k v = Some (res, tr') →
  x ∈ leafKey <$> tr' ↔ x ∈ leafKey <$> tr ∨ x = k.
Proof.
  intros Hins.
  destruct (sequentialInsert_Some _ _ _ _ _ _ _ Hins)
    as (i & b & low & Hlow & Hi & _ & Hb).
  destruct (getPreviousValueIndex_Some _ _ _ _ Hlow)
    as (low' & Hi' & _ & Hbeq & _).
  assert (low' = low) as -> by congruence.
  assert ((leafKey <$> tr) !! i = Some (leafKey low)) as Hki
    by (by rewrite list_lookup_fmap, Hi).
  destruct b.
  - destruct Hb as [_ ->]. symmetry in Hbeq. apply N.eqb_eq in Hbeq.
    rewrite list_fmap_insert. simpl. rewrite (list_insert_id _ _ _ Hki).
    split; [by left|]. intros [Hx| ->]; [done|].
    rewrite <- Hbeq. by eapply list_elem_of_lookup_2.
  - destruct Hb as [_ ->].
    rewrite fmap_app, list_fmap_insert. simpl. rewrite (list_insert_id _ _ _ Hki).
    rewrite elem_of_app, list_elem_of_singleton. done.
Qed.

Lemma writeSiloedNullifier_tree m this sm siloedNullifier m1 :
  objects m !! this = Some sm →
  doMerkleOperations sm = true →
  writeSiloedNullifier this siloedNullifier m = (Returns tt, m1) →
  ∃ res,
    IndexedTree.sequentialInsert indexedTreePath indexedTreeUpdateWitness
      (nullifierTree (trees (worldStateDB m))) siloedNullifier 0%N =
    Some (res, nullifierTree (trees (worldStateDB m1))).
Proof.
  intros Hthis Hmode. rewrite (writeSiloedNullifier_run _ _ _ _ Hthis), Hmode.
  unfold IndexedTree.sequentialInsert.
  destruct (IndexedTree.getPreviousValueIndex _ _) as [[i b]|] eqn:Hlow; [|done].
  destruct (_ !! i) as [l|] eqn:Hl; [|done].
  destruct b; [done|].
  destruct (nullifierKnown m sm siloedNullifier); [done|].
  intros [= <-]. by eexists.
Qed.

(** When the Append Set Cache reports a nullifier: it is pending in the
    state manager itself or in an overlay up its chain, or the persistent
    tree holds it. *)
Lemma nullifierKnown_true m sm n :
  nullifierKnown m sm n = true ↔
  n ∈ nullifierCache (nullifiers sm) ∨
  (∃ (p : ref) psm, p ∈ nullifierParents (nullifiers sm) ∧
                    objects m !! p = Some psm ∧
                    n ∈ nullifierCache (nullifiers psm)) ∨
  inNullifierTree m n = true.
Proof.
  unfold nullifierKnown, checkExistsHereOrParent, inNullifierTree.
  rewrite !orb_true_iff, bool_decide_eq_true, existsb_exists.
  split.
  - intros [[Hown|(p & Hp & Hpending)]|Htree]; [by left| |by right; right].
    right. left. unfold pendingIn in Hpending.
    destruct (objects m !! p) as [psm|] eqn:Hpsm; [|done].
    exists p, psm. split; [by apply list_elem_of_In|]. split; [done|].
    by apply bool_decide_eq_true in Hpending.
  - intros [Hown|[(p & psm & Hp & Hpsm & Hin)|Htree]];
      [by left; left| |by right].
    left. right. exists p. split; [by apply list_elem_of_In|].
    unfold pendingIn. rewrite Hpsm. by apply bool_decide_eq_true.
Qed.

(** One write of a nullifier, without Merkle operations or over a
    well-formed tree: it collides if the nullifier exists already, and
    otherwise returns, after which exactly that nullifier exists in
    addition. *)
Lemma writeSiloedNullifier_step m this sm siloedNullifier :
  objects m !! this = Some sm →
  doMerkleOperations sm = false ∨
  wellFormed (nullifierTree (trees (worldStateDB m))) →
  if nullifierKnown m sm siloedNullifier then
    ∃ m1, writeSiloedNullifier this siloedNullifier m =
            (Throws NullifierCollisionError, m1)
  else
    ∃ m1 sm1,
      writeSiloedNullifier this siloedNullifier m = (Returns tt, m1) ∧
      objects m1 !! this = Some sm1 ∧
      (doMerkleOperations sm1 = false ∨
       wellFormed (nullifierTree (trees (worldStateDB m1)))) ∧
      ∀ x, nullifierKnown m1 sm1 x =
           nullifierKnown m sm x || (x =? siloedNullifier)%N.
Proof.
  intros Hthis Hok.
  destruct (nullifierKnown m sm siloedNullifier) eqn:Hknown.
  { destruct (writeSiloedNullifier_known _ _ _ _ Hthis Hok Hknown) as [Hthrow _].
    unfold completion in Hthrow.
    destruct (writeSiloedNullifier this siloedNullifier m) as [r m1].
    simpl in Hthrow. subst r. by eexists. }
  destruct (writeSiloedNullifier_fresh _ _ _ _ Hthis Hok Hknown)
    as (m1 & witness & Hrun & Hobjs & _ & _ & Hworld).
  set (sm1 := setTrace _ _) in Hobjs.
  assert (objects m1 !! this = Some sm1) as Hthis1.
  { rewrite Hobjs. by eapply lookup_updated. }
  assert (∀ x, inNullifierTree m1 x = true ↔
               inNullifierTree m x = true ∨
               (doMerkleOperations sm = true ∧ x = siloedNullifier)) as Htree.
  { intros x. destruct (doMerkleOperations sm) eqn:Hmode.
    - destruct (writeSiloedNullifier_tree _ _ _ _ _ Hthis Hmode Hrun)
        as (res & Hins).
      unfold inNullifierTree.
      rewrite !bool_decide_eq_true, !findLeafIndex_is_Some.
      apply sequentialInsert_keys with (x := x) in Hins. rewrite Hins.
      split; [intros [?|?]; [by left|by right]|intros [?|[_ ?]]; [by left|by right]].
    - unfold inNullifierTree. rewrite Hworld. split; [by left|].
      by intros [?|[? _]]. }
  exists m1, sm1. split_and!; [done..| |].
  - change (doMerkleOperations sm1) with (doMerkleOperations sm).
    destruct (doMerkleOperations sm); [right; by destruct Hworld|by left].
  - intros x. apply eq_true_iff_eq.
    rewrite orb_true_iff, N.eqb_eq, !nullifierKnown_true, Htree. simpl.
    rewrite elem_of_app, list_elem_of_singleton. split.
    + intros [[Hown| ->]|[(p & psm & Hp & Hpsm & Hin)|[Ht|[_ ->]]]];
        [by left; left|by right| |by left; right; right|by right].
      rewrite Hobjs in Hpsm. destruct (decide (p = this)) as [->|Hne].
      * rewrite (lookup_updated _ _ _ _ Hthis) in Hpsm. injection Hpsm as <-.
        simpl in Hin. apply elem_of_app in Hin as [Hin|Hin].
        -- by left; left.
        -- right. by apply list_elem_of_singleton in Hin.
      * rewrite list_lookup_insert_ne in Hpsm by done.
        left. right. left. by exists p, psm.
    + intros [[Hown|[(p & psm & Hp & Hpsm & Hin)|Ht]]| ->];
        [by left; left| |by right; right; left|by left; right].
      destruct (decide (p = this)) as [->|Hne].
      * assert (psm = sm) as -> by congruence. by left; left.
      * right. left. exists p, psm. split; [done|]. split; [|done].
        rewrite Hobjs. by rewrite list_lookup_insert_ne.
Qed.

Lemma forEach_nullifiers this ns :
  ∀ m sm,
    objects m !! this = Some sm →
    doMerkleOperations sm = false ∨
    wellFormed (nullifierTree (trees (worldStateDB m))) →
    (NoDup ns ∧ Forall (λ n, nullifierKnown m sm n = false) ns →
     completion (forEach ns (λ n, writeSiloedNullifier this n)) m = Returns tt) ∧
    (¬ (NoDup ns ∧ Forall (λ n, nullifierKnown m sm n = false) ns) →
     completion (forEach ns (λ n, writeSiloedNullifier this n)) m =
       Throws NullifierCollisionError).
Proof.
  induction ns as [|n ns IH]; intros m sm Hthis Hok.
  - split; [done|]. intros Hnot. destruct Hnot. split; constructor.
  - pose proof (writeSiloedNullifier_step m this sm n Hthis Hok) as Hstep.
    simpl. destruct (nullifierKnown m sm n) eqn:Hn.
    + destruct Hstep as (m1 & Hrun). split.
      * intros [_ Hall]. inversion Hall; congruence.
      * intros _. unfold completion. by rewrite (bind_Throws _ _ _ _ _ Hrun).
    + destruct Hstep as (m1 & sm1 & Hrun & Hthis1 & Hok1 & Hknown).
      destruct (IH m1 sm1 Hthis1 Hok1) as [IHret IHthrow].
      unfold completion in *. rewrite (bind_Returns _ _ _ _ _ Hrun).
      split.
      * intros [Hnodup Hall]. apply IHret.
        apply NoDup_cons in Hnodup as [Hnotin Hnodup].
        apply Forall_cons in Hall as [_ Hall].
        split; [done|]. rewrite Forall_forall in Hall. apply Forall_forall.
        intros x Hx. rewrite Hknown, (Hall x Hx). simpl.
        apply N.eqb_neq. by intros ->.
      * intros Hnot. apply IHthrow. intros [Hnodup Hall]. apply Hnot.
        rewrite Forall_forall in Hall.
        assert (∀ x, x ∈ ns → nullifierKnown m sm x = false ∧ x ≠ n) as Hall'.
        { intros x Hx. specialize (Hall x Hx). rewrite Hknown in Hall.
          apply orb_false_iff in Hall as [? Hne]. split; [done|].
          by apply N.eqb_neq. }
        split.
        -- apply NoDup_cons. split; [|done]. intros Hin.
           by destruct (Hall' n Hin).
        -- apply Forall_cons. split; [done|]. apply Forall_forall.
           intros x Hx. by destruct (Hall' x Hx).
Qed.

(** X16: [writeSiloedNullifiersFromPrivate], without Merkle operations or
    over a well-formed nullifier tree, returns exactly when the non-empty
    nullifiers of the list are pairwise distinct and none of them exists
    already, pending on the chain of overlays of the receiver or held by the
    tree; in every other case it throws [NullifierCollisionError], at the
    first nullifier that exists by then. *)
Theorem fromPrivate_returns_iff m this sm siloedNullifiers :
  objects m !! this = Some sm →
  doMerkleOperations sm = false ∨
  wellFormed (nullifierTree (trees (worldStateDB m))) →
  (NoDup (filter (λ n, negb (isEmpty n)) siloedNullifiers) ∧
   Forall (λ n, nullifierKnown m sm n = false)
     (filter (λ n, negb (isEmpty n)) siloedNullifiers) →
   completion (writeSiloedNullifiersFromPrivate this siloedNullifiers) m =
     Returns tt) ∧
  (¬ (NoDup (filter (λ n, negb (isEmpty n)) siloedNullifiers) ∧
      Forall (λ n, nullifierKnown m sm n = false)
        (filter (λ n, negb (isEmpty n)) siloedNullifiers)) →
   completion (writeSiloedNullifiersFromPrivate this siloedNullifiers) m =
     Throws NullifierCollisionError).
Proof.
  intros Hthis Hok. unfold writeSiloedNullifiersFromPrivate.
  by apply (forEach_nullifiers this _ m sm).
Qed.

(** ** The trace of a resolved fork *)

Lemma preserves_at_updateObject (r : ref) sm r' f :
  r ≠ r' → preserves (λ m, objects m !! r = Some sm) (updateObject r' f).
Proof.
  intros Hne m Hm. unfold updateObject.
  destruct (objects m !! r') as [sm'|]; simpl; [|done].
  by rewrite list_lookup_insert_ne.
Qed.

Lemma preserves_at_newObject (r : ref) sm sm' :
  preserves (λ m, objects m !! r = Some sm) (newObject sm').
Proof. intros m Hm. simpl. by apply lookup_app_l_Some. Qed.

(** A call that is made on another state manager and is not a resolution
    leaves an object as it is. *)
Lemma invoke_other (r : ref) sm c :
  touchesCheckpoints c = false → receiver c ≠ Some r →
  preserves (λ m, objects m !! r = Some sm) (invoke c).
Proof.
  assert (on_objects (λ m, objects m !! r = Some sm)) as Hobjs
    by (by intros m w Hm).
  destruct c; try done; intros _ Hrecv; simpl in Hrecv;
    try (match type of Hrecv with
         | Some ?t ≠ Some _ => assert (r ≠ t) as Hne by congruence
         end);
    unfold_methods; unfold db_sequentialInsert;
    keeps ltac:(first
      [ apply preserves_setWorld, Hobjs
      | apply preserves_at_newObject
      | by apply preserves_at_updateObject ]).
Qed.

(** X15: the trace of a fork is kept when the fork is resolved, also when it
    is rejected.  After [fork], any calls that are neither [fork], [merge]
    or [reject] nor made on the parent, and then the resolution of the fork:
    the parent's trace is its trace from before the fork followed by the
    entries of the fork's trace in their order, each marked reverted when
    the fork is rejected and with its own mark when the fork is merged. *)
Theorem resolve_keeps_fork_trace m this sm cs reverted :
  objects m !! this = Some sm →
  Forall (λ c, touchesCheckpoints c = false ∧ receiver c ≠ Some this) cs →
  ∃ m3 sm3 fs,
    objects (execute cs (after (fork this) m)) !! length (objects m) = Some fs ∧
    _merge this (length (objects m)) reverted (execute cs (after (fork this) m)) =
      (Returns tt, m3) ∧
    objects m3 !! this = Some sm3 ∧
    trace sm3 =
      trace sm ++ ((λ er : TraceEvent * bool, (er.1, er.2 || reverted)) <$> trace fs).
Proof.
  intros Hthis Hcs.
  pose proof (lookup_lt_Some _ _ _ Hthis) as Hlt.
  assert (Forall (λ c, touchesCheckpoints c = false) cs) as Hcs'
    by (eapply Forall_impl; [exact Hcs|]; by intros c [? _]).
  unfold after. rewrite (fork_Returns _ _ _ Hthis). simpl.
  set (m1 := mkMachine _ _).
  assert (checkpoints (worldStateDB (execute cs m1)) =
          trees (worldStateDB m) :: checkpoints (worldStateDB m)) as Hcp.
  { apply (execute_preserves_Forall _
             (λ m', checkpoints (worldStateDB m') =
                    trees (worldStateDB m) :: checkpoints (worldStateDB m)) _
             (λ c, invoke_checkpoints c _) Hcs'). done. }
  assert (objects (execute cs m1) !! this = Some sm) as Hthis2.
  { apply (execute_preserves_Forall _ (λ m', objects m' !! this = Some sm) _
             (λ c Hc, invoke_other this sm c (proj1 Hc) (proj2 Hc)) Hcs).
    simpl. by apply lookup_app_l_Some. }
  destruct (execute_preserves_Forall _ (flagged (length (objects m)) false)
              _ (invoke_flagged _ _) Hcs' m1) as (fs & Hchild2 & Hflag).
  { eexists. split; [by apply list_lookup_middle|done]. }
  pose proof (fork_forkNewTo _ _ _ Hthis) as Hfresh.
  unfold after in Hfresh. rewrite (fork_Returns _ _ _ Hthis) in Hfresh.
  destruct (execute_preserves_Forall _ (forkNewTo this (length (objects m)) sm) _
              (λ c Hc, invoke_forkNewTo this _ sm c (proj1 Hc) (proj2 Hc))
              Hcs m1 Hfresh) as (_ & fs' & Hfs' & _ & Hnd & Hnew).
  assert (fs' = fs) as -> by congruence.
  destruct (merge_Returns _ this (length (objects m)) sm fs reverted _ _
              Hthis2 Hchild2 ltac:(lia) Hflag Hnew Hnd Hcp)
    as (m3 & sm3 & Hmerge & Hthis3 & _ & _ & _ & _ & Htrace & _).
  by exists m3, sm3, fs.
Qed.

(** ** When storage calls return *)

(** X17: when [readStorage] returns.  Without Merkle operations it always
    returns the cache-resolved value.  With Merkle operations over a
    well-formed public data tree it returns the cache-resolved value unless
    the tree holds a leaf for the slot whose value differs from it: then,
    and only then, it fails the value-mismatch assertion. *)
Theorem readStorage_completion m this sm contractAddress slot :
  objects m !! this = Some sm →
  (doMerkleOperations sm = false →
   completion (readStorage this contractAddress slot) m =
     Returns (resolvedValue m sm contractAddress slot)) ∧
  (doMerkleOperations sm = true →
   wellFormed (publicDataTree (trees (worldStateDB m))) →
   ∃ i present,
     IndexedTree.getPreviousValueIndex (publicDataTree (trees (worldStateDB m)))
       (computePublicDataTreeLeafSlot contractAddress slot) = Some (i, present) ∧
     completion (readStorage this contractAddress slot) m =
       if present &&
          negb (persistedValue (publicDataTree (trees (worldStateDB m)))
                  (computePublicDataTreeLeafSlot contractAddress slot)
                =? resolvedValue m sm contractAddress slot)%N
       then Throws (AssertionError PublicDataReadValueMismatch)
       else Returns (resolvedValue m sm contractAddress slot)).
Proof.
  intros Hthis.
  destruct (publicStorage_read_resolved m this sm contractAddress slot Hthis)
    as (cached & Hread).
  split.
  - intros Hmode. unfold completion, readStorage.
    rewrite (bind_Returns _ _ _ _ _ Hread).
    rewrite (bind_Returns _ _ _ _ _ (getObject_Some _ _ _ Hthis)).
    rewrite Hmode. simpl.
    by rewrite (bind_Returns _ _ _ _ _ (traceEvent_Some _ _ _ _ Hthis)).
  - intros Hmode [Hlinked (l0 & Hl0 & Hzero)].
    destruct (getPreviousValueIndex_sentinel _
                (computePublicDataTreeLeafSlot contractAddress slot) _ Hl0 Hzero)
      as [[i b] Hlow].
    destruct (getPreviousValueIndex_Some _ _ _ _ Hlow) as (l & Hl & _).
    exists i, b. split; [done|].
    unfold completion, readStorage.
    rewrite (bind_Returns _ _ _ _ _ Hread).
    rewrite (bind_Returns _ _ _ _ _ (getObject_Some _ _ _ Hthis)).
    rewrite Hmode.
    unfold getLeafOrLowLeafInfo, db_getPreviousValueIndex, db_getLeafPreimage,
      db_getIndexedSiblingPath, IndexedTree.getLeafPreimage.
    run. rewrite Hlow. simpl. rewrite Hl. simpl.
    unfold persistedValue. rewrite Hlow. destruct b; simpl.
    + rewrite Hl. destruct (leafValue l =? _)%N; simpl; [|done].
      by rewrite (traceEvent_Some _ _ _ _ Hthis).
    + rewrite (linked_skips _ _ _ _ Hlinked Hlow Hl). simpl.
      by rewrite (traceEvent_Some _ _ _ _ Hthis).
Qed.

(** X18: when [writeStorage] returns.  Without Merkle operations it always
    returns.  With Merkle operations it fails the insertion assertion when
    the tree has no low leaf for the slot, and returns in every other case,
    whether the slot is new to the tree or held by it already, with the
    written value or another; so after a write that returned, every further
    write of the slot returns too, whatever its value. *)
Theorem writeStorage_completion m this sm contractAddress slot value protocolWrite :
  objects m !! this = Some sm →
  (doMerkleOperations sm = false →
   completion (writeStorage this contractAddress slot value protocolWrite) m =
     Returns tt) ∧
  (doMerkleOperations sm = true →
   completion (writeStorage this contractAddress slot value protocolWrite) m =
     match IndexedTree.getPreviousValueIndex
             (publicDataTree (trees (worldStateDB m)))
             (computePublicDataTreeLeafSlot contractAddress slot) with
     | None => Throws (AssertionError PublicDataInsertionFailed)
     | Some _ => Returns tt
     end) ∧
  (∀ m1 value' protocolWrite',
     writeStorage this contractAddress slot value protocolWrite m = (Returns tt, m1) →
     completion (writeStorage this contractAddress slot value' protocolWrite') m1 =
       Returns tt).
Proof.
  intros Hthis.
  assert (∀ m this sm value protocolWrite,
            objects m !! this = Some sm →
            doMerkleOperations sm = true →
            completion (writeStorage this contractAddress slot value protocolWrite) m =
              match IndexedTree.getPreviousValueIndex
                      (publicDataTree (trees (worldStateDB m)))
                      (computePublicDataTreeLeafSlot contractAddress slot) with
              | None => Throws (AssertionError PublicDataInsertionFailed)
              | Some _ => Returns tt
              end) as Hrun.
  { clear. intros m this sm value protocolWrite Hthis Hmode.
    destruct (IndexedTree.getPreviousValueIndex _ _) as [[i b]|] eqn:Hlow.
    - destruct (writeStorage_merkle _ _ _ contractAddress slot value protocolWrite
                  _ _ Hthis Hmode Hlow) as (low & res & tr' & path & _ & _ & Hrun).
      unfold completion. by rewrite Hrun.
    - by apply (writeStorage_no_low_leaf _ _ sm). }
  split_and!.
  - intros Hmode. unfold completion.
    by rewrite (writeStorage_plain _ _ _ _ _ _ _ Hthis Hmode).
  - by apply Hrun.
  - intros m1 value' protocolWrite' Hwrite.
    destruct (writeStorage_Returns _ _ _ _ _ _ _ _ Hthis Hwrite)
      as (sm1 & Hsm1 & _ & Hmode & _ & _ & _ & _ & _ & Hworld).
    destruct (doMerkleOperations sm) eqn:Hm.
    + rewrite (Hrun m1 this sm1 value' protocolWrite' Hsm1 Hmode).
      destruct Hworld as (res & Hins).
      destruct (sequentialInsert_lookup _ _ _ _ _ _ _ Hins)
        as (i & l & Hlow & _).
      by rewrite Hlow.
    + unfold completion.
      by rewrite (writeStorage_plain _ _ _ _ _ _ _ Hsm1 Hmode).
Qed.

(** ** What a resolution asks of its argument *)

(** X19: what [merge] and [reject] ask of the state manager they are given.
    With a checkpoint open, any unresolved state manager of the store is
    marked resolved by any receiver, whether or not it is a fork of the
    receiver, and also when it is the receiver itself.  The call returns and
    closes the innermost checkpoint exactly when the pending nullifiers of
    its argument are pairwise distinct and none of them is pending in the
    receiver; otherwise it throws [NullifierCollisionError] and leaves the
    checkpoint open. *)
Theorem merge_accepts m this other sm fs reverted s cs :
  objects m !! this = Some sm →
  objects m !! other = Some fs →
  alreadyMergedIntoParent fs = false →
  checkpoints (worldStateDB m) = s :: cs →
  resolved other (after (_merge this other reverted) m) ∧
  (pendingNewTo sm fs ∧ NoDup (nullifierCache (nullifiers fs)) →
   completion (_merge this other reverted) m = Returns tt ∧
   checkpoints (worldStateDB (after (_merge this other reverted) m)) = cs) ∧
  (¬ (pendingNewTo sm fs ∧ NoDup (nullifierCache (nullifiers fs))) →
   completion (_merge this other reverted) m = Throws NullifierCollisionError ∧
   checkpoints (worldStateDB (after (_merge this other reverted) m)) = s :: cs).
Proof.
  intros Hthis Hother Hflag Hcp.
  destruct (merge_outcome m this other sm fs reverted s cs Hthis Hother Hflag Hcp)
    as [Hcompletion Hworld].
  split; [by eapply merge_resolves|]. unfold completion, after. split.
  - intros Hok. rewrite bool_decide_eq_true_2 in Hcompletion, Hworld by done.
    split; [done|]. rewrite Hworld. by destruct reverted.
  - intros Hnot. rewrite bool_decide_eq_false_2 in Hcompletion, Hworld by done.
    split; [done|]. by rewrite Hworld.
Qed.

(** ** The root state manager *)

Lemma rootMachine_wellChained doMerkle w : wellChained (rootMachine doMerkle w).
Proof.
  intros [|r] sm Hr.
  - injection Hr as <-. split; constructor.
  - destruct r; discriminate Hr.
Qed.

Lemma rootManager_neverWritten doMerkle w key :
  neverWritten (rootMachine doMerkle w) (rootManager doMerkle w) key.
Proof.
  split; [done|]. intros p psm Hp. by apply elem_of_nil in Hp.
Qed.

Lemma genesis_notPersisted objs (k : Fr) :
  k ≠ 0%N → notPersisted (mkMachine objs genesisWorld) k.
Proof.
  intros Hk [|j] l Hl.
  - injection Hl as <-. simpl. congruence.
  - destruct j; discriminate Hl.
Qed.

(** ** What only grows *)

Lemma grownFrom_refl sm : grownFrom sm sm.
Proof. by split_and!. Qed.

Lemma grownFrom_trans sm1 sm2 sm3 :
  grownFrom sm1 sm2 → grownFrom sm2 sm3 → grownFrom sm1 sm3.
Proof.
  intros (Ht & Hn & Hs & Hsp & Hnp & Hm & Hf & Hflag)
         (Ht' & Hn' & Hs' & Hsp' & Hnp' & Hm' & Hf' & Hflag').
  split_and!; try congruence; try (by etrans); by auto.
Qed.

Lemma preserves_grown_updateObject (r : ref) sm0 r' f :
  (∀ sm, grownFrom sm (f sm)) →
  preserves (λ m, ∃ sm', objects m !! r = Some sm' ∧ grownFrom sm0 sm')
    (updateObject r' f).
Proof.
  intros Hf m (sm & Hsm & Hgrown). unfold updateObject.
  destruct (objects m !! r') as [sm'|] eqn:Hr'; simpl; [|by exists sm].
  destruct (decide (r = r')) as [->|Hne].
  - exists (f sm'). split; [by eapply lookup_updated|].
    assert (sm' = sm) as -> by congruence. by eapply grownFrom_trans.
  - exists sm. by rewrite list_lookup_insert_ne.
Qed.

Lemma preserves_grown_newObject (r : ref) sm0 sm :
  preserves (λ m, ∃ sm', objects m !! r = Some sm' ∧ grownFrom sm0 sm')
    (newObject sm).
Proof.
  intros m (sm' & Hsm' & Hgrown). exists sm'. split; [|done].
  simpl. by apply lookup_app_l_Some.
Qed.

Lemma invoke_grown (r : ref) sm0 c :
  preserves (λ m, ∃ sm', objects m !! r = Some sm' ∧ grownFrom sm0 sm') (invoke c).
Proof.
  assert (on_objects (λ m, ∃ sm', objects m !! r = Some sm' ∧ grownFrom sm0 sm'))
    as Hobjs by (by intros m w Hm).
  destruct c; unfold_methods;
    unfold createCheckpoint, commitCheckpoint, revertCheckpoint, db_sequentialInsert;
    keeps ltac:(first
      [ apply preserves_setWorld, Hobjs
      | apply preserves_grown_newObject
      | apply preserves_grown_updateObject; intros [];
        unfold grownFrom, Trace.record, Trace.merge; simpl;
        split_and!; try done; try (by apply prefix_app_r); set_solver ]).
Qed.

(** X20: no call takes anything back from a state manager.  Whatever calls
    are made on the store, a state manager that is there stays there; its
    trace keeps every entry it had, in place, and is only appended to; its
    set of pending nullifiers and the set of slots it has a cached value for
    only grow; its chains of parents, its mode and its first nullifier stay
    the same; and a merged flag that is set stays set. *)
Theorem execute_only_grows cs m (r : ref) sm :
  objects m !! r = Some sm →
  ∃ sm', objects (execute cs m) !! r = Some sm' ∧ grownFrom sm sm'.
Proof.
  intros Hsm.
  apply (execute_preserves
           (λ m, ∃ sm', objects m !! r = Some sm' ∧ grownFrom sm sm') cs
           (invoke_grown r sm)).
  exists sm. split; [done|]. apply grownFrom_refl.
Qed.

(** ** Without Merkle operations *)

Lemma treesFixed_getObject {A} s r (k : AvmPersistableStateManager → Method A) :
  (∀ sm, doMerkleOperations sm = false → preserves (treesFixed s) (k sm)) →
  preserves (treesFixed s) (sm <- getObject r ;; k sm).
Proof.
  intros Hk m Hm. unfold bind, getObject.
  destruct (objects m !! r) as [sm|] eqn:Hr; [|done].
  apply Hk; [|done]. destruct Hm as [Hplain _]. by eapply Hplain.
Qed.

Lemma treesFixed_updateObject s r f :
  (∀ sm, doMerkleOperations (f sm) = doMerkleOperations sm) →
  preserves (treesFixed s) (updateObject r f).
Proof.
  intros Hf m (Hplain & Htrees & Hcp). unfold updateObject.
  destruct (objects m !! r) as [sm|] eqn:Hr; simpl; [|done].
  split; [|done]. intros r' sm'. simpl.
  destruct (decide (r' = r)) as [->|Hne].
  - rewrite (lookup_updated _ _ _ _ Hr). intros [= <-]. rewrite Hf.
    by eapply Hplain.
  - rewrite list_lookup_insert_ne by done. apply Hplain.
Qed.

Lemma treesFixed_newObject s sm :
  doMerkleOperations sm = false → preserves (treesFixed s) (newObject sm).
Proof.
  intros Hmode m (Hplain & Htrees & Hcp). split; [|done].
  intros r sm'. simpl. intros Hr.
  apply lookup_app_Some in Hr as [Hr|[_ Hr]]; [by eapply Hplain|].
  by apply list_lookup_singleton_Some in Hr as [_ <-].
Qed.

Lemma treesFixed_createCheckpoint s : preserves (treesFixed s) createCheckpoint.
Proof.
  intros m (Hplain & Htrees & Hcp). unfold createCheckpoint. run.
  split; [done|]. split; [done|]. simpl. by constructor.
Qed.

Lemma treesFixed_commitCheckpoint s : preserves (treesFixed s) commitCheckpoint.
Proof.
  intros m Hm. pose proof Hm as (Hplain & Htrees & Hcp).
  unfold commitCheckpoint. run.
  destruct (checkpoints (worldStateDB m)) as [|s' cs] eqn:Hcs; simpl;
    [exact Hm|].
  split; [done|]. split; [done|]. simpl. by inversion Hcp.
Qed.

Lemma treesFixed_revertCheckpoint s : preserves (treesFixed s) revertCheckpoint.
Proof.
  intros m Hm. pose proof Hm as (Hplain & Htrees & Hcp).
  unfold revertCheckpoint. run.
  destruct (checkpoints (worldStateDB m)) as [|s' cs] eqn:Hcs; simpl;
    [exact Hm|].
  inversion Hcp as [|? ? Heq Hrest]. split; [done|]. split; [by simpl|]. done.
Qed.

(** Without Merkle operations no call writes to the trees. *)
Lemma invoke_treesFixed s c :
  createsMerkle c = false → preserves (treesFixed s) (invoke c).
Proof.
  destruct c as [[|] fn| | | | | | | | | | | | | |]; try done; intros _;
    unfold_methods;
    keeps ltac:(first
      [ apply treesFixed_getObject; intros ? Hplain; cbv beta;
        rewrite ?Hplain; cbv iota; clear Hplain
      | apply treesFixed_createCheckpoint
      | apply treesFixed_commitCheckpoint
      | apply treesFixed_revertCheckpoint
      | by apply treesFixed_newObject
      | apply treesFixed_updateObject; by intros [] ]).
Qed.

(** X21: without Merkle operations the state manager never writes to the
    trees of the database.  In a store whose state managers all run without
    Merkle operations, and whose open checkpoints, if any, hold the current
    trees, any calls that do not create a state manager with Merkle
    operations leave the trees as they were, through forks, merges and
    rejections, and leave every state manager without Merkle operations. *)
Theorem plain_mode_keeps_trees cs m :
  plainMode m →
  Forall (eq (trees (worldStateDB m))) (checkpoints (worldStateDB m)) →
  Forall (λ c, createsMerkle c = false) cs →
  trees (worldStateDB (execute cs m)) = trees (worldStateDB m) ∧
  plainMode (execute cs m).
Proof.
  intros Hplain Hcp Hcs.
  destruct (execute_preserves_Forall _ (treesFixed (trees (worldStateDB m))) _
              (invoke_treesFixed _) Hcs m) as (Hplain' & Htrees & _); by split.
Qed.

Lemma rootMachine_plainMode w : plainMode (rootMachine false w).
Proof.
  intros [|r] sm Hr.
  - by injection Hr as <-.
  - destruct r; discriminate Hr.
Qed.

(** ** The hints that are traced *)

(** X22: the hint of a traced storage read is sound.  When [readStorage]
    returns with Merkle operations, whatever the state of the tree, the
    entry it has appended to the trace carries the returned value and a leaf
    the public data tree holds at the traced index, and that leaf is either
    the leaf of the slot, holding the returned value, or a low leaf that
    skips the slot; nothing else has changed. *)
Theorem readStorage_hint_sound m this sm contractAddress slot v m1 :
  objects m !! this = Some sm →
  doMerkleOperations sm = true →
  readStorage this contractAddress slot m = (Returns v, m1) →
  ∃ i l,
    publicDataTree (trees (worldStateDB m)) !! i = Some l ∧
    (leafKey l = computePublicDataTreeLeafSlot contractAddress slot ∧
     leafValue l = v ∨
     IndexedTree.skips l (computePublicDataTreeLeafSlot contractAddress slot) = true) ∧
    m1 =
      mkMachine
        (<[this :=
             setTrace
               (Trace.record
                  (PublicStorageRead contractAddress slot v
                     (Some (mkHint l (N.of_nat i)
                              (indexedTreePath
                                 (publicDataTree (trees (worldStateDB m))) i))))
                  (trace sm)) sm]> (objects m))
        (worldStateDB m).
Proof.
  intros Hthis Hmode.
  destruct (publicStorage_read_Some m this sm contractAddress slot Hthis)
    as (v0 & cached & Hread & _).
  unfold readStorage.
  rewrite (bind_Returns _ _ _ _ _ Hread).
  rewrite (bind_Returns _ _ _ _ _ (getObject_Some _ _ _ Hthis)).
  rewrite Hmode.
  unfold getLeafOrLowLeafInfo, db_getPreviousValueIndex, db_getLeafPreimage,
    db_getIndexedSiblingPath, IndexedTree.getLeafPreimage.
  run.
  destruct (IndexedTree.getPreviousValueIndex _ _) as [[i b]|] eqn:Hlow;
    simpl; [|done].
  destruct (getPreviousValueIndex_Some _ _ _ _ Hlow) as (l & Hl & _ & Hb & _).
  rewrite Hl. simpl. destruct b; simpl.
  - destruct (leafValue l =? v0)%N eqn:Hval; simpl; [|done].
    rewrite (traceEvent_Some _ _ _ _ Hthis). intros [= <- <-].
    exists i, l. split; [done|]. split; [|done]. left.
    split; [by apply N.eqb_eq|by apply N.eqb_eq].
  - destruct (IndexedTree.skips l _) eqn:Hskip; simpl; [|done].
    rewrite (traceEvent_Some _ _ _ _ Hthis). intros [= <- <-].
    exists i, l. split; [done|]. split; [by right|done].
Qed.

(** X23: the hint of a traced nullifier check is sound.  When
    [checkNullifierExists] returns with Merkle operations, whatever the
    state of the tree, the entry it has appended to the trace carries the
    returned boolean and a leaf the nullifier tree holds at the traced
    index: the leaf of the siloed nullifier when it returns [true], a low
    leaf that skips the siloed nullifier when it returns [false]; nothing
    else has changed. *)
Theorem checkNullifierExists_hint_sound m this sm contractAddress nullifier b m1 :
  objects m !! this = Some sm →
  doMerkleOperations sm = true →
  checkNullifierExists this contractAddress nullifier m = (Returns b, m1) →
  ∃ i l,
    nullifierTree (trees (worldStateDB m)) !! i = Some l ∧
    (if b then leafKey l = siloNullifier contractAddress nullifier
     else IndexedTree.skips l (siloNullifier contractAddress nullifier) = true) ∧
    m1 =
      mkMachine
        (<[this :=
             setTrace
               (Trace.record
                  (NullifierCheck (siloNullifier contractAddress nullifier) b
                     (Some (mkHint l (N.of_nat i)
                              (indexedTreePath
                                 (nullifierTree (trees (worldStateDB m))) i))))
                  (trace sm)) sm]> (objects m))
        (worldStateDB m).
Proof.
  intros Hthis Hmode.
  rewrite (checkNullifierExists_run _ _ _ _ _ Hthis).
  rewrite (getNullifierMembership_run _ _ _ _ Hthis). rewrite Hmode.
  destruct (IndexedTree.getPreviousValueIndex _ _) as [[i present]|] eqn:Hlow;
    [|done].
  destruct (getPreviousValueIndex_Some _ _ _ _ Hlow) as (l & Hl & _ & Hb & _).
  rewrite Hl.
  destruct (nullifierKnown m sm _) eqn:Hknown; destruct present; simpl;
    try done.
  - intros [= <- <-]. exists i, l. split; [done|]. split; [|done].
    symmetry in Hb. by apply N.eqb_eq in Hb.
  - destruct (IndexedTree.skips l _) eqn:Hskip; simpl; [|done].
    intros [= <- <-]. by exists i, l.
Qed.

(** X24: [writeSiloedNullifier] with Merkle operations over a well-formed
    nullifier tree, for a nullifier that does not exist yet: it is not
    pending on the chain of overlays of the receiver and the tree does not
    hold it.  The write returns; the low leaf it traces is the leaf the tree
    held at the traced index before the write, and it skips the nullifier;
    after the write the tree holds the nullifier in a new leaf at the next
    free index, the low leaf points at it, and the traced insertion path is
    that of the new leaf; the nullifier is the last of the pending
    nullifiers of the receiver. *)
Theorem writeSiloedNullifier_new m this sm siloedNullifier :
  objects m !! this = Some sm →
  doMerkleOperations sm = true →
  wellFormed (nullifierTree (trees (worldStateDB m))) →
  nullifierKnown m sm siloedNullifier = false →
  ∃ i low m1 sm1,
    writeSiloedNullifier this siloedNullifier m = (Returns tt, m1) ∧
    nullifierTree (trees (worldStateDB m)) !! i = Some low ∧
    IndexedTree.skips low siloedNullifier = true ∧
    objects m1 !! this = Some sm1 ∧
    trace sm1 =
      Trace.record
        (NewNullifier siloedNullifier
           (Some (mkHint low (N.of_nat i)
                    (indexedTreePath (nullifierTree (trees (worldStateDB m))) i),
                  indexedTreePath (nullifierTree (trees (worldStateDB m1)))
                    (length (nullifierTree (trees (worldStateDB m)))))))
        (trace sm) ∧
    nullifierCache (nullifiers sm1) =
      nullifierCache (nullifiers sm) ++ [siloedNullifier] ∧
    nullifierTree (trees (worldStateDB m1))
      !! length (nullifierTree (trees (worldStateDB m))) =
      Some (mkLeaf siloedNullifier 0%N (nextKey low) (nextIndex low)) ∧
    nullifierTree (trees (worldStateDB m1)) !! i =
      Some (withNext low siloedNullifier
              (length (nullifierTree (trees (worldStateDB m))))).
Proof.
  intros Hthis Hmode [Hlinked (l0 & Hl0 & Hzero)] Hknown.
  destruct (getPreviousValueIndex_sentinel _ siloedNullifier _ Hl0 Hzero)
    as [[i b] Hlow].
  assert (b = false) as ->.
  { rewrite (present_findLeafIndex _ _ _ _ Hlow).
    unfold nullifierKnown in Hknown. by apply orb_false_iff in Hknown as [_ ->]. }
  destruct (getPreviousValueIndex_Some _ _ _ _ Hlow) as (low & Hi & _).
  pose proof (lookup_lt_Some _ _ _ Hi) as Hlt.
  exists i, low. eexists _, _. split.
  { rewrite (writeSiloedNullifier_run _ _ _ _ Hthis), Hmode, Hlow, Hi, Hknown.
    reflexivity. }
  cbn [objects worldStateDB].
  split; [done|]. split; [by eapply linked_skips|].
  split; [by eapply lookup_updated|].
  simpl. split; [done|]. split; [done|]. split.
  - apply list_lookup_middle. by rewrite length_insert.
  - apply lookup_app_l_Some. by apply list_lookup_insert_eq.
Qed.

(** ** Reading calls that throw *)

Lemma stateless_ret {A} (a : A) : stateless (ret a).
Proof. done. Qed.

Lemma stateless_throw {A} e : stateless (throw (A := A) e).
Proof. done. Qed.

Lemma stateless_assert b a : stateless (assert b a).
Proof. by destruct b. Qed.

Lemma stateless_getObject r : stateless (getObject r).
Proof. intros m. unfold getObject. by destruct (objects m !! r). Qed.

Lemma stateless_getWorld : stateless getWorld.
Proof. done. Qed.

Lemma stateless_bind {A B} (c : Method A) (k : A → Method B) :
  stateless c → (∀ a, stateless (k a)) → stateless (bind c k).
Proof.
  intros Hc Hk m. unfold bind. specialize (Hc m).
  destruct (c m) as [[a|e] m']; simpl in Hc; subst m'; [apply Hk|done].
Qed.

Lemma silentOnThrow_stateless {A} (c : Method A) : stateless c → silentOnThrow c.
Proof. intros Hc m e _. apply Hc. Qed.

Lemma silentOnThrow_bind {A B} (c : Method A) (k : A → Method B) :
  stateless c → (∀ a, silentOnThrow (k a)) → silentOnThrow (bind c k).
Proof.
  intros Hc Hk m e. unfold bind. specialize (Hc m).
  destruct (c m) as [[a|e'] m']; simpl in Hc; subst m'; [apply Hk|done].
Qed.

Lemma silentOnThrow_then_ret {A B} (c : Method A) (x : B) :
  silentOnThrow c → silentOnThrow (c ;; ret x).
Proof.
  intros Hc m e. unfold bind, ret. specialize (Hc m).
  destruct (c m) as [[a|e'] m']; simpl in *; [done|]. intros _. by eapply Hc.
Qed.

Lemma silentOnThrow_traceEvent this e : silentOnThrow (traceEvent this e).
Proof.
  intros m e'. unfold traceEvent, updateObject.
  by destruct (objects m !! this).
Qed.

Lemma stateless_publicStorage_read this contractAddress slot :
  stateless (publicStorage_read this contractAddress slot).
Proof. intros m. apply publicStorage_read_pure. Qed.

Lemma stateless_nullifiers_checkExists this siloedNullifier :
  stateless (nullifiers_checkExists this siloedNullifier).
Proof. intros m. apply nullifiers_checkExists_pure. Qed.

Ltac settle_stateless :=
  repeat first
    [ apply stateless_ret
    | apply stateless_throw
    | apply stateless_assert
    | apply stateless_getObject
    | apply stateless_getWorld
    | apply stateless_publicStorage_read
    | apply stateless_nullifiers_checkExists
    | apply stateless_bind; [|intros ?]
    | match goal with
      | |- stateless (match ?x with _ => _ end) => destruct x
      end ].

Ltac settle_silent :=
  repeat first
    [ apply silentOnThrow_traceEvent
    | apply silentOnThrow_then_ret
    | apply silentOnThrow_bind; [by settle_stateless|intros ?]
    | match goal with
      | |- silentOnThrow (match ?x with _ => _ end) => destruct x
      end
    | apply silentOnThrow_stateless; by settle_stateless ].

(** X26: a reading call that throws has done nothing.  When [readStorage],
    [peekStorage], an existence check, [getContractInstance] or
    [getBytecode] throws, whether on one of its assertions or on a missing
    receiver, the store is exactly as it was before the call: the trace
    entry is appended only after every assertion has passed. *)
Theorem queries_throw_untouched c m e :
  isQuery c = true →
  completion (invoke c) m = Throws e →
  after (invoke c) m = m.
Proof.
  intros Hquery. revert m e.
  change (silentOnThrow (invoke c)).
  destruct c; try done; clear Hquery;
    unfold invoke, readStorage, peekStorage, checkNoteHashExists,
      checkL1ToL2MessageExists, checkNullifierExists, getContractInstance,
      getBytecode, instanceAndMembership;
    unfold getNullifierMembership;
    unfold getLeafOrLowLeafInfo, db_getPreviousValueIndex, db_getLeafPreimage,
      db_getIndexedSiblingPath, db_getSiblingPath, db_getLeafValue;
    settle_silent.
Qed.

End StateManagerFacts.

(** * The statements at work on concrete stores *)

Section Witnesses.
#[local] Existing Instance samplePrimitives.

(** The scenario of the specification: after nullifiers 7, 3 and 10 went
    into a tree seeded with the sentinel, the low leaf of 5 holds 3. *)
Example low_leaf_of_five :
  completion (getLeafOrLowLeafInfo NULLIFIER_TREE 5) threeNullifiers =
    Returns (mkLeafResult (mkLeaf 3 0 7 1) 2 false).
Proof. vm_compute. reflexivity. Qed.

Lemma checkNoteHashExists_iff_witness :
  objects (rootMachine true noteWorld) !! 0 = Some (rootManager true noteWorld) ∧
  ∃ b, completion (checkNoteHashExists 0 9 22 1) (rootMachine true noteWorld)
         = Returns b ∧
       (b = true ↔
        default 0%N
          (noteHashTree (trees (worldStateDB (rootMachine true noteWorld)))
             !! N.to_nat 1) = 22%N).
Proof.
  split; [reflexivity|].
  apply (checkNoteHashExists_iff _ 0 (rootManager true noteWorld)). reflexivity.
Defined.

Lemma fork_resolved_once_witness :
  objects forkedMachine !! 1 = Some rootFork ∧
  alreadyMergedIntoParent rootFork = false ∧
  resolved 1 (after (_merge 0 1 true) forkedMachine) ∧
  ∀ cs this' reverted',
    _merge this' 1 reverted'
      (execute cs (after (_merge 0 1 true) forkedMachine)) =
      (Throws (AssertionError ForkAlreadyMerged),
       execute cs (after (_merge 0 1 true) forkedMachine)).
Proof.
  split; [reflexivity|]. split; [reflexivity|].
  apply (fork_resolved_once forkedMachine 0 1 rootFork true); reflexivity.
Defined.

Lemma low_leaf_skip_witness :
  worldWellFormed threeNullifiers ∧
  (∀ treeId key,
     ∃ r, getLeafOrLowLeafInfo treeId key threeNullifiers =
            (Returns r, threeNullifiers) ∧
          (alreadyPresent r = false →
           (leafKey (preimage r) < key)%N ∧
           (nextIndex (preimage r) = 0 ∨ (key < nextKey (preimage r))%N))) ∧
  (∀ this contractAddress slot,
     completion (readStorage this contractAddress slot) threeNullifiers ≠
       Throws (AssertionError PublicDataLowLeafSkip)) ∧
  (∀ this siloedNullifier,
     completion (getNullifierMembership this siloedNullifier) threeNullifiers ≠
       Throws (AssertionError NullifierLowLeafSkip)).
Proof.
  assert (worldWellFormed threeNullifiers) as Hwf.
  { apply execute_wellFormed, (genesis_wellFormed [rootManager true genesisWorld]). }
  split; [exact Hwf|]. apply (low_leaf_skip threeNullifiers Hwf).
Defined.

Lemma fromPrivate_skips_empty_witness :
  Forall (λ n, n = 0%N) [0%N; 0%N] ∧
  writeSiloedNullifiersFromPrivate 0 [0%N; 0%N] (rootMachine true genesisWorld) =
    (Returns tt, rootMachine true genesisWorld).
Proof.
  assert (Forall (λ n, n = 0%N) [0%N; 0%N]) as Hall by (by repeat constructor).
  split; [exact Hall|].
  apply (proj1 (proj2 (proj2 (proj2 (fromPrivate_skips_empty 0))))). exact Hall.
Defined.



(** Two stores with the same objects, without Merkle operations, over two
    databases: [peekStorage] of a slot no overlay holds returns what the
    public data tree of each database holds for it. *)
Lemma peekStorage_reads_tree :
  doMerkleOperations (rootManager false genesisWorld) = false ∧
  completion (peekStorage 0 10 1)
    (mkMachine [rootManager false genesisWorld] genesisWorld) = Returns 0%N ∧
  completion (peekStorage 0 10 1)
    (mkMachine [rootManager false genesisWorld] persistedWorld) = Returns 7%N.
Proof. split_and!; vm_compute; reflexivity. Qed.

Lemma checkL1ToL2MessageExists_iff_witness :
  objects (rootMachine true messageWorld) !! 0 = Some (rootManager true messageWorld)
  ∧ ∃ (b : bool) (path : option (list N)),
      checkL1ToL2MessageExists 0 9 22 1 (rootMachine true messageWorld) =
      (Returns b,
       {|
         objects :=
           <[0:=setTrace
                  (Trace.record
                     (L1ToL2MessageCheck 9
                        (default 0%N
                           (l1ToL2MessageTree
                              (trees (worldStateDB (rootMachine true messageWorld)))
                            !! N.to_nat 1))
                        1 b path)
                     (trace (rootManager true messageWorld)))
                  (rootManager true messageWorld)]>
             (objects (rootMachine true messageWorld));
         worldStateDB := worldStateDB (rootMachine true messageWorld)
       |})
      ∧ (b = true
         ↔ default 0%N
             (l1ToL2MessageTree (trees (worldStateDB (rootMachine true messageWorld)))
              !! N.to_nat 1) =
           22%N)
        ∧ (is_Some path ↔ doMerkleOperations (rootManager true messageWorld) = true).
Proof.
  split; [reflexivity|].
  apply (checkL1ToL2MessageExists_iff (rootMachine true messageWorld) 0
           (rootManager true messageWorld) 9 22 1).
  reflexivity.
Defined.

Lemma getBytecode_deployed_witness :
  objects (rootMachine true deployedWorld) !! 0 = Some (rootManager true deployedWorld)
  ∧ contractInstances (worldStateDB (rootMachine true deployedWorld)) !! 5%N =
    Some {| contractClassId := 77; instanceFields := [] |}
    ∧ completion (instanceAndMembership 0 5) (rootMachine true deployedWorld) =
      Returns
        (Some {| contractClassId := 77; instanceFields := [] |},
         {| hintPreimage := emptyLeafPreimage; hintIndex := 0; hintPath := [] |})
      ∧ match
          contractClasses (worldStateDB (rootMachine true deployedWorld))
          !! contractClassId {| contractClassId := 77; instanceFields := [] |}
        with
        | Some contractClass =>
            match
              bytecodeCommitments (worldStateDB (rootMachine true deployedWorld))
              !! contractClassId {| contractClassId := 77; instanceFields := [] |}
            with
            | Some bytecodeCommitment =>
                getBytecode 0 5 (rootMachine true deployedWorld) =
                (Returns (Some (packedBytecode contractClass)),
                 {|
                   objects :=
                     <[0:=setTrace
                            (Trace.record
                               (GetBytecode 5 true (Some (packedBytecode contractClass))
                                  (Some {| contractClassId := 77; instanceFields := [] |})
                                  (Some
                                     {|
                                       preimageArtifactHash := artifactHash contractClass;
                                       preimagePrivateFunctionsRoot :=
                                         privateFunctionsRoot contractClass;
                                       publicBytecodeCommitment := bytecodeCommitment
                                     |})
                                  (if doMerkleOperations (rootManager true deployedWorld)
                                   then
                                    Some
                                      (Some
                                         {|
                                           contractClassId := 77; instanceFields := []
                                         |},
                                       {|
                                         hintPreimage := emptyLeafPreimage;
                                         hintIndex := 0;
                                         hintPath := []
                                       |}).2
                                   else None))
                               (trace (rootManager true deployedWorld)))
                            (rootManager true deployedWorld)]>
                       (objects (rootMachine true deployedWorld));
                   worldStateDB := worldStateDB (rootMachine true deployedWorld)
                 |})
            | None =>
                getBytecode 0 5 (rootMachine true deployedWorld) =
                (Throws (AssertionError BytecodeCommitmentNotFound),
                 rootMachine true deployedWorld)
            end
        | None =>
            getBytecode 0 5 (rootMachine true deployedWorld) =
            (Throws (AssertionError ContractClassNotFound),
             rootMachine true deployedWorld)
        end.
Proof.
  split; [reflexivity|]. split; [vm_compute; reflexivity|].
  split; [vm_compute; reflexivity|].
  apply (getBytecode_deployed (rootMachine true deployedWorld) 0
           (rootManager true deployedWorld) 5 (mkInstance 77 [])
           (Some (mkInstance 77 []), mkHint emptyLeafPreimage 0 []));
    vm_compute; reflexivity.
Defined.

Lemma checkNullifierExists_result_witness :
  objects (rootMachine true genesisWorld) !! 0 = Some (rootManager true genesisWorld)
  ∧ (doMerkleOperations (rootManager true genesisWorld) = false
     → checkNullifierExists 0 10 5 (rootMachine true genesisWorld) =
       (Returns
          (nullifierKnown (rootMachine true genesisWorld) (rootManager true genesisWorld)
             (siloNullifier 10 5)),
        {|
          objects :=
            <[0:=setTrace
                   (Trace.record
                      (NullifierCheck (siloNullifier 10 5)
                         (nullifierKnown (rootMachine true genesisWorld)
                            (rootManager true genesisWorld) (siloNullifier 10 5))
                         None)
                      (trace (rootManager true genesisWorld)))
                   (rootManager true genesisWorld)]>
              (objects (rootMachine true genesisWorld));
          worldStateDB := worldStateDB (rootMachine true genesisWorld)
        |}))
    ∧ (doMerkleOperations (rootManager true genesisWorld) = true
       → wellFormed
           (nullifierTree (trees (worldStateDB (rootMachine true genesisWorld))))
         → if
            checkExistsHereOrParent (objects (rootMachine true genesisWorld))
              (nullifiers (rootManager true genesisWorld)) (siloNullifier 10 5) &&
            negb (inNullifierTree (rootMachine true genesisWorld) (siloNullifier 10 5))
           then
            checkNullifierExists 0 10 5 (rootMachine true genesisWorld) =
            (Throws (AssertionError NullifierTreeDisagreement),
             rootMachine true genesisWorld)
           else
            ∃ (i : nat) (l : IndexedTreeLeafPreimage),
              nullifierTree (trees (worldStateDB (rootMachine true genesisWorld))) !! i =
              Some l
              ∧ (leafKey l ≤ siloNullifier 10 5)%N
                ∧ checkNullifierExists 0 10 5 (rootMachine true genesisWorld) =
                  (Returns
                     (inNullifierTree (rootMachine true genesisWorld)
                        (siloNullifier 10 5)),
                   {|
                     objects :=
                       <[0:=setTrace
                              (Trace.record
                                 (NullifierCheck (siloNullifier 10 5)
                                    (inNullifierTree (rootMachine true genesisWorld)
                                       (siloNullifier 10 5))
                                    (Some
                                       {|
                                         hintPreimage := l;
                                         hintIndex := N.of_nat i;
                                         hintPath :=
                                           indexedTreePath
                                             (nullifierTree
                                                (trees
                                                   (worldStateDB
                                                      (rootMachine true genesisWorld))))
                                             i
                                       |}))
                                 (trace (rootManager true genesisWorld)))
                              (rootManager true genesisWorld)]>
                         (objects (rootMachine true genesisWorld));
                     worldStateDB := worldStateDB (rootMachine true genesisWorld)
                   |})).
Proof.
  split; [reflexivity|].
  apply (checkNullifierExists_result (rootMachine true genesisWorld) 0
           (rootManager true genesisWorld) 10 5).
  reflexivity.
Defined.

Lemma nullifier_write_then_check_witness :
  objects (rootMachine true genesisWorld) !! 0 = Some (rootManager true genesisWorld)
  ∧ (∀ m1 : Machine,
       writeNullifier 0 10 5 (rootMachine true genesisWorld) = (Returns (), m1)
       → completion (checkNullifierExists 0 10 5) m1 = Returns true
         ∧ ∀ (c : ref) (m2 : Machine),
             fork 0 m1 = (Returns c, m2)
             → completion (checkNullifierExists c 10 5) m2 = Returns true)
    ∧ ∀ (c : ref) (m1 m2 : Machine),
        fork 0 (rootMachine true genesisWorld) = (Returns c, m1)
        → writeNullifier c 10 5 m1 = (Returns (), m2)
          → ∃ m3 : Machine,
              merge 0 c m2 = (Returns (), m3)
              ∧ completion (checkNullifierExists 0 10 5) m3 = Returns true.
Proof.
  split; [reflexivity|].
  apply (nullifier_write_then_check (rootMachine true genesisWorld) 0
           (rootManager true genesisWorld) 10 5).
  reflexivity.
Defined.

Lemma rejected_nullifier_stays_pending_witness :
  objects (rootMachine true genesisWorld) !! 0 = Some (rootManager true genesisWorld)
  ∧ fork 0 (rootMachine true genesisWorld) = (Returns 1, forkedMerkleMachine)
    ∧ writeNullifier 1 10 5 forkedMerkleMachine =
      (Returns (), after (writeNullifier 1 10 5) forkedMerkleMachine)
      ∧ ∃ (m3 : Machine) (sm3 : AvmPersistableStateManager),
          reject 0 1 (after (writeNullifier 1 10 5) forkedMerkleMachine) =
          (Returns (), m3)
          ∧ objects m3 !! 0 = Some sm3
            ∧ siloNullifier 10 5 ∈ nullifierCache (nullifiers sm3)
              ∧ completion (checkNullifierExists 0 10 5) m3 =
                (if doMerkleOperations (rootManager true genesisWorld)
                 then Throws (AssertionError NullifierTreeDisagreement)
                 else Returns true).
Proof.
  split; [reflexivity|]. split; [vm_compute; reflexivity|].
  split; [vm_compute; reflexivity|].
  apply (rejected_nullifier_stays_pending (rootMachine true genesisWorld) 0
           (rootManager true genesisWorld) 10 5 1 forkedMerkleMachine
           (after (writeNullifier 1 10 5) forkedMerkleMachine));
    vm_compute; reflexivity.
Defined.

Lemma resolve_closes_checkpoint_witness :
  objects (rootMachine true genesisWorld) !! 0 = Some (rootManager true genesisWorld)
  ∧ Forall (λ c : Call, touchesCheckpoints c = false)
      [WriteStorage 1 10 1 42 false; WriteSiloedNullifier 1 7; ReadStorage 1 10 1]
    ∧ ∃ fs sm2 : AvmPersistableStateManager,
        objects
          (execute
             [WriteStorage 1 10 1 42 false; WriteSiloedNullifier 1 7; ReadStorage 1 10 1]
             (after (fork 0) (rootMachine true genesisWorld)))
        !! length (objects (rootMachine true genesisWorld)) = 
        Some fs
        ∧ objects
            (execute
               [WriteStorage 1 10 1 42 false; WriteSiloedNullifier 1 7;
                ReadStorage 1 10 1]
               (after (fork 0) (rootMachine true genesisWorld)))
          !! 0 = Some sm2
          ∧ (pendingNewTo sm2 fs
             → ∃ m3 : Machine,
                 _merge 0 (length (objects (rootMachine true genesisWorld))) true
                   (execute
                      [WriteStorage 1 10 1 42 false; WriteSiloedNullifier 1 7;
                       ReadStorage 1 10 1]
                      (after (fork 0) (rootMachine true genesisWorld))) =
                 (Returns (), m3)
                 ∧ checkpoints (worldStateDB m3) =
                   checkpoints (worldStateDB (rootMachine true genesisWorld))
                   ∧ trees (worldStateDB m3) =
                     (if true
                      then trees (worldStateDB (rootMachine true genesisWorld))
                      else
                       trees
                         (worldStateDB
                            (execute
                               [WriteStorage 1 10 1 42 false; 
                                WriteSiloedNullifier 1 7; ReadStorage 1 10 1]
                               (after (fork 0) (rootMachine true genesisWorld))))))
            ∧ (¬ pendingNewTo sm2 fs
               → ∃ m3 : Machine,
                   _merge 0 (length (objects (rootMachine true genesisWorld))) true
                     (execute
                        [WriteStorage 1 10 1 42 false; WriteSiloedNullifier 1 7;
                         ReadStorage 1 10 1]
                        (after (fork 0) (rootMachine true genesisWorld))) =
                   (Throws NullifierCollisionError, m3)
                   ∧ resolved (length (objects (rootMachine true genesisWorld))) m3
                     ∧ checkpoints (worldStateDB m3) =
                       trees (worldStateDB (rootMachine true genesisWorld))
                       :: checkpoints (worldStateDB (rootMachine true genesisWorld))
                       ∧ trees (worldStateDB m3) =
                         trees
                           (worldStateDB
                              (execute
                                 [WriteStorage 1 10 1 42 false; 
                                  WriteSiloedNullifier 1 7; ReadStorage 1 10 1]
                                 (after (fork 0) (rootMachine true genesisWorld)))))
              ∧ (Forall (λ c : Call, receiver c ≠ Some 0)
                   [WriteStorage 1 10 1 42 false; WriteSiloedNullifier 1 7;
                    ReadStorage 1 10 1]
                 → pendingNewTo sm2 fs).
Proof.
  split; [reflexivity|]. split; [repeat constructor|].
  apply (resolve_closes_checkpoint (rootMachine true genesisWorld) 0
           (rootManager true genesisWorld)
           [WriteStorage 1 10 1 42 false; WriteSiloedNullifier 1 7;
            ReadStorage 1 10 1] true);
    [reflexivity|repeat constructor].
Defined.

Lemma queries_only_trace_witness :
  isQuery (ReadStorage 0 10 1) = true
  ∧ ∃ this : ref,
      receiver (ReadStorage 0 10 1) = Some this
      ∧ tracedOnly this (rootMachine true persistedWorld)
          (after (invoke (ReadStorage 0 10 1)) (rootMachine true persistedWorld)).
Proof.
  split; [reflexivity|].
  apply (queries_only_trace (ReadStorage 0 10 1) (rootMachine true persistedWorld)).
  reflexivity.
Defined.

Lemma writeStorage_new_slot_witness :
  objects (rootMachine true genesisWorld) !! 0 = Some (rootManager true genesisWorld)
  ∧ doMerkleOperations (rootManager true genesisWorld) = true
    ∧ wellFormed (publicDataTree (trees (worldStateDB (rootMachine true genesisWorld))))
      ∧ notPersisted (rootMachine true genesisWorld) (computePublicDataTreeLeafSlot 10 1)
        ∧ ∃ (i : nat) (low : IndexedTreeLeafPreimage) (m1 : Machine) 
            (sm1 : AvmPersistableStateManager) (path : list N),
            writeStorage 0 10 1 42 false (rootMachine true genesisWorld) =
            (Returns (), m1)
            ∧ publicDataTree (trees (worldStateDB (rootMachine true genesisWorld))) !! i =
              Some low
              ∧ IndexedTree.skips low (computePublicDataTreeLeafSlot 10 1) = true
                ∧ objects m1 !! 0 = Some sm1
                  ∧ trace sm1 =
                    Trace.record
                      (PublicStorageWrite 10 1 42 false
                         (Some
                            ({|
                               hintPreimage := low;
                               hintIndex := N.of_nat i;
                               hintPath :=
                                 indexedTreePath
                                   (publicDataTree
                                      (trees
                                         (worldStateDB (rootMachine true genesisWorld))))
                                   i
                             |},
                             {|
                               leafKey := computePublicDataTreeLeafSlot 10 1;
                               leafValue := 42;
                               nextKey := nextKey low;
                               nextIndex := nextIndex low
                             |}, Some path)))
                      (trace (rootManager true genesisWorld))
                    ∧ storageCache (publicStorage sm1) !! (10%N, 1%N) = Some 42%N
                      ∧ publicDataTree (trees (worldStateDB m1))
                        !! length
                             (publicDataTree
                                (trees (worldStateDB (rootMachine true genesisWorld)))) =
                        Some
                          {|
                            leafKey := computePublicDataTreeLeafSlot 10 1;
                            leafValue := 42;
                            nextKey := nextKey low;
                            nextIndex := nextIndex low
                          |}
                        ∧ publicDataTree (trees (worldStateDB m1)) !! i =
                          Some
                            (withNext low (computePublicDataTreeLeafSlot 10 1)
                               (length
                                  (publicDataTree
                                     (trees
                                        (worldStateDB (rootMachine true genesisWorld))))))
                          ∧ path =
                            indexedTreePath (publicDataTree (trees (worldStateDB m1)))
                              (length
                                 (publicDataTree
                                    (trees (worldStateDB (rootMachine true genesisWorld))))).
Proof.
  assert (notPersisted (rootMachine true genesisWorld)
            (computePublicDataTreeLeafSlot 10 1)) as Hnot
    by (apply genesis_notPersisted; vm_compute; discriminate).
  split; [reflexivity|]. split; [reflexivity|].
  split; [exact wellFormed_initial|]. split; [exact Hnot|].
  apply (writeStorage_new_slot (rootMachine true genesisWorld) 0
           (rootManager true genesisWorld) 10 1 42 false);
    [reflexivity|reflexivity|exact wellFormed_initial|exact Hnot].
Defined.

Lemma writeStorage_other_slot_witness :
  objects (rootMachine true persistedWorld) !! 0 = Some (rootManager true persistedWorld)
  ∧ objects (rootMachine true persistedWorld) !! 0 =
    Some (rootManager true persistedWorld)
    ∧ computePublicDataTreeLeafSlot 10 1 ≠ computePublicDataTreeLeafSlot 10 2
      ∧ completion (peekStorage 0 10 1)
          (after (writeStorage 0 10 2 5 false) (rootMachine true persistedWorld)) =
        completion (peekStorage 0 10 1) (rootMachine true persistedWorld).
Proof.
  assert (computePublicDataTreeLeafSlot 10 1 ≠ computePublicDataTreeLeafSlot 10 2)
    as Hslots by (vm_compute; discriminate).
  split; [reflexivity|]. split; [reflexivity|]. split; [exact Hslots|].
  apply (writeStorage_other_slot (rootMachine true persistedWorld) 0
           (rootManager true persistedWorld) 10 2 5 false
           0 (rootManager true persistedWorld) 10 1);
    [reflexivity|reflexivity|exact Hslots].
Defined.

Lemma fork_reads_parent_write_witness :
  objects (rootMachine true genesisWorld) !! 0 = Some (rootManager true genesisWorld)
  ∧ writeStorage 0 10 1 42 false (rootMachine true genesisWorld) =
    (Returns (), after (writeStorage 0 10 1 42 false) (rootMachine true genesisWorld))
    ∧ fork 0 (after (writeStorage 0 10 1 42 false) (rootMachine true genesisWorld)) =
      (Returns 1,
       after (fork 0)
         (after (writeStorage 0 10 1 42 false) (rootMachine true genesisWorld)))
      ∧ completion (readStorage 1 10 1)
          (after (fork 0)
             (after (writeStorage 0 10 1 42 false) (rootMachine true genesisWorld))) =
        Returns 42%N
        ∧ completion (peekStorage 1 10 1)
            (after (fork 0)
               (after (writeStorage 0 10 1 42 false) (rootMachine true genesisWorld))) =
          Returns 42%N.
Proof.
  split; [reflexivity|]. split; [vm_compute; reflexivity|].
  split; [vm_compute; reflexivity|].
  apply (fork_reads_parent_write (rootMachine true genesisWorld) 0
           (rootManager true genesisWorld) 10 1 42 false
           (after (writeStorage 0 10 1 42 false) (rootMachine true genesisWorld)) 1
           (after (fork 0)
              (after (writeStorage 0 10 1 42 false) (rootMachine true genesisWorld))));
    vm_compute; reflexivity.
Defined.

Lemma fork_write_hidden_witness :
  wellChained (rootMachine false genesisWorld)
  ∧ objects (rootMachine false genesisWorld) !! 0 = Some (rootManager false genesisWorld)
    ∧ doMerkleOperations (rootManager false genesisWorld) = false
      ∧ fork 0 (rootMachine false genesisWorld) = (Returns 1, forkedMachine)
        ∧ objects (rootMachine false genesisWorld) !! 0 =
          Some (rootManager false genesisWorld)
          ∧ completion (peekStorage 0 10 1)
              (after (writeStorage 1 10 1 42 false) forkedMachine) =
            completion (peekStorage 0 10 1) (rootMachine false genesisWorld).
Proof.
  split; [apply rootMachine_wellChained|]. split; [reflexivity|].
  split; [reflexivity|]. split; [vm_compute; reflexivity|]. split; [reflexivity|].
  apply (fork_write_hidden (rootMachine false genesisWorld) 0
           (rootManager false genesisWorld) 1 forkedMachine 10 1 42 false
           0 (rootManager false genesisWorld) 10 1);
    [apply rootMachine_wellChained|reflexivity|reflexivity
    |vm_compute; reflexivity|reflexivity].
Defined.

Lemma fork_write_shared_tree_witness :
  wellChained (rootMachine true genesisWorld)
  ∧ objects (rootMachine true genesisWorld) !! 0 = Some (rootManager true genesisWorld)
    ∧ doMerkleOperations (rootManager true genesisWorld) = true
      ∧ fork 0 (rootMachine true genesisWorld) = (Returns 1, forkedMerkleMachine)
        ∧ writeStorage 1 10 1 42 false forkedMerkleMachine =
          (Returns (), after (writeStorage 1 10 1 42 false) forkedMerkleMachine)
          ∧ objects (rootMachine true genesisWorld) !! 0 =
            Some (rootManager true genesisWorld)
            ∧ neverWritten (rootMachine true genesisWorld)
                (rootManager true genesisWorld) (10%N, 1%N)
              ∧ completion (peekStorage 0 10 1)
                  (after (writeStorage 1 10 1 42 false) forkedMerkleMachine) =
                Returns 42%N.
Proof.
  split; [apply rootMachine_wellChained|]. split; [reflexivity|].
  split; [reflexivity|]. split; [vm_compute; reflexivity|].
  split; [vm_compute; reflexivity|]. split; [reflexivity|].
  split; [apply rootManager_neverWritten|].
  apply (fork_write_shared_tree (rootMachine true genesisWorld) 0
           (rootManager true genesisWorld) 1 forkedMerkleMachine 10 1 42 false
           (after (writeStorage 1 10 1 42 false) forkedMerkleMachine)
           0 (rootManager true genesisWorld));
    [apply rootMachine_wellChained|reflexivity|reflexivity
    |vm_compute; reflexivity|vm_compute; reflexivity|reflexivity
    |apply rootManager_neverWritten].
Defined.

Lemma resolve_keeps_fork_trace_witness :
  objects (rootMachine false genesisWorld) !! 0 = Some (rootManager false genesisWorld)
  ∧ Forall (λ c : Call, touchesCheckpoints c = false ∧ receiver c ≠ Some 0)
      [WriteStorage 1 10 1 42 false; ReadStorage 1 10 1]
    ∧ ∃ (m3 : Machine) (sm3 fs : AvmPersistableStateManager),
        objects
          (execute [WriteStorage 1 10 1 42 false; ReadStorage 1 10 1]
             (after (fork 0) (rootMachine false genesisWorld)))
        !! length (objects (rootMachine false genesisWorld)) = 
        Some fs
        ∧ _merge 0 (length (objects (rootMachine false genesisWorld))) true
            (execute [WriteStorage 1 10 1 42 false; ReadStorage 1 10 1]
               (after (fork 0) (rootMachine false genesisWorld))) =
          (Returns (), m3)
          ∧ objects m3 !! 0 = Some sm3
            ∧ trace sm3 =
              trace (rootManager false genesisWorld) ++
              ((λ er : TraceEvent * bool, (er.1, er.2 || true)) <$> trace fs).
Proof.
  assert (Forall (λ c : Call, touchesCheckpoints c = false ∧ receiver c ≠ Some 0)
            [WriteStorage 1 10 1 42 false; ReadStorage 1 10 1]) as Hcs
    by (repeat (constructor; [split; [reflexivity|discriminate]|]); constructor).
  split; [reflexivity|]. split; [exact Hcs|].
  apply (resolve_keeps_fork_trace (rootMachine false genesisWorld) 0
           (rootManager false genesisWorld)
           [WriteStorage 1 10 1 42 false; ReadStorage 1 10 1] true);
    [reflexivity|exact Hcs].
Defined.

Lemma fromPrivate_returns_iff_witness :
  objects (rootMachine true genesisWorld) !! 0 = Some (rootManager true genesisWorld)
  ∧ (doMerkleOperations (rootManager true genesisWorld) = false
     ∨ wellFormed (nullifierTree (trees (worldStateDB (rootMachine true genesisWorld)))))
    ∧ (NoDup (filter (λ n : N, negb (isEmpty n)) [7%N; 0%N; 3%N])
       ∧ Forall
           (λ n : N,
              nullifierKnown (rootMachine true genesisWorld)
                (rootManager true genesisWorld) n =
              false)
           (filter (λ n : N, negb (isEmpty n)) [7%N; 0%N; 3%N])
       → completion (writeSiloedNullifiersFromPrivate 0 [7%N; 0%N; 3%N])
           (rootMachine true genesisWorld) =
         Returns ())
      ∧ (¬ (NoDup (filter (λ n : N, negb (isEmpty n)) [7%N; 0%N; 3%N])
            ∧ Forall
                (λ n : N,
                   nullifierKnown (rootMachine true genesisWorld)
                     (rootManager true genesisWorld) n =
                   false)
                (filter (λ n : N, negb (isEmpty n)) [7%N; 0%N; 3%N]))
         → completion (writeSiloedNullifiersFromPrivate 0 [7%N; 0%N; 3%N])
             (rootMachine true genesisWorld) =
           Throws NullifierCollisionError).
Proof.
  assert (doMerkleOperations (rootManager true genesisWorld) = false ∨
          wellFormed
            (nullifierTree (trees (worldStateDB (rootMachine true genesisWorld)))))
    as Hok by (right; exact wellFormed_initial).
  split; [reflexivity|]. split; [exact Hok|].
  apply (fromPrivate_returns_iff (rootMachine true genesisWorld) 0
           (rootManager true genesisWorld) [7; 0; 3]%N);
    [reflexivity|exact Hok].
Defined.

Lemma readStorage_completion_witness :
  objects (rootMachine true persistedWorld) !! 0 = Some (rootManager true persistedWorld)
  ∧ (doMerkleOperations (rootManager true persistedWorld) = false
     → completion (readStorage 0 10 1) (rootMachine true persistedWorld) =
       Returns
         (resolvedValue (rootMachine true persistedWorld)
            (rootManager true persistedWorld) 10 1))
    ∧ (doMerkleOperations (rootManager true persistedWorld) = true
       → wellFormed
           (publicDataTree (trees (worldStateDB (rootMachine true persistedWorld))))
         → ∃ (i : nat) (present : bool),
             IndexedTree.getPreviousValueIndex
               (publicDataTree (trees (worldStateDB (rootMachine true persistedWorld))))
               (computePublicDataTreeLeafSlot 10 1) =
             Some (i, present)
             ∧ completion (readStorage 0 10 1) (rootMachine true persistedWorld) =
               (if
                 present &&
                 negb
                   (persistedValue
                      (publicDataTree
                         (trees (worldStateDB (rootMachine true persistedWorld))))
                      (computePublicDataTreeLeafSlot 10 1) =?
                    resolvedValue (rootMachine true persistedWorld)
                      (rootManager true persistedWorld) 10 1)%N
                then Throws (AssertionError PublicDataReadValueMismatch)
                else
                 Returns
                   (resolvedValue (rootMachine true persistedWorld)
                      (rootManager true persistedWorld) 10 1))).
Proof.
  split; [reflexivity|].
  apply (readStorage_completion (rootMachine true persistedWorld) 0
           (rootManager true persistedWorld) 10 1).
  reflexivity.
Defined.

Lemma writeStorage_completion_witness :
  objects (rootMachine true persistedWorld) !! 0 = Some (rootManager true persistedWorld)
  ∧ (doMerkleOperations (rootManager true persistedWorld) = false
     → completion (writeStorage 0 10 1 7 false) (rootMachine true persistedWorld) =
       Returns ())
    ∧ (doMerkleOperations (rootManager true persistedWorld) = true
       → completion (writeStorage 0 10 1 7 false) (rootMachine true persistedWorld) =
         match
           IndexedTree.getPreviousValueIndex
             (publicDataTree (trees (worldStateDB (rootMachine true persistedWorld))))
             (computePublicDataTreeLeafSlot 10 1)
         with
         | Some _ => Returns ()
         | None => Throws (AssertionError PublicDataInsertionFailed)
         end)
      ∧ ∀ (m1 : Machine) (value' : N) (protocolWrite' : bool),
          writeStorage 0 10 1 7 false (rootMachine true persistedWorld) =
          (Returns (), m1)
          → completion (writeStorage 0 10 1 value' protocolWrite') m1 = Returns ().
Proof.
  split; [reflexivity|].
  apply (writeStorage_completion (rootMachine true persistedWorld) 0
           (rootManager true persistedWorld) 10 1 7 false).
  reflexivity.
Defined.

Lemma merge_accepts_witness :
  objects forkedMachine !! 1 = Some rootFork
  ∧ objects forkedMachine !! 0 = Some (rootManager false genesisWorld)
    ∧ alreadyMergedIntoParent (rootManager false genesisWorld) = false
      ∧ checkpoints (worldStateDB forkedMachine) = [genesisTrees]
        ∧ resolved 0 (after (_merge 1 0 false) forkedMachine)
          ∧ (pendingNewTo rootFork (rootManager false genesisWorld)
             ∧ NoDup (nullifierCache (nullifiers (rootManager false genesisWorld)))
             → completion (_merge 1 0 false) forkedMachine = Returns ()
               ∧ checkpoints (worldStateDB (after (_merge 1 0 false) forkedMachine)) = [])
            ∧ (¬ (pendingNewTo rootFork (rootManager false genesisWorld)
                  ∧ NoDup (nullifierCache (nullifiers (rootManager false genesisWorld))))
               → completion (_merge 1 0 false) forkedMachine =
                 Throws NullifierCollisionError
                 ∧ checkpoints (worldStateDB (after (_merge 1 0 false) forkedMachine)) =
                   [genesisTrees]).
Proof.
  split; [reflexivity|]. split; [reflexivity|]. split; [reflexivity|].
  split; [reflexivity|].
  apply (merge_accepts forkedMachine 1 0 rootFork (rootManager false genesisWorld)
           false genesisTrees []); reflexivity.
Defined.

Lemma execute_only_grows_witness :
  objects (rootMachine true genesisWorld) !! 0 = Some (rootManager true genesisWorld)
  ∧ ∃ sm' : AvmPersistableStateManager,
      objects
        (execute
           [WriteSiloedNullifier 0 7; Fork 0; WriteStorage 1 10 1 42 false; Reject 0 1]
           (rootMachine true genesisWorld))
      !! 0 = Some sm' ∧ grownFrom (rootManager true genesisWorld) sm'.
Proof.
  split; [reflexivity|].
  apply (execute_only_grows
           [WriteSiloedNullifier 0 7; Fork 0; WriteStorage 1 10 1 42 false;
            Reject 0 1]
           (rootMachine true genesisWorld) 0 (rootManager true genesisWorld)).
  reflexivity.
Defined.

Lemma plain_mode_keeps_trees_witness :
  plainMode (rootMachine false persistedWorld)
  ∧ Forall (eq (trees (worldStateDB (rootMachine false persistedWorld))))
      (checkpoints (worldStateDB (rootMachine false persistedWorld)))
    ∧ Forall (λ c : Call, createsMerkle c = false)
        [Fork 0; WriteStorage 1 10 1 42 false; WriteSiloedNullifier 1 7; Reject 0 1]
      ∧ trees
          (worldStateDB
             (execute
                [Fork 0; WriteStorage 1 10 1 42 false; WriteSiloedNullifier 1 7;
                 Reject 0 1]
                (rootMachine false persistedWorld))) =
        trees (worldStateDB (rootMachine false persistedWorld))
        ∧ plainMode
            (execute
               [Fork 0; WriteStorage 1 10 1 42 false; WriteSiloedNullifier 1 7;
                Reject 0 1]
               (rootMachine false persistedWorld)).
Proof.
  split; [apply rootMachine_plainMode|]. split; [constructor|].
  split; [repeat constructor|].
  apply (plain_mode_keeps_trees
           [Fork 0; WriteStorage 1 10 1 42 false; WriteSiloedNullifier 1 7;
            Reject 0 1]
           (rootMachine false persistedWorld));
    [apply rootMachine_plainMode|constructor|repeat constructor].
Defined.

Lemma readStorage_hint_sound_witness :
  objects (rootMachine true persistedWorld) !! 0 = Some (rootManager true persistedWorld)
  ∧ doMerkleOperations (rootManager true persistedWorld) = true
    ∧ readStorage 0 10 1 (rootMachine true persistedWorld) =
      (Returns 7%N, after (readStorage 0 10 1) (rootMachine true persistedWorld))
      ∧ ∃ (i : nat) (l : IndexedTreeLeafPreimage),
          publicDataTree (trees (worldStateDB (rootMachine true persistedWorld))) !! i =
          Some l
          ∧ (leafKey l = computePublicDataTreeLeafSlot 10 1 ∧ leafValue l = 7%N
             ∨ IndexedTree.skips l (computePublicDataTreeLeafSlot 10 1) = true)
            ∧ after (readStorage 0 10 1) (rootMachine true persistedWorld) =
              {|
                objects :=
                  <[0:=setTrace
                         (Trace.record
                            (PublicStorageRead 10 1 7
                               (Some
                                  {|
                                    hintPreimage := l;
                                    hintIndex := N.of_nat i;
                                    hintPath :=
                                      indexedTreePath
                                        (publicDataTree
                                           (trees
                                              (worldStateDB
                                                 (rootMachine true persistedWorld))))
                                        i
                                  |}))
                            (trace (rootManager true persistedWorld)))
                         (rootManager true persistedWorld)]>
                    (objects (rootMachine true persistedWorld));
                worldStateDB := worldStateDB (rootMachine true persistedWorld)
              |}.
Proof.
  split; [reflexivity|]. split; [reflexivity|]. split; [vm_compute; reflexivity|].
  apply (readStorage_hint_sound (rootMachine true persistedWorld) 0
           (rootManager true persistedWorld) 10 1 7
           (after (readStorage 0 10 1) (rootMachine true persistedWorld)));
    vm_compute; reflexivity.
Defined.

Lemma checkNullifierExists_hint_sound_witness :
  objects (rootMachine true genesisWorld) !! 0 = Some (rootManager true genesisWorld)
  ∧ doMerkleOperations (rootManager true genesisWorld) = true
    ∧ checkNullifierExists 0 10 5 (rootMachine true genesisWorld) =
      (Returns false, after (checkNullifierExists 0 10 5) (rootMachine true genesisWorld))
      ∧ ∃ (i : nat) (l : IndexedTreeLeafPreimage),
          nullifierTree (trees (worldStateDB (rootMachine true genesisWorld))) !! i =
          Some l
          ∧ (if false
             then leafKey l = siloNullifier 10 5
             else IndexedTree.skips l (siloNullifier 10 5) = true)
            ∧ after (checkNullifierExists 0 10 5) (rootMachine true genesisWorld) =
              {|
                objects :=
                  <[0:=setTrace
                         (Trace.record
                            (NullifierCheck (siloNullifier 10 5) false
                               (Some
                                  {|
                                    hintPreimage := l;
                                    hintIndex := N.of_nat i;
                                    hintPath :=
                                      indexedTreePath
                                        (nullifierTree
                                           (trees
                                              (worldStateDB
                                                 (rootMachine true genesisWorld))))
                                        i
                                  |}))
                            (trace (rootManager true genesisWorld)))
                         (rootManager true genesisWorld)]>
                    (objects (rootMachine true genesisWorld));
                worldStateDB := worldStateDB (rootMachine true genesisWorld)
              |}.
Proof.
  split; [reflexivity|]. split; [reflexivity|]. split; [vm_compute; reflexivity|].
  apply (checkNullifierExists_hint_sound (rootMachine true genesisWorld) 0
           (rootManager true genesisWorld) 10 5 false
           (after (checkNullifierExists 0 10 5) (rootMachine true genesisWorld)));
    vm_compute; reflexivity.
Defined.

Lemma writeSiloedNullifier_new_witness :
  objects (rootMachine true genesisWorld) !! 0 = Some (rootManager true genesisWorld)
  ∧ doMerkleOperations (rootManager true genesisWorld) = true
    ∧ wellFormed (nullifierTree (trees (worldStateDB (rootMachine true genesisWorld))))
      ∧ nullifierKnown (rootMachine true genesisWorld) (rootManager true genesisWorld) 7 =
        false
        ∧ ∃ (i : nat) (low : IndexedTreeLeafPreimage) (m1 : Machine) 
            (sm1 : AvmPersistableStateManager),
            writeSiloedNullifier 0 7 (rootMachine true genesisWorld) = (Returns (), m1)
            ∧ nullifierTree (trees (worldStateDB (rootMachine true genesisWorld))) !! i =
              Some low
              ∧ IndexedTree.skips low 7 = true
                ∧ objects m1 !! 0 = Some sm1
                  ∧ trace sm1 =
                    Trace.record
                      (NewNullifier 7
                         (Some
                            ({|
                               hintPreimage := low;
                               hintIndex := N.of_nat i;
                               hintPath :=
                                 indexedTreePath
                                   (nullifierTree
                                      (trees
                                         (worldStateDB (rootMachine true genesisWorld))))
                                   i
                             |},
                             indexedTreePath (nullifierTree (trees (worldStateDB m1)))
                               (length
                                  (nullifierTree
                                     (trees
                                        (worldStateDB (rootMachine true genesisWorld))))))))
                      (trace (rootManager true genesisWorld))
                    ∧ nullifierCache (nullifiers sm1) =
                      nullifierCache (nullifiers (rootManager true genesisWorld)) ++
                      [7%N]
                      ∧ nullifierTree (trees (worldStateDB m1))
                        !! length
                             (nullifierTree
                                (trees (worldStateDB (rootMachine true genesisWorld)))) =
                        Some
                          {|
                            leafKey := 7;
                            leafValue := 0;
                            nextKey := nextKey low;
                            nextIndex := nextIndex low
                          |}
                        ∧ nullifierTree (trees (worldStateDB m1)) !! i =
                          Some
                            (withNext low 7
                               (length
                                  (nullifierTree
                                     (trees
                                        (worldStateDB (rootMachine true genesisWorld)))))).
Proof.
  split; [reflexivity|]. split; [reflexivity|].
  split; [exact wellFormed_initial|]. split; [vm_compute; reflexivity|].
  apply (writeSiloedNullifier_new (rootMachine true genesisWorld) 0
           (rootManager true genesisWorld) 7);
    [reflexivity|reflexivity|exact wellFormed_initial|vm_compute; reflexivity].
Defined.

Lemma peekStorage_frame_witness :
  objects (rootMachine true persistedWorld) !! 0 = Some (rootManager true persistedWorld)
  ∧ ∃ v : N,
      peekStorage 0 10 1 (rootMachine true persistedWorld) =
      (Returns v, rootMachine true persistedWorld)
      ∧ v =
        resolvedValue (rootMachine true persistedWorld) (rootManager true persistedWorld)
          10 1
        ∧ match
            readHereOrParent (objects (rootMachine true persistedWorld))
              (publicStorage (rootManager true persistedWorld)) (
              10%N, 1%N)
          with
          | Some cached =>
              v = cached
              ∧ ∀ w : WorldStateDB,
                  peekStorage 0 10 1
                    {|
                      objects := objects (rootMachine true persistedWorld);
                      worldStateDB := w
                    |} =
                  (Returns v,
                   {|
                     objects := objects (rootMachine true persistedWorld);
                     worldStateDB := w
                   |})
          | None =>
              completion (storageRead 10 1) (rootMachine true persistedWorld) = Returns v
              ∧ v =
                persistedValue
                  (publicDataTree
                     (trees (worldStateDB (rootMachine true persistedWorld))))
                  (computePublicDataTreeLeafSlot 10 1)
          end
          ∧ (∀ v' : N,
               completion (readStorage 0 10 1) (rootMachine true persistedWorld) =
               Returns v' → v' = v)
            ∧ (doMerkleOperations (rootManager true persistedWorld) = false
               → completion (readStorage 0 10 1) (rootMachine true persistedWorld) =
                 Returns v).
Proof.
  split; [reflexivity|].
  apply (peekStorage_frame (rootMachine true persistedWorld) 0
           (rootManager true persistedWorld) 10 1).
  reflexivity.
Defined.





Lemma queries_throw_untouched_witness :
  isQuery (CheckNullifierExists 0 10 5) = true
  ∧ completion (invoke (CheckNullifierExists 0 10 5))
      (after (reject 0 1) (after (writeNullifier 1 10 5) forkedMerkleMachine)) =
    Throws (AssertionError NullifierTreeDisagreement)
    ∧ after (invoke (CheckNullifierExists 0 10 5))
        (after (reject 0 1) (after (writeNullifier 1 10 5) forkedMerkleMachine)) =
      after (reject 0 1) (after (writeNullifier 1 10 5) forkedMerkleMachine).
Proof.
  split; [reflexivity|]. split; [vm_compute; reflexivity|].
  apply (queries_throw_untouched (CheckNullifierExists 0 10 5)
           (after (reject 0 1) (after (writeNullifier 1 10 5) forkedMerkleMachine))
           (AssertionError NullifierTreeDisagreement));
    [reflexivity|vm_compute; reflexivity].
Defined.

End Witnesses.
